(** * ng-packagr: dependency graph, file caches and watch-mode invalidation

    A shallow embedding of
    - [invalidateEntryPointsAndCacheOnFileChange] (file-system/file-watch.ts),
    - the caching compiler host built by [cacheCompilerHost]
      (ts/cache-compiler-host.ts).

    Node objects live in a heap and are addressed by reference ([node_id]);
    JavaScript [Map] and [Set] values whose iteration order is observable are
    insertion-ordered lists; caches that are only read and written by key are
    finite maps. Calls to collaborators are recorded in a chronological trace. *)

From stdpp Require Import base list strings gmap.

Local Open Scope string_scope.
Local Open Scope list_scope.
Local Open Scope nat_scope.

(** ** JavaScript library functions used by the sources *)

Module Js.

(** [String.prototype.endsWith]. *)
Definition endsWith (s suffix : string) : bool :=
  let n := String.length s in
  let k := String.length suffix in
  (k <=? n)%nat && String.eqb (String.substring (n - k) k s) suffix.

(** [String.prototype.includes]. *)
Fixpoint includes (s sub : string) : bool :=
  match s with
  | EmptyString => String.prefix sub s
  | String _ s' => String.prefix sub s || includes s' sub
  end.

(** Truthiness of a string value: only the empty string is falsy. *)
Definition truthy (s : string) : bool := negb (String.eqb s EmptyString).

(** An insertion-ordered [Map<string, V>]. *)
Abbreviation Map V := (list (string * V)).

Fixpoint Map_get {V} (k : string) (m : Map V) : option V :=
  match m with
  | [] => None
  | (k', v) :: m' => if decide (k = k') then Some v else Map_get k m'
  end.

(** [Map.prototype.set]: an existing key keeps its position, a new key goes
    last. *)
Fixpoint Map_set {V} (k : string) (v : V) (m : Map V) : Map V :=
  match m with
  | [] => [(k, v)]
  | (k', v') :: m' =>
      if decide (k = k') then (k, v) :: m' else (k', v') :: Map_set k v m'
  end.

(** [Set.prototype.add] on an insertion-ordered set. *)
Definition Set_add {A} `{EqDecision A} (x : A) (s : list A) : list A :=
  if decide (x ∈ s) then s else s ++ [x].

(** [[...new Set(xs)]]: deduplication keeping first occurrences. *)
Definition Set_from {A} `{EqDecision A} (xs : list A) : list A :=
  fold_left (λ s x, Set_add x s) xs [].

End Js.

(** ** Data model *)

(** A reference to a node object. *)
Abbreviation node_id := nat (only parsing).

(** Entry of an entry point's [outputCache]. *)
Module OutputFile.
Record t := mk { content : string; version : string }.
End OutputFile.

(** Result of [StylesheetProcessor.bundleFile]. *)
Record BundleResult := mkBundleResult {
  referencedFiles : list string;
  contents : string;
  errors : list string;
  warnings : list string;
}.

(** Everything the two source files import and that is not part of them:
    the URL helpers of ng-package/nodes, [STATE_PENDING], [ensureUnixPath],
    Node's [path.extname] and sha256, the stylesheet processor and the
    TypeScript compiler host. The last two are objects with their own state. *)
Class Collaborators := {
  fileUrl : string → string;
  (** [None] is [undefined]. *)
  fileUrlPath : string → option string;
  STATE_PENDING : string;
  ensureUnixPath : string → string;
  extname : string → string;
  sha256hex : string → string;
  SourceFile : Type;
  StylesheetProcessor : Type;
  (** [invalidate(files)]: the affected files, or [undefined]. *)
  sp_invalidate :
    StylesheetProcessor → list string → StylesheetProcessor * option (list string);
  sp_bundleFile :
    StylesheetProcessor → string → StylesheetProcessor * BundleResult;
  CompilerHost : Type;
  host_fileExists : CompilerHost → string → CompilerHost * bool;
  host_readFile : CompilerHost → string → CompilerHost * option string;
  (** file name, language version *)
  host_getSourceFile : CompilerHost → string → nat → CompilerHost * option SourceFile;
  (** file name, data, writeByteOrderMark *)
  host_writeFile : CompilerHost → string → string → bool → CompilerHost;
}.

(** A call either returns or throws; the mutations made before a throw
    stay. *)
Inductive Outcome (A : Type) :=
| Returned (a : A)
| Threw (message : string).
Arguments Returned {A} a.
Arguments Threw {A} message.

Section Model.
Context `{Collaborators}.

(** Modelled from the spec: the Content Cache entry of file-system/file-cache
    (§3): every field is unknown ([None]) until populated. *)
Record CacheEntry := mkCacheEntry {
  exists_ : option bool;
  content : option string;
  sourceFile : option SourceFile;
}.

Definition emptyEntry : CacheEntry := mkCacheEntry None None None.

(** Modelled from the spec: the Content Cache [FileCache] (§4.1), a pure
    key-value store with [getOrCreate] and [delete]. *)
Abbreviation FileCache := (gmap string CacheEntry).

(** Modelled from the spec: [getOrCreate(id)] creates an empty entry if the
    file has none and never fails (§4.1). *)
Definition getOrCreate (fileName : string) (c : FileCache) : CacheEntry * FileCache :=
  match c !! fileName with
  | Some e => (e, c)
  | None => (emptyEntry, <[fileName := emptyEntry]> c)
  end.

(** Modelled from the spec: [delete(id)] removes the entry and does nothing
    if there is none (§4.1). *)
Definition FileCache_delete (fileName : string) (c : FileCache) : FileCache :=
  delete fileName c.

(** Modelled from the spec: the target role of a node (§3), the part of
    [EntryPointNode] the sources use: [state] and the fields of [cache]. *)
Record Target := mkTarget {
  state : string;
  outputCache : gmap string OutputFile.t;
  analysesSourcesFileCache : FileCache;
  stylesheetProcessor : option StylesheetProcessor;
}.

(** Modelled from the spec: [Node] of graph/node (§3). [dependents] is the
    set of nodes this node depends on, [dependees] the set of nodes that
    depend on it; both are sets of references in insertion order. *)
Record Node := mkNode {
  url : string;
  dependents : list node_id;
  dependees : list node_id;
  target : option Target;
}.

(** Modelled from the spec: [isEntryPoint] of ng-package/nodes tests the
    target role flag of the node (§3, §4.4 step 4). *)
Definition isEntryPoint (node : Node) : bool :=
  match target node with Some _ => true | None => false end.

(** Calls to collaborators and cache writes, in the order they happen. *)
Inductive Event :=
| EvSourcesDelete (filePath : string)
| EvStylesInvalidate (entryPoint : node_id) (files : list string)
| EvAnalysesDelete (entryPoint : node_id) (filePath : string)
| EvSetState (entryPoint : node_id) (s : string)
| EvOutputGet (entryPoint : node_id) (fileName : string)
| EvOutputSet (entryPoint : node_id) (fileName : string)
| EvBundleFile (fileName : string)
| EvHostFileExists (fileName : string)
| EvHostReadFile (fileName : string)
| EvHostGetSourceFile (fileName : string)
| EvHostWriteFile (fileName data : string) (writeByteOrderMark : bool).

(** The objects a build session shares. [graph] is the store of
    [BuildGraph] (modelled from the spec, §4.3): node URL to node, in
    insertion order. [bundler] is the [stylesheetProcessor] argument of
    [cacheCompilerHost]. *)
Record World := mkWorld {
  heap : list Node;
  graph : Js.Map node_id;
  sourcesFileCache : FileCache;
  compilerHost : CompilerHost;
  bundler : option StylesheetProcessor;
  trace : list Event;
}.

Definition setHeap (h : list Node) (w : World) : World :=
  mkWorld h (graph w) (sourcesFileCache w) (compilerHost w) (bundler w) (trace w).
Definition setGraph (g : Js.Map node_id) (w : World) : World :=
  mkWorld (heap w) g (sourcesFileCache w) (compilerHost w) (bundler w) (trace w).
Definition setSources (c : FileCache) (w : World) : World :=
  mkWorld (heap w) (graph w) c (compilerHost w) (bundler w) (trace w).
Definition setHost (c : CompilerHost) (w : World) : World :=
  mkWorld (heap w) (graph w) (sourcesFileCache w) c (bundler w) (trace w).
Definition setBundler (b : option StylesheetProcessor) (w : World) : World :=
  mkWorld (heap w) (graph w) (sourcesFileCache w) (compilerHost w) b (trace w).
Definition log (e : Event) (w : World) : World :=
  mkWorld (heap w) (graph w) (sourcesFileCache w) (compilerHost w) (bundler w)
    (trace w ++ [e]).

(** Field updates on a node object. *)
Definition alterNode (f : Node → Node) (n : node_id) (w : World) : World :=
  setHeap (alter f n (heap w)) w.

Definition alterTarget (f : Target → Target) (node : Node) : Node :=
  mkNode (url node) (dependents node) (dependees node) (f <$> target node).

Definition targetOf (w : World) (n : node_id) : option Target :=
  heap w !! n ≫= target.

Definition dependentsOf (w : World) (n : node_id) : list node_id :=
  from_option dependents [] (heap w !! n).

Definition dependeesOf (w : World) (n : node_id) : list node_id :=
  from_option dependees [] (heap w !! n).

(** [fileUrlPath(node.url)]. *)
Definition pathOf (w : World) (n : node_id) : option string :=
  (heap w !! n) ≫= (λ node, fileUrlPath (url node)).

(** ** BuildGraph queries *)

(** The nodes of the graph, in insertion order. *)
Definition graph_entries (w : World) : list node_id := (graph w).*2.

(** Modelled from the spec: [BuildGraph.find(predicate)] is the first node,
    in insertion order, that satisfies the predicate (§4.3). *)
Definition graph_find (w : World) (by_ : Node → bool) : option node_id :=
  List.find (λ n, from_option by_ false (heap w !! n)) (graph_entries w).

(** Modelled from the spec: [BuildGraph.filter(predicate)] is all matching
    nodes, in insertion order (§4.3). *)
Definition graph_filter (w : World) (by_ : Node → bool) : list node_id :=
  List.filter (λ n, from_option by_ false (heap w !! n)) (graph_entries w).

(** ** file-watch.ts: invalidateEntryPointsAndCacheOnFileChange *)

(** Lines 92-100: resolve every changed path to its node. *)
Definition findChangedNodes (w : World) (files : list string) : Js.Map node_id :=
  fold_left
    (λ allNodesToClean filePath,
       match graph_find w (λ node, String.eqb (fileUrl filePath) (url node)) with
       | None => allNodesToClean
       | Some nodeToClean => Js.Map_set filePath nodeToClean allNodesToClean
       end)
    files [].

(** State of the loop of lines 104-126. *)
Record Sweep := mkSweep {
  allNodesToClean : Js.Map node_id;
  potentialStylesResources : list string;
  sweepWorld : World;
}.

(** Lines 114-125, one dependee of a changed resource. *)
Definition pullDependee (w : World) (acc : Js.Map node_id * list string)
    (dependee : node_id) : Js.Map node_id * list string :=
  match pathOf w dependee with
  | None => acc
  | Some filePath =>
      if Js.truthy filePath then
        (Js.Map_set filePath dependee acc.1,
         if Js.endsWith filePath ".ts" then acc.2 else Js.Set_add filePath acc.2)
      else acc
  end.

(** Lines 105-125, the body for one entry of [allNodesToClean]. *)
Definition sweepStep (filePath : string) (nodeToClean : node_id) (s : Sweep) : Sweep :=
  let w := sweepWorld s in
  let w' :=
    log (EvSourcesDelete filePath)
      (setSources (FileCache_delete filePath (sourcesFileCache w)) w) in
  if Js.endsWith filePath ".ts" then
    mkSweep (allNodesToClean s) (potentialStylesResources s) w'
  else
    let '(all, resources) :=
      fold_left (pullDependee w)
        (dependeesOf w nodeToClean)
        (allNodesToClean s, Js.Set_add filePath (potentialStylesResources s)) in
    mkSweep all resources w'.

(** Lines 104-126. The iterator of a [Map] also visits the entries that are
    added while it runs, so the loop is a cursor [i] into the growing list;
    [fuel] bounds the number of entries visited. *)
Fixpoint sweep (fuel : nat) (i : nat) (s : Sweep) : option Sweep :=
  match allNodesToClean s !! i with
  | None => Some s
  | Some (filePath, nodeToClean) =>
      match fuel with
      | O => None
      | S fuel' => sweep fuel' (S i) (sweepStep filePath nodeToClean s)
      end
  end.

(** Every key of the map is a changed path or the path of a node object, so
    this many visits are enough (see [sweep_enough_fuel]). *)
Definition sweepFuel (w : World) (files : list string) : nat :=
  length files + length (heap w).

(** Lines 90-126. *)
Definition collectNodesToClean (w : World) (files : list string) : option Sweep :=
  sweep (sweepFuel w files) 0 (mkSweep (findChangedNodes w files) [] w).

(** Line 132. *)
Definition invalidateStyles (resources : list string) (entryPoint : node_id)
    (w : World) : bool * World :=
  match resources with
  | [] => (false, w)
  | _ :: _ =>
      match targetOf w entryPoint ≫= stylesheetProcessor with
      | None => (false, w)
      | Some sp =>
          let '(sp', affected) := sp_invalidate sp resources in
          (match affected with Some (_ :: _) => true | _ => false end,
           log (EvStylesInvalidate entryPoint resources)
             (alterNode
                (alterTarget (λ t, mkTarget (state t) (outputCache t)
                                     (analysesSourcesFileCache t) (Some sp')))
                entryPoint w))
      end
  end.

(** Lines 136-141. *)
Definition cleanAnalysed (entryPoint : node_id) (acc : bool * World)
    (entry : string * node_id) : bool * World :=
  let '(filePath, dependent) := entry in
  if decide (dependent ∈ dependentsOf acc.2 entryPoint) then
    (true,
     log (EvAnalysesDelete entryPoint filePath)
       (alterNode
          (alterTarget (λ t, mkTarget (state t) (outputCache t)
                               (FileCache_delete filePath (analysesSourcesFileCache t))
                               (stylesheetProcessor t)))
          entryPoint acc.2))
  else acc.

(** Lines 130-147, the body for one entry point: its [isDirty] flag and the
    world afterwards. *)
Definition checkEntryPoint (all : Js.Map node_id) (resources : list string)
    (entryPoint : node_id) (w : World) : bool * World :=
  let '(isDirty, w') :=
    fold_left (cleanAnalysed entryPoint) all (invalidateStyles resources entryPoint w) in
  if isDirty then
    (true,
     log (EvSetState entryPoint STATE_PENDING)
       (alterNode
          (alterTarget (λ t, mkTarget STATE_PENDING (outputCache t)
                               (analysesSourcesFileCache t) (stylesheetProcessor t)))
          entryPoint w'))
  else (false, w').

(** Lines 129-148. *)
Definition markEntryPoints (all : Js.Map node_id) (resources : list string)
    (entryPoints : list node_id) (start : bool * World) : bool * World :=
  fold_left
    (λ acc entryPoint,
       let '(isDirty, w') := checkEntryPoint all resources entryPoint acc.2 in
       (acc.1 || isDirty, w'))
    entryPoints start.

(** Lines 84-151. The result is [None] only if the sweep runs out of fuel,
    which [collectNodesToClean_total] excludes. *)
Definition invalidateEntryPointsAndCacheOnFileChange (w : World)
    (files : list string) : option (bool * World) :=
  match collectNodesToClean w files with
  | None => None
  | Some s =>
      let w' := sweepWorld s in
      Some (markEntryPoints (allNodesToClean s) (potentialStylesResources s)
              (graph_filter w' isEntryPoint) (false, w'))
  end.

(** ** cache-compiler-host.ts: the caching compiler host *)

Definition Op (A : Type) : Type := World → Outcome A * World.

Definition ret {A} (a : A) : Op A := λ w, (Returned a, w).
Definition throw {A} (message : string) : Op A := λ w, (Threw message, w).
Definition bind {A B} (m : Op A) (k : A → Op B) : Op B :=
  λ w, match m w with
       | (Returned a, w') => k a w'
       | (Threw message, w') => (Threw message, w')
       end.
Definition gets {A} (f : World → A) : Op A := λ w, (Returned (f w), w).
Definition modify (f : World → World) : Op unit := λ w, (Returned (), f w).

Notation "'let*' x ':=' m 'in' k" := (bind m (λ x, k))
  (at level 10, x name, m at level 100, k at level 200, only parsing).
Notation "m ';;' k" := (bind m (λ _, k))
  (at level 100, k at level 200, right associativity, only parsing).

(** Modelled from the spec: [BuildGraph.get(id)] is the node registered
    under the identifier, if any (§4.3). *)
Definition graph_get (nodeUri : string) : Op (option node_id) :=
  gets (λ w, Js.Map_get nodeUri (graph w)).

(** Modelled from the spec: [BuildGraph.put(node)] registers a new node
    under its URL and fails with a DuplicateNode condition if the identifier
    is registered already (§4.3). *)
Definition graph_put (node : node_id) : Op unit :=
  λ w, match heap w !! node with
       | None => (Threw "TypeError", w)
       | Some n =>
           match Js.Map_get (url n) (graph w) with
           | Some _ => (Threw "DuplicateNode", w)
           | None => (Returned (), setGraph (Js.Map_set (url n) node (graph w)) w)
           end
       end.

(** [new Node(nodeUri)]: a fresh object with no edges and no role. *)
Definition newNode (nodeUri : string) : Op node_id :=
  λ w, (Returned (length (heap w)), setHeap (heap w ++ [mkNode nodeUri [] [] None]) w).

(** Modelled from the spec: [addEdge(from, to)] adds [to] to what [from]
    depends on and [from] to the dependees of [to], and is idempotent (§4.3).
    [Node.dependsOn] does this for each of its arguments. *)
Definition addEdge (from to : node_id) (w : World) : World :=
  alterNode (λ n, mkNode (url n) (Js.Set_add to (dependents n)) (dependees n) (target n))
    from
    (alterNode (λ n, mkNode (url n) (dependents n) (Js.Set_add from (dependees n)) (target n))
       to w).

(** Modelled from the spec: [node.dependsOn(dependent)], one [addEdge] per
    argument, in order. *)
Definition dependsOn (node : node_id) (dependent : list node_id) : Op unit :=
  modify (λ w, fold_left (λ w' newDep, addEdge node newDep w') dependent w).

(** Lines 27-37. *)
Definition getNode (fileName : string) : Op node_id :=
  let nodeUri := fileUrl (ensureUnixPath fileName) in
  let* found := graph_get nodeUri in
  match found with
  | Some node => ret node
  | None =>
      let* node := newNode nodeUri in
      graph_put node;;
      ret node
  end.

(** Lines 39-42. *)
Definition addDependee (entryPoint : node_id) (fileName : string) : Op unit :=
  let* node := getNode fileName in
  dependsOn entryPoint [node].

(** Calls into the wrapped TypeScript host and the stylesheet processor. *)
Definition callFileExists (fileName : string) : Op bool :=
  λ w, let '(h, r) := host_fileExists (compilerHost w) fileName in
       (Returned r, log (EvHostFileExists fileName) (setHost h w)).

Definition callReadFile (fileName : string) : Op (option string) :=
  λ w, let '(h, r) := host_readFile (compilerHost w) fileName in
       (Returned r, log (EvHostReadFile fileName) (setHost h w)).

Definition callGetSourceFile (fileName : string) (languageVersion : nat)
    : Op (option SourceFile) :=
  λ w, let '(h, r) := host_getSourceFile (compilerHost w) fileName languageVersion in
       (Returned r, log (EvHostGetSourceFile fileName) (setHost h w)).

Definition callWriteFile (fileName data : string) (writeByteOrderMark : bool)
    : Op unit :=
  modify (λ w, log (EvHostWriteFile fileName data writeByteOrderMark)
                 (setHost (host_writeFile (compilerHost w) fileName data
                             writeByteOrderMark) w)).

Definition callBundleFile (fileName : string) : Op BundleResult :=
  λ w, match bundler w with
       | None => (Threw "TypeError", w)
       | Some sp =>
           let '(sp', r) := sp_bundleFile sp fileName in
           (Returned r, log (EvBundleFile fileName) (setBundler (Some sp') w))
       end.

(** [sourcesFileCache.getOrCreate(fileName)], and an assignment to a field
    of the entry it returned. *)
Definition cacheOf (fileName : string) : Op CacheEntry :=
  λ w, let '(e, c) := getOrCreate fileName (sourcesFileCache w) in
       (Returned e, setSources c w).

Definition assignCache (fileName : string) (f : CacheEntry → CacheEntry) : Op unit :=
  modify (λ w, setSources (alter f fileName (sourcesFileCache w)) w).

(** Lines 54-61. *)
Definition fileExists (fileName : string) : Op bool :=
  let* cache := cacheOf fileName in
  match exists_ cache with
  | None =>
      let* r := callFileExists fileName in
      assignCache fileName (λ e, mkCacheEntry (Some r) (content e) (sourceFile e));;
      ret r
  | Some r => ret r
  end.

(** Lines 63-79. *)
Definition getSourceFile (entryPoint : node_id) (fileName : string)
    (languageVersion : nat) (shouldCreateNewSourceFile : bool)
    : Op (option SourceFile) :=
  addDependee entryPoint fileName;;
  let* cache := cacheOf fileName in
  if shouldCreateNewSourceFile || negb (bool_decide (is_Some (sourceFile cache))) then
    let* r := callGetSourceFile fileName languageVersion in
    assignCache fileName (λ e, mkCacheEntry (exists_ e) (content e) r);;
    ret r
  else ret (sourceFile cache).

(** Lines 81-110. [sourceFiles] is [None] when the argument is left out. *)
Definition writeFile (entryPoint : node_id) (fileName data : string)
    (writeByteOrderMark : bool) (sourceFiles : option (list SourceFile)) : Op unit :=
  if Js.includes fileName ".ngtypecheck." then ret ()
  else
    let extension := extname fileName in
    let count := from_option length 0 sourceFiles in
    if bool_decide (count = 0) && String.eqb extension ".tsbuildinfo" then
      callWriteFile fileName data writeByteOrderMark
    else if negb (bool_decide (count = 1)) then
      throw ("Invalid TypeScript program emit for " +:+ fileName)
    else
      let* t := gets (λ w, targetOf w entryPoint) in
      match t with
      | None => throw "TypeError"
      | Some t =>
          modify (log (EvOutputGet entryPoint fileName));;
          if decide (OutputFile.content <$> outputCache t !! fileName = Some data)
          then ret ()
          else
            modify (λ w,
              log (EvOutputSet entryPoint fileName)
                (alterNode
                   (alterTarget (λ t, mkTarget (state t)
                      (<[fileName := OutputFile.mk data (sha256hex data)]> (outputCache t))
                      (analysesSourcesFileCache t) (stylesheetProcessor t)))
                   entryPoint w))
      end.

(** Lines 112-120. *)
Definition readFile (entryPoint : node_id) (fileName : string) : Op (option string) :=
  addDependee entryPoint fileName;;
  let* cache := cacheOf fileName in
  match content cache with
  | None =>
      let* r := callReadFile fileName in
      assignCache fileName (λ e, mkCacheEntry (exists_ e) r (sourceFile e));;
      ret r
  | Some c => ret (Some c)
  end.

(** The test [/(?:html?|svg)$/] of line 140. *)
Definition isTemplateExtension (extension : string) : bool :=
  Js.endsWith extension "htm" || Js.endsWith extension "html"
  || Js.endsWith extension "svg".

(** [[...referencedFiles].map(getNode)]. *)
Fixpoint getNodes (fileNames : list string) : Op (list node_id) :=
  match fileNames with
  | [] => ret []
  | fileName :: rest =>
      let* n := getNode fileName in
      let* ns := getNodes rest in
      ret (n :: ns)
  end.

(** Lines 155-159. The loop does not change the set it iterates
    ([node] is not among [depNodes]; see [propagate_dependees_other]), so it
    runs over the value the set has when the loop starts. *)
Definition propagateToSources (node : node_id) (depNodes : list node_id) : Op unit :=
  let* dependees := gets (λ w, dependeesOf w node) in
  modify (λ w,
    fold_left
      (λ w' n,
         match heap w' !! n with
         | Some dependee =>
             if Js.endsWith (url dependee) ".ts"
             then fold_left (λ w'' newDep, addEdge n newDep w'') depNodes w'
             else w'
         | None => w'
         end)
      dependees w).

(** Lines 131-178. The [await]s are taken in one step: nothing else runs
    between the start and the end of the call. *)
Definition readResource (entryPoint : node_id) (fileName : string)
    : Op (option string) :=
  addDependee entryPoint fileName;;
  let* cache := cacheOf fileName in
  match content cache with
  | None =>
      let* found := callFileExists fileName in
      if negb found then throw ("Cannot read file " +:+ fileName +:+ ".")
      else if isTemplateExtension (extname fileName) then
        let* r := callReadFile fileName in
        assignCache fileName (λ e, mkCacheEntry (exists_ e) r (sourceFile e));;
        assignCache fileName (λ e, mkCacheEntry (Some true) (content e) (sourceFile e));;
        ret r
      else
        let* bundled := callBundleFile fileName in
        let* node := getNode fileName in
        let* nodes := getNodes (referencedFiles bundled) in
        let depNodes := List.filter (λ n, negb (bool_decide (n = node))) nodes in
        dependsOn node depNodes;;
        propagateToSources node depNodes;;
        if bool_decide (errors bundled = []) then ret (Some (contents bundled))
        else throw ("An error has occuried while processing " +:+ fileName +:+ ".")
  | Some c => ret (Some c)
  end.

End Model.

(** ** A concrete instance of the collaborators, for the examples *)

Module Demo.

(** A file's URL is its path behind the [file://] protocol; only such URLs
    have a path. *)
Definition toUrl (path : string) : string := "file://" +:+ path.

Fixpoint stripPrefix (prefix s : string) : option string :=
  match prefix with
  | EmptyString => Some s
  | String c prefix' =>
      match s with
      | EmptyString => None
      | String c' s' => if Ascii.eqb c c' then stripPrefix prefix' s' else None
      end
  end.

Definition toPath (url : string) : option string := stripPrefix "file://" url.

(** Extension of a file name, from the last dot of its last segment on; it
    agrees with POSIX [path.extname] on names that do not start with a dot. *)
Fixpoint extension (path : string) : string :=
  match path with
  | EmptyString => EmptyString
  | String c rest =>
      match extension rest with
      | EmptyString =>
          if String.eqb (String c EmptyString) "." then
            if Js.includes rest "/" then EmptyString else path
          else EmptyString
      | ext => ext
      end
  end.

(** The files a stylesheet processor has bundled, with their imports. *)
Definition Styles : Type := Js.Map (list string).

(** The files among [files] that were bundled or imported by a bundle. *)
Definition invalidate (sp : Styles) (files : list string)
    : Styles * option (list string) :=
  (sp,
   Some (List.filter
           (λ f, bool_decide (is_Some (Js.Map_get f sp))
                 || bool_decide (Exists (λ e, f ∈ e.2) sp))
           files)).

(** A bundle names the imports on record and has no errors or warnings. *)
Definition bundleFile (sp : Styles) (fileName : string) : Styles * BundleResult :=
  (sp,
   mkBundleResult (default [] (Js.Map_get fileName sp))
     ("/* " +:+ fileName +:+ " */") [] []).

(** A file system: name to text. *)
Definition Files : Type := Js.Map string.

(** Paths are in UNIX form already; the digest is a tagged copy of the data,
    which is all the examples need of it. *)
Definition collaborators : Collaborators := {|
  fileUrl := toUrl;
  fileUrlPath := toPath;
  STATE_PENDING := "pending";
  ensureUnixPath := λ p, p;
  extname := extension;
  sha256hex := λ data, "sha256:" +:+ data;
  SourceFile := string;
  StylesheetProcessor := Styles;
  sp_invalidate := invalidate;
  sp_bundleFile := bundleFile;
  CompilerHost := Files;
  host_fileExists := λ fs f, (fs, bool_decide (is_Some (Js.Map_get f fs)));
  host_readFile := λ fs f, (fs, Js.Map_get f fs);
  host_getSourceFile := λ fs f _, (fs, Js.Map_get f fs);
  host_writeFile := λ fs f data _, Js.Map_set f data fs;
|}.

#[local] Existing Instance collaborators.

Definition plainNode (url : string) (dependents dependees : list node_id) : Node :=
  mkNode url dependents dependees None.

Definition entryPointNode (url : string) (dependents : list node_id)
    (analysed : list string) (styles : Styles) : Node :=
  mkNode url dependents []
    (Some (mkTarget "done" ∅ (list_to_map ((λ f, (f, emptyEntry)) <$> analysed))
             (Some styles))).

(** An entry point (node 0) that has read [a.ts] and its stylesheet [a.css];
    the stylesheet imports the partial [p.css], which the entry point never
    read itself. *)
Definition library : World :=
  mkWorld
    [ entryPointNode "ng://lib" [1; 2] ["/src/a.ts"; "/src/a.css"]
        [("/src/a.css", ["/src/p.css"])];
      plainNode "file:///src/a.ts" [2] [0];
      plainNode "file:///src/a.css" [3] [1; 0];
      plainNode "file:///src/p.css" [] [2] ]
    [ ("ng://lib", 0); ("file:///src/a.ts", 1); ("file:///src/a.css", 2);
      ("file:///src/p.css", 3) ]
    (list_to_map ((λ f, (f, emptyEntry)) <$> ["/src/a.ts"; "/src/a.css"; "/src/p.css"]))
    [ ("/src/a.ts", "import './a.css'"); ("/src/a.css", "@import 'p.css'");
      ("/src/p.css", "p {}") ]
    (Some [("/src/a.css", ["/src/p.css"])])
    [].

(** Two stylesheets that import each other; the entry point read the first. *)
Definition cycle : World :=
  mkWorld
    [ entryPointNode "ng://lib" [1] ["/src/a.scss"] [];
      plainNode "file:///src/a.scss" [2] [2; 0];
      plainNode "file:///src/b.scss" [1] [1] ]
    [ ("ng://lib", 0); ("file:///src/a.scss", 1); ("file:///src/b.scss", 2) ]
    (list_to_map ((λ f, (f, emptyEntry)) <$> ["/src/a.scss"; "/src/b.scss"]))
    []
    None
    [].

(** The library after its first emit of [/dist/a.js]. *)
Definition emitted : World :=
  (writeFile 0 "/dist/a.js" "var a;" false (Some ["a.ts"]) library).2.

(** The library once the host has been asked about [a.ts] in all three
    ways. *)
Definition warmed : World :=
  (getSourceFile 0 "/src/a.ts" 99 false
     (readFile 0 "/src/a.ts" (fileExists "/src/a.ts" library).2).2).2.

(** The library with a processor whose bundle of [a.css] refers to the
    partial, to a file no node stands for yet, and to [a.css] itself. *)
Definition restyled : World :=
  setBundler (Some [("/src/a.css", ["/src/p.css"; "/src/q.css"; "/src/a.css"])])
    library.

(** Two entry points: the library of above (node 0), and a second one
    (node 4) that has read [b.ts] only. *)
Definition workspace : World :=
  mkWorld
    [ entryPointNode "ng://lib" [1; 2] ["/src/a.ts"; "/src/a.css"]
        [("/src/a.css", ["/src/p.css"])];
      plainNode "file:///src/a.ts" [2] [0];
      plainNode "file:///src/a.css" [3] [1; 0];
      plainNode "file:///src/p.css" [] [2];
      entryPointNode "ng://other" [5] ["/other/b.ts"] [];
      plainNode "file:///other/b.ts" [] [4] ]
    [ ("ng://lib", 0); ("file:///src/a.ts", 1); ("file:///src/a.css", 2);
      ("file:///src/p.css", 3); ("ng://other", 4); ("file:///other/b.ts", 5) ]
    (list_to_map ((λ f, (f, emptyEntry)) <$> ["/src/a.ts"; "/src/a.css"; "/src/p.css"]))
    []
    None
    [].

End Demo.

(** ** Notions used to state the facts below *)

Section Notions.
Context `{Collaborators}.
Implicit Types (w : World) (s : Sweep) (files : list string).

(** [entryPoint.state], when the node is an entry point. *)
Definition stateOf w (n : node_id) : option string := state <$> targetOf w n.

(** The [isDirty] flag computed for each entry point of the third loop, in
    the order the entry points are visited. *)
Fixpoint dirtyFlags (all : Js.Map node_id) (resources : list string)
    (entryPoints : list node_id) (w : World) : list (node_id * bool) :=
  match entryPoints with
  | [] => []
  | entryPoint :: rest =>
      let '(isDirty, w') := checkEntryPoint all resources entryPoint w in
      (entryPoint, isDirty) :: dirtyFlags all resources rest w'
  end.

(** Line 132, before the loop touches anything: the set of potential style
    resources is not empty, the entry point has a stylesheet processor, and
    the processor's [invalidate] names at least one file. *)
Definition stylesAffected (resources : list string) w (entryPoint : node_id) : bool :=
  match resources, targetOf w entryPoint ≫= stylesheetProcessor with
  | _ :: _, Some sp =>
      match (sp_invalidate sp resources).2 with
      | Some (_ :: _) => true
      | _ => false
      end
  | _, _ => false
  end.

(** Lines 135-141: a node of the to-clean map is among the dependents of
    the entry point. *)
Definition dependsOnCleaned (all : Js.Map node_id) w (entryPoint : node_id) : bool :=
  existsb (λ entry, bool_decide (entry.2 ∈ dependentsOf w entryPoint)) all.

(** When an entry point is to be marked dirty (lines 130-142), told from
    the world the call starts in: its stylesheet processor is affected by
    the resources, or it depends on a node to clean. *)
Definition markedDirty (all : Js.Map node_id) (resources : list string) w
    (entryPoint : node_id) : bool :=
  stylesAffected resources w entryPoint || dependsOnCleaned all w entryPoint.

(** The events of the loop over the entry points (lines 129-148). *)
Definition isEntryPointEvent (e : Event) : bool :=
  match e with
  | EvStylesInvalidate _ _ | EvAnalysesDelete _ _ | EvSetState _ _ => true
  | _ => false
  end.

(** The paths a key of [allNodesToClean] can be. *)
Definition knownPaths w files : list string :=
  files ++ omap (λ node, fileUrlPath (url node)) (heap w).

(** Keys stay unique and among the known paths. *)
Definition keysWithin (L : list string) (m : Js.Map node_id) : Prop :=
  NoDup m.*1 ∧ ∀ k, k ∈ m.*1 → k ∈ L.

(** What every iteration of the sweep keeps true. *)
Definition sweepInv w files s : Prop :=
  heap (sweepWorld s) = heap w ∧
  keysWithin (knownPaths w files) (allNodesToClean s).

(** Every entry is filed under the path of its node. *)
Definition filedByPath w (m : Js.Map node_id) : Prop :=
  ∀ k n, (k, n) ∈ m → pathOf w n = Some k.

(** No two node objects have the same file path: identifiers are unique
    (spec §3). *)
Definition uniquePaths w : Prop :=
  NoDup (omap (λ node, fileUrlPath (url node)) (heap w)).

(** The events a call appended to the trace. *)
Definition runTrace w files : list Event :=
  match invalidateEntryPointsAndCacheOnFileChange w files with
  | Some (_, w') => drop (length (trace w)) (trace w')
  | None => []
  end.

(** Every eviction from the sources file cache comes after every event of
    the loop over the entry points. *)
Definition evictionsLast (evs : list Event) : Prop :=
  ∀ i j filePath e,
    evs !! i = Some (EvSourcesDelete filePath) →
    evs !! j = Some e → isEntryPointEvent e = true →
    j < i.

(** Two worlds that differ at most in the sources file cache. *)
Definition sameButSources w1 w2 : Prop :=
  heap w1 = heap w2 ∧ graph w1 = graph w2 ∧
  compilerHost w1 = compilerHost w2 ∧ bundler w1 = bundler w2 ∧
  trace w1 = trace w2.

Definition sweepSim s1 s2 : Prop :=
  allNodesToClean s1 = allNodesToClean s2 ∧
  potentialStylesResources s1 = potentialStylesResources s2 ∧
  sameButSources (sweepWorld s1) (sweepWorld s2).

(** The loop over the entry points touches node objects and the trace, and
    logs entry point events only. *)
Definition entryPointStep w w' : Prop :=
  graph w' = graph w ∧ sourcesFileCache w' = sourcesFileCache w ∧
  compilerHost w' = compilerHost w ∧ bundler w' = bundler w ∧
  ∃ evs, trace w' = trace w ++ evs ∧ Forall (λ e, isEntryPointEvent e = true) evs.

(** With unique paths a re-insertion never changes an entry: the map only
    grows at its end. *)
Definition settled w (m : Js.Map node_id) : Prop :=
  filedByPath w m ∧ NoDup m.*1.

(** The entries before the cursor have had their dependees pulled in. *)
Definition swept w (i : nat) (m : Js.Map node_id) : Prop :=
  ∀ j k n d q,
    j < i → m !! j = Some (k, n) → Js.endsWith k ".ts" = false →
    d ∈ dependeesOf w n → pathOf w d = Some q → Js.truthy q = true →
    (q, d) ∈ m.

(** The entry of an entry point's output cache for a file name. *)
Definition outputOf w (entryPoint : node_id) (fileName : string)
    : option OutputFile.t :=
  targetOf w entryPoint ≫= (λ t, outputCache t !! fileName).

(** Writes, to the output cache or through to the wrapped host. *)
Definition isWriteEvent (e : Event) : bool :=
  match e with
  | EvOutputSet _ _ | EvHostWriteFile _ _ _ => true
  | _ => false
  end.

(** Whether the step from [w] to [w'] wrote anything. *)
Definition written w w' : bool :=
  existsb isWriteEvent (drop (length (trace w)) (trace w')).

(** Write suppression the way C5 states it, for one call of [writeFile]:
    data equal to the cached content changes nothing and writes nothing;
    any other data replaces the entry, with the sha256 of the data as its
    version, and counts as written. *)
Definition writeSuppressionAsStated (entryPoint : node_id) (fileName data : string)
    (writeByteOrderMark : bool) (sourceFiles : option (list SourceFile)) w : Prop :=
  let w' := (writeFile entryPoint fileName data writeByteOrderMark sourceFiles w).2 in
  if decide (OutputFile.content <$> outputOf w entryPoint fileName = Some data)
  then outputOf w' entryPoint fileName = outputOf w entryPoint fileName
       ∧ written w w' = false
  else outputOf w' entryPoint fileName = Some (OutputFile.mk data (sha256hex data))
       ∧ written w w' = true.

(** A field of the sources file cache entry of a file; [None] while the
    entry is missing or the field is [undefined]. *)
Definition cached {A} (field : CacheEntry → option A) w (fileName : string)
    : option A :=
  sourcesFileCache w !! fileName ≫= field.

(** Nothing was asked of the wrapped host, and nothing else was logged,
    between [w] and [w']; the sources file cache is the same. *)
Definition servedFromCache w w' : Prop :=
  compilerHost w' = compilerHost w ∧ trace w' = trace w ∧
  sourcesFileCache w' = sourcesFileCache w.

(** Populated fields keep their value. *)
Definition keepsPopulated (c c' : gmap string CacheEntry) : Prop :=
  ∀ fileName,
    (∀ b, c !! fileName ≫= exists_ = Some b → c' !! fileName ≫= exists_ = Some b) ∧
    (∀ t, c !! fileName ≫= content = Some t → c' !! fileName ≫= content = Some t) ∧
    (∀ sf, c !! fileName ≫= sourceFile = Some sf →
           c' !! fileName ≫= sourceFile = Some sf).

(** A step that changes node objects and the graph only. *)
Definition graphStep w w' : Prop :=
  sourcesFileCache w' = sourcesFileCache w ∧ compilerHost w' = compilerHost w ∧
  bundler w' = bundler w ∧ trace w' = trace w.

(** [a] depends on [b]: the edge is in both indices. *)
Definition dependsOnEdge w (a b : node_id) : Prop :=
  b ∈ dependentsOf w a ∧ a ∈ dependeesOf w b.

(** Every node the graph holds is an object of the heap. *)
Definition graphValid w : Prop :=
  Forall (λ entry, entry.2 < length (heap w)) (graph w).

(** What [addEdge a b] does to the node object [x]. *)
Definition addEdgeNode (a b x : node_id) (node : Node) : Node :=
  mkNode (url node)
    (if decide (x = a) then Js.Set_add b (dependents node) else dependents node)
    (if decide (x = b) then Js.Set_add a (dependees node) else dependees node)
    (target node).

(** [node.dependsOn(deps)] as a function on worlds. *)
Definition linkAll (node : node_id) (deps : list node_id) w : World :=
  fold_left (λ w' newDep, addEdge node newDep w') deps w.

(** Node objects are only added and the graph only gains entries; edges are
    untouched. *)
Definition graphGrows w w' : Prop :=
  graphStep w w' ∧
  heap w `prefix_of` heap w' ∧
  (∀ u n, Js.Map_get u (graph w) = Some n → Js.Map_get u (graph w') = Some n).

(** Edges are only added; node objects, their URLs and the graph stay. *)
Definition edgesGrow w w' : Prop :=
  graphStep w w' ∧ graph w' = graph w ∧
  length (heap w') = length (heap w) ∧
  (∀ x, url <$> heap w' !! x = url <$> heap w !! x) ∧
  (∀ x y, y ∈ dependentsOf w x → y ∈ dependentsOf w' x) ∧
  (∀ x y, y ∈ dependeesOf w x → y ∈ dependeesOf w' x).

(** One iteration of the loop of lines 155-159. *)
Definition propagateStep (depNodes : list node_id) w (n : node_id) : World :=
  match heap w !! n with
  | Some dependee =>
      if Js.endsWith (url dependee) ".ts" then linkAll n depNodes w else w
  | None => w
  end.

End Notions.

(** ** The rest of cache-compiler-host.ts and of file-watch.ts *)

(** Node's [path] module, as far as the sources call it. *)
Class NodePath := {
  (** [path.resolve(...segments)] *)
  path_resolve : list string → string;
  path_dirname : string → string;
}.

(** [StylesheetProcessor.bundleInline(data, containingFile, language)]. *)
Class InlineBundler `{Collaborators} := {
  sp_bundleInline :
    StylesheetProcessor → string → string → string →
    StylesheetProcessor * BundleResult;
}.

(** The [context] argument of [transformResource]; a [resourceFile] of [None]
    is [null]. *)
Record ResourceContext := mkResourceContext {
  containingFile : string;
  resourceFile : option string;
  type : string;
}.

(** A source file of a [ts.Program], with the [version] field that
    [augmentProgramWithVersioning] adds; [None] is [undefined]. *)
Record VersionedFile := mkVersionedFile {
  text : string;
  version : option string;
}.

(** file-watch.ts, lines 12-18. *)
Inductive AllFileWatchEvents := Change | Unlink | Add | UnlinkDir | AddDir.

Record FileChangedEvent := mkFileChangedEvent {
  filePath : string;
  event : AllFileWatchEvents;
}.

(** Calls on the chokidar watcher. *)
Inductive WatcherCall :=
| WatcherUnwatch (path : string)
| WatcherAdd (path : string).

(** What a subscription has seen so far: the calls made on the watcher and
    the events handed to the observer, both in order. *)
Record Subscription := mkSubscription {
  watcherCalls : list WatcherCall;
  delivered : list FileChangedEvent;
}.

Section MoreModel.
Context `{Collaborators} `{NodePath} `{!InlineBundler}.

Notation "'let*' x ':=' m 'in' k" := (bind m (λ x, k))
  (at level 10, x name, m at level 100, k at level 200, only parsing).
Notation "m ';;' k" := (bind m (λ _, k))
  (at level 100, k at level 200, right associativity, only parsing).

(** cache-compiler-host.ts, lines 122-129. *)
Definition resourceNameToFileName (resourceName containingFilePath : string)
    : Op string :=
  let resourcePath :=
    path_resolve [path_dirname containingFilePath; resourceName] in
  let* containingNode := getNode containingFilePath in
  let* resourceNode := getNode resourcePath in
  dependsOn containingNode [resourceNode];;
  ret resourcePath.

Definition callBundleInline (data containing language : string) : Op BundleResult :=
  λ w, match bundler w with
       | None => (Threw "TypeError", w)
       | Some sp =>
           let '(sp', r) := sp_bundleInline sp data containing language in
           (Returned r, setBundler (Some sp') w)
       end.

(** cache-compiler-host.ts, lines 179-215. [inlineStyleLanguage] is the
    argument of [cacheCompilerHost]; the result [None] is [null], [Some c] is
    [{ content: c }]. *)
Definition transformResource (inlineStyleLanguage : option string)
    (data : string) (context : ResourceContext) : Op (option string) :=
  if from_option Js.truthy false (resourceFile context)
     || negb (String.eqb (type context) "style")
  then ret None
  else if from_option Js.truthy false inlineStyleLanguage then
    let* bundled :=
      callBundleInline data (containingFile context)
        (if Js.endsWith (containingFile context) ".html" then "css"
         else default EmptyString inlineStyleLanguage) in
    let* node := getNode (containingFile context) in
    let* nodes := getNodes (referencedFiles bundled) in
    dependsOn node nodes;;
    if bool_decide (errors bundled = []) then ret (Some (contents bundled))
    else throw ("An error has occuried while processing "
                +:+ containingFile context +:+ ".")
  else ret None.

(** cache-compiler-host.ts, lines 224-228: the loop body. *)
Definition stampVersion (file : VersionedFile) : VersionedFile :=
  match version file with
  | None => mkVersionedFile (text file) (Some (sha256hex (text file)))
  | Some _ => file
  end.

(** cache-compiler-host.ts, lines 219-232: [program.getSourceFiles] once
    [augmentProgramWithVersioning] has replaced it. The program is the list
    of file objects [baseGetSourceFiles] returns; they are stamped in place,
    so the call gives back the files and the program that now holds them. *)
Definition getSourceFiles (program : list VersionedFile)
    : list VersionedFile * list VersionedFile :=
  let files := stampVersion <$> program in
  (files, files).

(** file-watch.ts, lines 35-39: the function among the [ignored] matchers. *)
Definition ignoredByPath (ignoredPaths : list string) (file : string) : bool :=
  let normalizedPath := ensureUnixPath file in
  existsb (λ f, String.prefix f normalizedPath) ignoredPaths.

(** file-watch.ts, lines 47-66. *)
Definition handleFileChange (isLinux : bool) (observer : Subscription)
    (raw : AllFileWatchEvents * string) : Subscription :=
  let '(event, filePath) := raw in
  let calls :=
    if isLinux
    then watcherCalls observer ++ [WatcherUnwatch filePath; WatcherAdd filePath]
    else watcherCalls observer in
  match event with
  | UnlinkDir | AddDir => mkSubscription calls (delivered observer)
  | _ =>
      mkSubscription calls
        (delivered observer
         ++ [mkFileChangedEvent (ensureUnixPath (path_resolve [filePath])) event])
  end.

(** file-watch.ts, lines 70-72: a subscription that receives the watcher's
    events one after the other. *)
Definition onFileChange (isLinux : bool) (raws : list (AllFileWatchEvents * string))
    : Subscription :=
  fold_left (handleFileChange isLinux) raws (mkSubscription [] []).

End MoreModel.

(** ** More of the concrete instance *)

Module DemoPaths.

#[local] Existing Instance Demo.collaborators.

(** The directory of a path: what precedes its last slash. *)
Fixpoint dirname (path : string) : string :=
  match path with
  | EmptyString => EmptyString
  | String c rest =>
      if Js.includes rest "/" then String c (dirname rest) else EmptyString
  end.

(** Segments are joined with a slash, an absolute segment starting over;
    the examples use no [.] or [..] segments. *)
Definition resolve (segments : list string) : string :=
  fold_left
    (λ acc segment,
       if String.prefix "/" segment then segment else acc +:+ "/" +:+ segment)
    segments EmptyString.

Definition nodePath : NodePath := {|
  path_resolve := resolve;
  path_dirname := dirname;
|}.

(** Inline styles are bundled like the file that contains them. *)
Definition inlineBundler : @InlineBundler Demo.collaborators := {|
  sp_bundleInline := λ sp data containing language,
    (sp, mkBundleResult (default [] (Js.Map_get containing (sp : Demo.Styles)))
           data [] []);
|}.

(** The library with a processor that knows the imports of the inline
    styles of [a.ts]: the partial, and [a.ts] itself. *)
Definition inlined : World :=
  setBundler (Some [("/src/a.ts", ["/src/p.css"; "/src/a.ts"])]) Demo.library.

(** The library with the file system of a host on which [a.css] and the
    template [a.html] exist and [gone.css] does not. *)
Definition templated : World :=
  setHost [("/src/a.css", "@import 'p.css'"); ("/src/a.html", "<p></p>")]
    Demo.library.

(** The library after [fileExists] was asked about the template [a.html]
    while it did not exist, with the file system of a host on which it has
    been created since; nothing was evicted. *)
Definition stale : World :=
  setHost [("/src/a.html", "<p></p>")] (fileExists "/src/a.html" Demo.library).2.

End DemoPaths.

(** ** Notions for the further facts *)

Section MoreNotions.
Context `{Collaborators}.
Implicit Types (w : World).

(** An entry of an entry point's [analysesSourcesFileCache]. *)
Definition analysedAt w (entryPoint : node_id) (fileName : string)
    : option CacheEntry :=
  targetOf w entryPoint ≫= (λ t, analysesSourcesFileCache t !! fileName).

(** The node objects, edges and graph of [w'] are those of [w]: only fields
    of the target role may differ, and the output caches do not. *)
Definition sameGraph w w' : Prop :=
  graph w' = graph w ∧ compilerHost w' = compilerHost w ∧
  bundler w' = bundler w ∧
  length (heap w') = length (heap w) ∧
  ∀ n,
    url <$> heap w' !! n = url <$> heap w !! n ∧
    dependentsOf w' n = dependentsOf w n ∧
    dependeesOf w' n = dependeesOf w n ∧
    (outputCache <$> targetOf w' n) = (outputCache <$> targetOf w n).

(** The step from [w] to [w'] logged no call to a stylesheet processor. *)
Definition noStylesCall w w' : Prop :=
  ∃ evs, trace w' = trace w ++ evs ∧
         Forall (λ e, ∀ ep files, e ≠ EvStylesInvalidate ep files) evs.

(** Entries of the per-entry-point caches are only ever deleted, and only
    for files of [all] whose node the entry point depends on. *)
Definition analysedShrinks (all : Js.Map node_id) w w' : Prop :=
  (∀ n, dependentsOf w' n = dependentsOf w n) ∧
  (∀ n k, analysedAt w n k = None → analysedAt w' n k = None) ∧
  (∀ n k,
     (∀ m, (k, m) ∈ all → m ∉ dependentsOf w n) →
     analysedAt w' n k = analysedAt w n k).

(** Every key of the graph is the URL of the node filed under it, and no
    URL is filed twice. *)
Definition graphSound w : Prop :=
  NoDup (graph w).*1 ∧
  Forall (λ entry, url <$> heap w !! entry.2 = Some entry.1) (graph w).

(** What every call on the compiler host keeps: nodes, their URLs and
    edges stay; the states and private caches of the entry points stay, the
    output caches apart; no entry leaves the sources file cache. *)
Definition hostStep w w' : Prop :=
  (∀ u n, Js.Map_get u (graph w) = Some n → Js.Map_get u (graph w') = Some n) ∧
  (∀ a b, dependsOnEdge w a b → dependsOnEdge w' a b) ∧
  (∀ n u, url <$> heap w !! n = Some u → url <$> heap w' !! n = Some u) ∧
  (∀ n t, targetOf w n = Some t →
          ∃ t', targetOf w' n = Some t' ∧ state t' = state t ∧
                analysesSourcesFileCache t' = analysesSourcesFileCache t ∧
                stylesheetProcessor t' = stylesheetProcessor t) ∧
  (∀ f, is_Some (sourcesFileCache w !! f) → is_Some (sourcesFileCache w' !! f)) ∧
  (graphSound w → graphSound w') ∧
  (graphValid w → graphValid w').

(** [R] relates the world before a call to the world after it, however the
    call ends. *)
Definition always {A} (R : World → World → Prop) (m : Op A) : Prop :=
  ∀ w, R w (m w).2.

(** Every entry of every output cache carries the sha256 of its content. *)
Definition outputsHashed w : Prop :=
  ∀ n fileName entry,
    outputOf w n fileName = Some entry →
    OutputFile.version entry = sha256hex (OutputFile.content entry).

(** The event the watcher's raw event is forwarded as, if it is. *)
Definition forwarded `{NodePath} (raw : AllFileWatchEvents * string)
    : option FileChangedEvent :=
  match raw.1 with
  | UnlinkDir | AddDir => None
  | kind => Some (mkFileChangedEvent (ensureUnixPath (path_resolve [raw.2])) kind)
  end.

(** The fields of the sources file cache entry of [fileName] are the same
    in [w'] as in [w]; an entry that is missing counts as one whose fields
    are all [undefined]. *)
Definition entryKept (fileName : string) w w' : Prop :=
  cached exists_ w' fileName = cached exists_ w fileName ∧
  cached content w' fileName = cached content w fileName ∧
  cached sourceFile w' fileName = cached sourceFile w fileName.

(** The events logged between [w] and [w']. *)
Definition logged w w' : list Event := drop (length (trace w)) (trace w').

End MoreNotions.

(** *** Calls on the caching compiler host *)

Section CallNotions.
Context `{Collaborators} `{NodePath} `{!InlineBundler}.
Implicit Types (w : World).

(** The functions of the host that [cacheCompilerHost] returns which touch
    the graph or a cache. None of them evicts from the sources file cache:
    only [invalidateEntryPointsAndCacheOnFileChange] does. *)
Inductive HostCall :=
| CallFileExists (fileName : string)
| CallReadFile (fileName : string)
| CallGetSourceFile (fileName : string) (languageVersion : nat)
    (shouldCreateNewSourceFile : bool)
| CallWriteFile (fileName data : string) (writeByteOrderMark : bool)
    (sourceFiles : option (list SourceFile))
| CallReadResource (fileName : string)
| CallResourceNameToFileName (resourceName containingFilePath : string)
| CallTransformResource (inlineStyleLanguage : option string) (data : string)
    (context : ResourceContext).

(** The world after a call, however it ends. *)
Definition runCall (entryPoint : node_id) w (call : HostCall) : World :=
  match call with
  | CallFileExists fileName => (fileExists fileName w).2
  | CallReadFile fileName => (readFile entryPoint fileName w).2
  | CallGetSourceFile fileName languageVersion shouldCreateNewSourceFile =>
      (getSourceFile entryPoint fileName languageVersion shouldCreateNewSourceFile w).2
  | CallWriteFile fileName data writeByteOrderMark sourceFiles =>
      (writeFile entryPoint fileName data writeByteOrderMark sourceFiles w).2
  | CallReadResource fileName => (readResource entryPoint fileName w).2
  | CallResourceNameToFileName resourceName containingFilePath =>
      (resourceNameToFileName resourceName containingFilePath w).2
  | CallTransformResource inlineStyleLanguage data context =>
      (transformResource inlineStyleLanguage data context w).2
  end.

Definition runCalls (entryPoint : node_id) (calls : list HostCall) w : World :=
  fold_left (runCall entryPoint) calls w.

(** The one call that can assign to a populated [exists] of the file:
    [readResource] of that file (line 174). *)
Definition overwritesExists (fileName : string) (call : HostCall) : bool :=
  match call with
  | CallReadResource name => bool_decide (name = fileName)
  | _ => false
  end.

(** The one call that can assign to a populated [sourceFile] of the file:
    [getSourceFile] of that file with [shouldCreateNewSourceFile]
    (line 67). *)
Definition overwritesSource (fileName : string) (call : HostCall) : bool :=
  match call with
  | CallGetSourceFile name _ true => bool_decide (name = fileName)
  | _ => false
  end.

(** The trust in populated fields the way C6 states it, bounded by eviction
    alone: whatever calls of the host lie between, the three reads return
    what was populated and leave the wrapped host alone. *)
Definition trustAsStated (entryPoint : node_id) (calls : list HostCall)
    (fileName : string) w : Prop :=
  let w1 := runCalls entryPoint calls w in
  (∀ b, cached exists_ w fileName = Some b →
        ∃ w2, fileExists fileName w1 = (Returned b, w2) ∧ servedFromCache w1 w2) ∧
  (∀ t, cached content w fileName = Some t →
        ∃ w2, readFile entryPoint fileName w1 = (Returned (Some t), w2) ∧
              servedFromCache w1 w2) ∧
  (∀ sf languageVersion,
     cached sourceFile w fileName = Some sf →
     ∃ w2, getSourceFile entryPoint fileName languageVersion false w1
           = (Returned (Some sf), w2) ∧
           servedFromCache w1 w2).

(** An [exists] of [true] stays, and the [sourceFile] is as before. *)
Definition trueKept (fileName : string) w w' : Prop :=
  (cached exists_ w fileName = Some true → cached exists_ w' fileName = Some true) ∧
  cached sourceFile w' fileName = cached sourceFile w fileName.

(** The [exists] and the [content] are as before. *)
Definition sourceApart (fileName : string) w w' : Prop :=
  cached exists_ w' fileName = cached exists_ w fileName ∧
  cached content w' fileName = cached content w fileName.

End CallNotions.
(** * Facts *)

(** ** Insertion-ordered maps *)

Section MapFacts.
Context {V : Type}.
Implicit Types (m : list (string * V)) (k : string) (v : V).

Lemma Map_set_keys k v m :
  (Js.Map_set k v m).*1 = if decide (k ∈ m.*1) then m.*1 else m.*1 ++ [k].
Proof.
  induction m as [|[k' v'] m IH]; [done|].
  cbn [Js.Map_set]. rewrite fmap_cons. cbn [fst].
  destruct (decide (k = k')) as [->|Hne].
  - rewrite fmap_cons. cbn [fst].
    by rewrite decide_True by apply list_elem_of_here.
  - rewrite fmap_cons, IH. cbn [fst].
    destruct (decide (k ∈ m.*1)) as [Hin|Hout].
    + by rewrite decide_True by (by apply list_elem_of_further).
    + rewrite decide_False; [done|]. rewrite elem_of_cons. tauto.
Qed.

Lemma Map_set_NoDup k v m : NoDup m.*1 → NoDup (Js.Map_set k v m).*1.
Proof.
  intros Hnd. rewrite Map_set_keys. case_decide; [done|].
  apply NoDup_app. split_and!; [done| |apply NoDup_singleton].
  intros x Hx Hx'. apply list_elem_of_singleton in Hx'. by subst.
Qed.

Lemma Map_set_elem k v m : (k, v) ∈ Js.Map_set k v m.
Proof.
  induction m as [|[k' v'] m IH]; simpl; [apply list_elem_of_here|].
  case_decide; [apply list_elem_of_here|by apply list_elem_of_further].
Qed.

Lemma Map_set_elem_inv k v m e : e ∈ Js.Map_set k v m → e = (k, v) ∨ e ∈ m.
Proof.
  induction m as [|[k' v'] m IH]; simpl.
  - rewrite list_elem_of_singleton. tauto.
  - case_decide; rewrite !elem_of_cons.
    + tauto.
    + intros [?|?%IH]; tauto.
Qed.

Lemma Map_set_fresh k v m : k ∉ m.*1 → Js.Map_set k v m = m ++ [(k, v)].
Proof.
  induction m as [|[k' v'] m IH]; simpl; [done|].
  rewrite not_elem_of_cons. intros [Hne Hout].
  rewrite decide_False by done. by rewrite IH.
Qed.

Lemma Map_set_same k v m : NoDup m.*1 → (k, v) ∈ m → Js.Map_set k v m = m.
Proof.
  induction m as [|[k' v'] m IH]; simpl; [by intros _ ?%elem_of_nil|].
  rewrite NoDup_cons, elem_of_cons. intros [Hout Hnd] [Heq|Hin].
  - injection Heq as <- <-. by rewrite decide_True.
  - rewrite decide_False, IH; [done..|].
    intros ->. apply Hout. by apply (list_elem_of_fmap_2 fst _ (k', v)).
Qed.

Lemma Map_set_prefix_keys k v m : m.*1 `prefix_of` (Js.Map_set k v m).*1.
Proof. rewrite Map_set_keys. case_decide; [done|]. by apply prefix_app_r. Qed.

Lemma Map_get_set k k' v m :
  Js.Map_get k' (Js.Map_set k v m) = if decide (k' = k) then Some v else Js.Map_get k' m.
Proof.
  induction m as [|[k0 v0] m IH]; simpl.
  - repeat case_decide; congruence.
  - destruct (decide (k = k0)) as [->|]; simpl; repeat case_decide; try congruence.
Qed.

Lemma Map_get_Some k v m : Js.Map_get k m = Some v → (k, v) ∈ m.
Proof.
  induction m as [|[k0 v0] m IH]; simpl; [done|].
  case_decide; [intros [= ->]; subst; apply list_elem_of_here|].
  intros ?. by apply list_elem_of_further, IH.
Qed.

Lemma Map_get_None k m : Js.Map_get k m = None ↔ k ∉ m.*1.
Proof.
  induction m as [|[k0 v0] m IH]; simpl.
  - split; [intros _; apply not_elem_of_nil|done].
  - rewrite not_elem_of_cons. case_decide as Hk.
    + split; [done|]. by intros [? _].
    + rewrite IH. split; [by split|by intros [_ ?]].
Qed.

Lemma Map_set_get_same k v m : Js.Map_get k m = Some v → Js.Map_set k v m = m.
Proof.
  induction m as [|[k0 v0] m IH]; cbn [Js.Map_get Js.Map_set]; [done|].
  case_decide; [by intros [= ->]; subst|]. intros ?. by rewrite IH.
Qed.

End MapFacts.

Lemma existsb_ext {A} (f g : A → bool) (l : list A) :
  (∀ x, f x = g x) → existsb f l = existsb g l.
Proof. intros Hfg. induction l as [|x l IH]; cbn; [done|]. by rewrite Hfg, IH. Qed.


(** ** Field updates leave the rest of the world alone *)

Section WorldFacts.
Context `{Collaborators}.
Implicit Types (w : World) (f : Target → Target) (n ep : node_id).

Lemma targetOf_alterTarget f ep w n :
  targetOf (alterNode (alterTarget f) ep w) n =
  if decide (n = ep) then f <$> targetOf w n else targetOf w n.
Proof.
  unfold targetOf, alterNode. cbn [heap setHeap].
  destruct (decide (n = ep)) as [->|Hne].
  - rewrite list_lookup_alter_eq. by destruct (heap w !! ep).
  - by rewrite list_lookup_alter_ne.
Qed.

Lemma dependentsOf_alterTarget f ep w n :
  dependentsOf (alterNode (alterTarget f) ep w) n = dependentsOf w n.
Proof.
  unfold dependentsOf, alterNode. cbn [heap setHeap].
  rewrite list_lookup_alter.
  destruct (decide (ep = n)) as [->|Hne]; [|done].
  by destruct (heap w !! n).
Qed.

Lemma isEntryPoint_alterTarget f ep w n :
  from_option isEntryPoint false (heap (alterNode (alterTarget f) ep w) !! n) =
  from_option isEntryPoint false (heap w !! n).
Proof.
  unfold alterNode. cbn [heap setHeap].
  rewrite list_lookup_alter.
  destruct (decide (ep = n)) as [->|Hne]; [|done].
  destruct (heap w !! n) as [node|]; [|done].
  unfold isEntryPoint. cbn. by destruct (target node).
Qed.

Lemma dependentsOf_log e w n : dependentsOf (log e w) n = dependentsOf w n.
Proof. reflexivity. Qed.

Lemma targetOf_log e w n : targetOf (log e w) n = targetOf w n.
Proof. reflexivity. Qed.

End WorldFacts.

(** ** invalidateEntryPointsAndCacheOnFileChange *)

Section InvalidateFacts.
Context `{Collaborators}.
Implicit Types (w : World) (s : Sweep) (files : list string).

Lemma graph_find_None w by_ :
  (∀ n node, n ∈ graph_entries w → heap w !! n = Some node → by_ node = false) →
  graph_find w by_ = None.
Proof.
  unfold graph_find. induction (graph_entries w) as [|n l IH]; intros Hall; [done|].
  cbn [List.find].
  destruct (heap w !! n) as [node|] eqn:Hn; cbn [from_option].
  - rewrite (Hall n node); [|apply list_elem_of_here|done].
    apply IH. intros n' node' Hin. apply Hall. by apply list_elem_of_further.
  - apply IH. intros n' node' Hin. apply Hall. by apply list_elem_of_further.
Qed.

Lemma graph_find_Some w by_ n :
  graph_find w by_ = Some n →
  n ∈ graph_entries w ∧ ∃ node, heap w !! n = Some node ∧ by_ node = true.
Proof.
  unfold graph_find. intros [Hin Hby]%find_some. split.
  - by apply list_elem_of_In.
  - destruct (heap w !! n) as [node|]; [by exists node|done].
Qed.

Lemma checkEntryPoint_nothing ep w : checkEntryPoint [] [] ep w = (false, w).
Proof. reflexivity. Qed.

Lemma markEntryPoints_nothing eps b w : markEntryPoints [] [] eps (b, w) = (b, w).
Proof.
  revert b w. induction eps as [|ep eps IH]; intros b w; [done|].
  unfold markEntryPoints in *. cbn [fold_left].
  rewrite checkEntryPoint_nothing. cbn [fst snd].
  rewrite orb_false_r. apply IH.
Qed.

Lemma sweep_empty fuel i w res : sweep fuel i (mkSweep [] res w) = Some (mkSweep [] res w).
Proof. by destruct fuel. Qed.

Lemma keysWithin_set L k n m :
  k ∈ L → keysWithin L m → keysWithin L (Js.Map_set k n m).
Proof.
  intros Hk [Hnd Hsub]. split; [by apply Map_set_NoDup|].
  intros k'. rewrite Map_set_keys. case_decide; [apply Hsub|].
  rewrite elem_of_app, list_elem_of_singleton. intros [?| ->]; auto.
Qed.

Lemma findChangedNodes_keys w files L :
  (∀ k, k ∈ files → k ∈ L) → keysWithin L (findChangedNodes w files).
Proof.
  unfold findChangedNodes.
  assert (keysWithin L ([] : Js.Map node_id)) as Hacc.
  { split; [constructor|]. intros k. by rewrite fmap_nil, elem_of_nil. }
  revert Hacc. generalize ([] : Js.Map node_id) as acc.
  induction files as [|f files IH]; intros acc Hacc Hsub; [done|].
  cbn [fold_left]. apply IH.
  - destruct (graph_find w _); [|done].
    apply keysWithin_set; [|done]. apply Hsub, list_elem_of_here.
  - intros k Hk. apply Hsub. by apply list_elem_of_further.
Qed.

Lemma pathOf_known w files d filePath :
  pathOf w d = Some filePath → filePath ∈ knownPaths w files.
Proof.
  unfold pathOf, knownPaths. intros Hp. apply elem_of_app. right.
  destruct (heap w !! d) as [node|] eqn:Hd; [|done].
  apply list_elem_of_omap. exists node. split; [|done].
  by apply list_elem_of_lookup_2 in Hd.
Qed.

Lemma pullDependee_keys w files acc d :
  keysWithin (knownPaths w files) acc.1 →
  keysWithin (knownPaths w files) (pullDependee w acc d).1.
Proof.
  intros Hacc. unfold pullDependee.
  destruct (pathOf w d) as [filePath|] eqn:Hp; [|done].
  destruct (Js.truthy filePath); [|done]. cbn [fst].
  apply keysWithin_set; [|done]. by eapply pathOf_known.
Qed.

Lemma pullDependees_keys w files ds acc :
  keysWithin (knownPaths w files) acc.1 →
  keysWithin (knownPaths w files) (fold_left (pullDependee w) ds acc).1.
Proof.
  revert acc. induction ds as [|d ds IH]; intros acc Hacc; [done|].
  cbn [fold_left]. by apply IH, pullDependee_keys.
Qed.

Lemma pullDependee_heap w w' : heap w' = heap w → pullDependee w' = pullDependee w.
Proof.
  intros Hh. unfold pullDependee, pathOf. by rewrite Hh.
Qed.

Lemma sweepStep_inv w files filePath n s :
  sweepInv w files s → sweepInv w files (sweepStep filePath n s).
Proof.
  intros [Hh Hk]. unfold sweepStep.
  destruct (Js.endsWith filePath ".ts"); [done|].
  rewrite (pullDependee_heap w (sweepWorld s)) by done.
  pose proof (pullDependees_keys w files (dependeesOf (sweepWorld s) n)
    (allNodesToClean s, Js.Set_add filePath (potentialStylesResources s)) Hk) as Hk'.
  destruct (fold_left _ _ _) as [all resources]. done.
Qed.

Lemma length_omap_le {A B} (f : A → option B) (l : list A) :
  length (omap f l) ≤ length l.
Proof. induction l as [|x l IH]; cbn; [done|]. destruct (f x); cbn; lia. Qed.

Lemma keysWithin_length L (m : Js.Map node_id) : keysWithin L m → length m ≤ length L.
Proof.
  intros [Hnd Hsub]. rewrite <-(length_fmap fst m).
  by apply submseteq_length, NoDup_submseteq.
Qed.

Lemma sweep_enough_fuel w files fuel i s :
  sweepInv w files s →
  length (knownPaths w files) ≤ fuel + i →
  ∃ s', sweep fuel i s = Some s' ∧ sweepInv w files s'.
Proof.
  revert i s. induction fuel as [|fuel IH]; intros i s Hinv Hlen.
  - exists s. split; [|done]. cbn [sweep].
    rewrite (proj2 (lookup_ge_None (allNodesToClean s) i)); [done|].
    destruct Hinv as [_ Hk]. apply keysWithin_length in Hk. lia.
  - cbn [sweep]. destruct (allNodesToClean s !! i) as [[filePath n]|]; [|by exists s].
    apply IH; [by apply sweepStep_inv|lia].
Qed.

Lemma collectNodesToClean_total w files :
  ∃ s, collectNodesToClean w files = Some s ∧ sweepInv w files s.
Proof.
  apply sweep_enough_fuel.
  - split; [done|]. apply findChangedNodes_keys.
    intros k Hk. apply elem_of_app. by left.
  - unfold knownPaths, sweepFuel. rewrite length_app.
    pose proof (length_omap_le (λ node, fileUrlPath (url node)) (heap w)). lia.
Qed.

(** More fuel does not change the outcome. *)
Lemma sweep_fuel_mono fuel fuel' i s s' :
  sweep fuel i s = Some s' → fuel ≤ fuel' → sweep fuel' i s = Some s'.
Proof.
  revert fuel' i s. induction fuel as [|fuel IH]; intros fuel' i s.
  - cbn [sweep]. destruct (allNodesToClean s !! i) as [[filePath n]|] eqn:Hi; [done|].
    intros Hs _. destruct fuel'; cbn [sweep]; by rewrite Hi.
  - cbn [sweep]. destruct (allNodesToClean s !! i) as [[filePath n]|] eqn:Hi.
    + intros Hs Hle. destruct fuel' as [|fuel']; [lia|].
      cbn [sweep]. rewrite Hi. apply IH; [done|lia].
    + intros Hs _. destruct fuel'; cbn [sweep]; by rewrite Hi.
Qed.

(** Induction over the iterations of the sweep: what holds of the cursor
    and the state before the loop and is kept by every iteration holds when
    the iterator is exhausted. *)
Lemma sweep_ind (P : nat → Sweep → Prop) :
  (∀ i filePath n s,
     P i s → allNodesToClean s !! i = Some (filePath, n) →
     P (S i) (sweepStep filePath n s)) →
  ∀ fuel i s s',
    P i s → sweep fuel i s = Some s' →
    ∃ i', P i' s' ∧ allNodesToClean s' !! i' = None.
Proof.
  intros Hstep. induction fuel as [|fuel IH]; intros i s s' HP; cbn [sweep].
  - destruct (allNodesToClean s !! i) as [[filePath n]|] eqn:Hi; [done|].
    intros [= <-]. by exists i.
  - destruct (allNodesToClean s !! i) as [[filePath n]|] eqn:Hi.
    + apply IH. by apply Hstep.
    + intros [= <-]. by exists i.
Qed.

Lemma findChangedNodes_filed w files :
  (∀ p, fileUrlPath (fileUrl p) = Some p) →
  filedByPath w (findChangedNodes w files).
Proof.
  intros Hinv. unfold findChangedNodes.
  assert (filedByPath w ([] : Js.Map node_id)) as Hacc.
  { intros k n. by rewrite elem_of_nil. }
  revert Hacc. generalize ([] : Js.Map node_id) as acc.
  induction files as [|f files IH]; intros acc Hacc; [done|].
  cbn [fold_left]. apply IH.
  destruct (graph_find w _) as [n|] eqn:Hfind; [|done].
  apply graph_find_Some in Hfind as (_ & node & Hnode & Heq%String.eqb_eq).
  intros k n' [[= -> ->]|Hin]%Map_set_elem_inv; [|by apply Hacc].
  unfold pathOf. rewrite Hnode. cbn. by rewrite <-Heq.
Qed.

Lemma pullDependee_filed w acc d :
  filedByPath w acc.1 → filedByPath w (pullDependee w acc d).1.
Proof.
  intros Hacc. unfold pullDependee.
  destruct (pathOf w d) as [filePath|] eqn:Hp; [|done].
  destruct (Js.truthy filePath); [|done]. cbn [fst].
  intros k n [[= -> ->]|Hin]%Map_set_elem_inv; [done|by apply Hacc].
Qed.

Lemma pullDependees_filed w ds acc :
  filedByPath w acc.1 → filedByPath w (fold_left (pullDependee w) ds acc).1.
Proof.
  revert acc. induction ds as [|d ds IH]; intros acc Hacc; [done|].
  cbn [fold_left]. by apply IH, pullDependee_filed.
Qed.

Lemma sweepStep_filed w filePath n s :
  heap (sweepWorld s) = heap w →
  filedByPath w (allNodesToClean s) →
  filedByPath w (allNodesToClean (sweepStep filePath n s)).
Proof.
  intros Hh Hf. unfold sweepStep.
  destruct (Js.endsWith filePath ".ts"); [done|].
  rewrite (pullDependee_heap w (sweepWorld s)) by done.
  pose proof (pullDependees_filed w (dependeesOf (sweepWorld s) n)
    (allNodesToClean s, Js.Set_add filePath (potentialStylesResources s)) Hf) as Hf'.
  by destruct (fold_left _ _ _) as [all resources].
Qed.

Lemma sweepStep_heap filePath n s :
  heap (sweepWorld (sweepStep filePath n s)) = heap (sweepWorld s).
Proof.
  unfold sweepStep. destruct (Js.endsWith filePath ".ts"); [done|].
  by destruct (fold_left _ _ _).
Qed.

Lemma collectNodesToClean_filed w files s :
  (∀ p, fileUrlPath (fileUrl p) = Some p) →
  collectNodesToClean w files = Some s →
  filedByPath w (allNodesToClean s).
Proof.
  intros Hinv Hs.
  apply (sweep_ind (λ _ s, heap (sweepWorld s) = heap w ∧
                            filedByPath w (allNodesToClean s))) in Hs
    as (_ & [_ Hf] & _); [done| |].
  - intros i filePath n s0 [Hh Hf] _. split.
    + by rewrite sweepStep_heap.
    + by apply sweepStep_filed.
  - split; [done|]. by apply findChangedNodes_filed.
Qed.

Lemma filedByPath_NoDup w (m : Js.Map node_id) :
  filedByPath w m → NoDup m.*1 → NoDup m.*2.
Proof.
  intros Hf Hnd. apply NoDup_fmap_2_strong; [|by apply NoDup_fmap_1 in Hnd].
  intros [k1 n1] [k2 n2] H1 H2. cbn. intros <-.
  apply Hf in H1, H2. congruence.
Qed.

(** C1. A batch of changed paths none of which has a node in the graph:
    the call returns [false] and the world it leaves is the one it found, so
    the sources file cache, every entry point's [analysesSourcesFileCache]
    and every entry point's [state] are unchanged. *)
Theorem invalidate_unknown_paths_noop w files :
  Forall
    (λ filePath,
       graph_find w (λ node, String.eqb (fileUrl filePath) (url node)) = None)
    files →
  invalidateEntryPointsAndCacheOnFileChange w files = Some (false, w).
Proof.
  intros Hunknown.
  assert (findChangedNodes w files = []) as Hnone.
  { unfold findChangedNodes. generalize ([] : Js.Map node_id) as acc.
    induction Hunknown as [|f files Hf _ IH]; intros acc; [done|].
    cbn [fold_left]. rewrite Hf. apply IH. }
  unfold invalidateEntryPointsAndCacheOnFileChange, collectNodesToClean.
  rewrite Hnone, sweep_empty. cbn [allNodesToClean potentialStylesResources sweepWorld].
  by rewrite markEntryPoints_nothing.
Qed.

(** A path has no matching node exactly when no node of the graph has its
    URL. *)
Lemma graph_find_unknown w filePath :
  graph_find w (λ node, String.eqb (fileUrl filePath) (url node)) = None ↔
  ∀ n node, n ∈ graph_entries w → heap w !! n = Some node →
            url node ≠ fileUrl filePath.
Proof.
  split.
  - unfold graph_find. intros Hnone n node Hn Hnode Heq.
    apply list_elem_of_In in Hn.
    pose proof (find_none _ _ Hnone n Hn) as Hby. cbn beta in Hby.
    rewrite Hnode in Hby. cbn in Hby. apply String.eqb_neq in Hby. congruence.
  - intros Hall. apply graph_find_None. intros n node Hn Hnode.
    apply String.eqb_neq. intros Heq. by apply (Hall n node).
Qed.

(** C3. For every graph, cyclic [dependees] edges included, the call
    terminates: the sweep over the to-clean map ends within its fuel and the
    function returns. The map is keyed by file path, so no key occurs twice;
    and when [fileUrlPath] undoes [fileUrl], as URL helpers do, no node
    occurs twice either. *)
Theorem invalidate_terminates_once_per_node w files :
  ∃ s r w',
    collectNodesToClean w files = Some s ∧
    invalidateEntryPointsAndCacheOnFileChange w files = Some (r, w') ∧
    NoDup (allNodesToClean s).*1 ∧
    ((∀ p, fileUrlPath (fileUrl p) = Some p) → NoDup (allNodesToClean s).*2).
Proof.
  destruct (collectNodesToClean_total w files) as (s & Hs & _ & Hnd & _).
  unfold invalidateEntryPointsAndCacheOnFileChange. rewrite Hs.
  destruct (markEntryPoints _ _ _ _) as [r w'].
  exists s, r, w'. split_and!; [done..|].
  intros Hinv. eapply filedByPath_NoDup; [|done].
  by eapply collectNodesToClean_filed.
Qed.

(** *** The loop over the entry points *)

Lemma stateOf_alterTarget f ep w n :
  (∀ t, state (f t) = state t) →
  stateOf (alterNode (alterTarget f) ep w) n = stateOf w n.
Proof.
  intros Hf. unfold stateOf. rewrite targetOf_alterTarget.
  case_decide; [|done]. destruct (targetOf w n) as [t|]; [|done].
  cbn. by rewrite Hf.
Qed.

Lemma invalidateStyles_dependentsOf resources ep w n :
  dependentsOf (invalidateStyles resources ep w).2 n = dependentsOf w n.
Proof.
  unfold invalidateStyles. destruct resources; [done|].
  destruct (targetOf w ep ≫= stylesheetProcessor) as [sp|]; [|done].
  destruct (sp_invalidate sp _) as [sp' affected]. cbn [snd].
  apply dependentsOf_alterTarget.
Qed.

Lemma invalidateStyles_stateOf resources ep w n :
  stateOf (invalidateStyles resources ep w).2 n = stateOf w n.
Proof.
  unfold invalidateStyles. destruct resources; [done|].
  destruct (targetOf w ep ≫= stylesheetProcessor) as [sp|]; [|done].
  destruct (sp_invalidate sp _) as [sp' affected]. cbn [snd].
  by apply (stateOf_alterTarget _ ep w n).
Qed.

Lemma cleanAnalysed_dependentsOf ep acc entry n :
  dependentsOf (cleanAnalysed ep acc entry).2 n = dependentsOf acc.2 n.
Proof.
  unfold cleanAnalysed. destruct entry as [filePath dependent].
  case_decide; [|done]. apply dependentsOf_alterTarget.
Qed.

Lemma cleanAnalysed_stateOf ep acc entry n :
  stateOf (cleanAnalysed ep acc entry).2 n = stateOf acc.2 n.
Proof.
  unfold cleanAnalysed. destruct entry as [filePath dependent].
  case_decide; [|done]. by apply (stateOf_alterTarget _ ep acc.2 n).
Qed.

Lemma cleanAnalysed_fold ep all acc :
  let r := fold_left (cleanAnalysed ep) all acc in
  (∀ n, dependentsOf r.2 n = dependentsOf acc.2 n) ∧
  (∀ n, stateOf r.2 n = stateOf acc.2 n) ∧
  r.1 = acc.1 || existsb (λ e, bool_decide (e.2 ∈ dependentsOf acc.2 ep)) all.
Proof.
  revert acc. induction all as [|entry all IH]; intros acc; cbn [fold_left existsb].
  - by rewrite orb_false_r.
  - destruct (IH (cleanAnalysed ep acc entry)) as (Hd & Hs & Hr).
    split_and!.
    + intros n. by rewrite Hd, cleanAnalysed_dependentsOf.
    + intros n. by rewrite Hs, cleanAnalysed_stateOf.
    + rewrite Hr.
      erewrite existsb_ext; last first.
      { intros e. by rewrite cleanAnalysed_dependentsOf. }
      rewrite orb_assoc. f_equal.
      unfold cleanAnalysed. destruct entry as [filePath dependent]. cbn [snd].
      case_decide as Hin.
      * by rewrite bool_decide_eq_true_2, orb_true_r.
      * by rewrite bool_decide_eq_false_2, orb_false_r.
Qed.

(** How [isDirty] is determined, and what the body does to the states. *)
Lemma checkEntryPoint_spec all resources ep w :
  let r := checkEntryPoint all resources ep w in
  r.1 = (invalidateStyles resources ep w).1
        || existsb (λ e, bool_decide (e.2 ∈ dependentsOf w ep)) all ∧
  (∀ n, dependentsOf r.2 n = dependentsOf w n) ∧
  (∀ n, stateOf r.2 n =
        if r.1 && bool_decide (n = ep) then (λ _, STATE_PENDING) <$> stateOf w n
        else stateOf w n).
Proof.
  unfold checkEntryPoint.
  destruct (cleanAnalysed_fold ep all (invalidateStyles resources ep w))
    as (Hd & Hs & Hr).
  destruct (fold_left _ _ _) as [isDirty w']. cbn [fst snd] in *.
  assert (isDirty = (invalidateStyles resources ep w).1
                    || existsb (λ e, bool_decide (e.2 ∈ dependentsOf w ep)) all)
    as Hdirty.
  { rewrite Hr. f_equal. apply existsb_ext. intros e.
    by rewrite invalidateStyles_dependentsOf. }
  destruct isDirty; cbn [fst snd andb].
  - split_and!; [done| |].
    + intros n.
      by rewrite dependentsOf_log, dependentsOf_alterTarget, Hd, invalidateStyles_dependentsOf.
    + intros n. unfold stateOf at 1. rewrite targetOf_log, targetOf_alterTarget.
      destruct (decide (n = ep)) as [->|Hne].
      * rewrite bool_decide_eq_true_2 by done.
        rewrite <-(invalidateStyles_stateOf resources ep w ep), <-(Hs ep). unfold stateOf.
        by destruct (targetOf w' ep).
      * rewrite bool_decide_eq_false_2 by done.
        change (stateOf w' n = stateOf w n).
        by rewrite Hs, invalidateStyles_stateOf.
  - split_and!; [done| |].
    + intros n. by rewrite Hd, invalidateStyles_dependentsOf.
    + intros n. by rewrite Hs, invalidateStyles_stateOf.
Qed.

Lemma markEntryPoints_cons all resources ep eps acc :
  markEntryPoints all resources (ep :: eps) acc =
  markEntryPoints all resources eps
    (acc.1 || (checkEntryPoint all resources ep acc.2).1,
     (checkEntryPoint all resources ep acc.2).2).
Proof.
  unfold markEntryPoints. cbn [fold_left].
  by destruct (checkEntryPoint all resources ep acc.2).
Qed.

Lemma dirtyFlags_cons all resources ep eps w :
  dirtyFlags all resources (ep :: eps) w =
  (ep, (checkEntryPoint all resources ep w).1)
  :: dirtyFlags all resources eps (checkEntryPoint all resources ep w).2.
Proof. cbn [dirtyFlags]. by destruct (checkEntryPoint all resources ep w). Qed.

(** The loop returns [true] exactly when some entry point was found dirty;
    the dirty ones end in [STATE_PENDING] and no other state changes. *)
Lemma markEntryPoints_spec all resources eps b w :
  let flags := dirtyFlags all resources eps w in
  let r := markEntryPoints all resources eps (b, w) in
  (r.1 = true ↔ b = true ∨ ∃ ep, (ep, true) ∈ flags) ∧
  (∀ n, (n, true) ∈ flags → stateOf r.2 n = (λ _, STATE_PENDING) <$> stateOf w n) ∧
  (∀ n, (n, true) ∉ flags → stateOf r.2 n = stateOf w n).
Proof.
  revert b w. induction eps as [|ep eps IH]; intros b w.
  - cbn. split_and!.
    + split; [by left|]. intros [?|[ep Hep]]; [done|]. by apply elem_of_nil in Hep.
    + intros n Hn. by apply elem_of_nil in Hn.
    + done.
  - cbn zeta. rewrite markEntryPoints_cons, dirtyFlags_cons. cbn [fst snd].
    destruct (checkEntryPoint_spec all resources ep w) as (_ & _ & Hstate).
    cbn zeta in Hstate.
    destruct (checkEntryPoint all resources ep w) as [isDirty w1]. cbn [fst snd] in *.
    destruct (IH (b || isDirty) w1) as (Hret & Hpending & Hkept). cbn zeta in *.
    split_and!.
    + rewrite Hret, orb_true_iff. split.
      * intros [[?| ->]|[ep' Hep']]; [by left|right..].
        -- exists ep. apply list_elem_of_here.
        -- exists ep'. by apply list_elem_of_further.
      * intros [?|[ep' [[= -> <-]|Hep']%elem_of_cons]]; [by left;left|by left;right|].
        right. by exists ep'.
    + intros n. destruct (decide ((n, true) ∈ dirtyFlags all resources eps w1)) as [Hin|Hout].
      * intros _. rewrite (Hpending n Hin), Hstate.
        destruct (isDirty && bool_decide (n = ep)); [|done].
        by destruct (stateOf w n).
      * intros [[= -> <-]|Hin]%elem_of_cons; [|done].
        rewrite (Hkept ep Hout), Hstate. cbn [andb].
        by rewrite bool_decide_eq_true_2.
    + intros n Hout. apply not_elem_of_cons in Hout as [Hne Hout].
      rewrite (Hkept n Hout), Hstate.
      destruct isDirty; [|done]. cbn [andb].
      rewrite bool_decide_eq_false_2; [done|]. congruence.
Qed.

(** The sweep touches the sources file cache and the trace only. *)
Lemma sweepStep_frame filePath n s :
  let w := sweepWorld s in
  let w' := sweepWorld (sweepStep filePath n s) in
  heap w' = heap w ∧ graph w' = graph w ∧
  compilerHost w' = compilerHost w ∧ bundler w' = bundler w.
Proof.
  cbn zeta. unfold sweepStep. destruct (Js.endsWith filePath ".ts"); [done|].
  by destruct (fold_left _ _ _).
Qed.

Lemma collectNodesToClean_frame w files s :
  collectNodesToClean w files = Some s →
  heap (sweepWorld s) = heap w ∧ graph (sweepWorld s) = graph w ∧
  compilerHost (sweepWorld s) = compilerHost w ∧ bundler (sweepWorld s) = bundler w.
Proof.
  intros Hs.
  apply (sweep_ind (λ _ s,
    heap (sweepWorld s) = heap w ∧ graph (sweepWorld s) = graph w ∧
    compilerHost (sweepWorld s) = compilerHost w ∧ bundler (sweepWorld s) = bundler w))
    in Hs as (_ & ? & _); [done| |done].
  intros i filePath n s0 (Hh & Hg & Hc & Hb) _.
  destruct (sweepStep_frame filePath n s0) as (-> & -> & -> & ->). done.
Qed.

Lemma dirtyFlags_entryPoints all resources eps w :
  (dirtyFlags all resources eps w).*1 = eps.
Proof.
  revert w. induction eps as [|ep eps IH]; intros w; [done|].
  rewrite dirtyFlags_cons, fmap_cons. cbn [fst]. by rewrite IH.
Qed.

Lemma graph_filter_isEntryPoint w ep :
  ep ∈ graph_filter w isEntryPoint → is_Some (stateOf w ep).
Proof.
  unfold graph_filter. rewrite list_elem_of_In, filter_In. intros [_ Hep].
  unfold stateOf, targetOf, isEntryPoint in *.
  destruct (heap w !! ep) as [node|]; [|done]. cbn in *.
  destruct (target node); [by eexists|done].
Qed.

(** The result and the states in terms of the [isDirty] flags of the loop:
    [flags] lists the entry points of the graph, in order, each with the
    flag the loop computed for it. *)
Lemma invalidate_flags w files :
  ∃ s r w',
    collectNodesToClean w files = Some s ∧
    invalidateEntryPointsAndCacheOnFileChange w files = Some (r, w') ∧
    let flags :=
      dirtyFlags (allNodesToClean s) (potentialStylesResources s)
        (graph_filter (sweepWorld s) isEntryPoint) (sweepWorld s) in
    flags.*1 = graph_filter w isEntryPoint ∧
    (r = true ↔ ∃ ep, (ep, true) ∈ flags) ∧
    (∀ ep, (ep, true) ∈ flags → stateOf w' ep = Some STATE_PENDING) ∧
    (∀ n, (n, true) ∉ flags → stateOf w' n = stateOf w n).
Proof.
  destruct (collectNodesToClean_total w files) as (s & Hs & _).
  destruct (collectNodesToClean_frame w files s Hs) as (Hheap & Hgraph & _).
  unfold invalidateEntryPointsAndCacheOnFileChange. rewrite Hs.
  pose proof (markEntryPoints_spec (allNodesToClean s) (potentialStylesResources s)
    (graph_filter (sweepWorld s) isEntryPoint) false (sweepWorld s))
    as (Hret & Hpending & Hkept).
  destruct (markEntryPoints _ _ _ _) as [r w']. cbn [fst snd] in *.
  assert (∀ n, stateOf (sweepWorld s) n = stateOf w n) as Hsame.
  { intros n. unfold stateOf, targetOf. by rewrite Hheap. }
  exists s, r, w'. split_and!; [done..| | | |].
  - rewrite dirtyFlags_entryPoints. unfold graph_filter, graph_entries.
    by rewrite Hheap, Hgraph.
  - rewrite Hret. split; [by intros [?|?]|by right].
  - intros ep Hep. rewrite (Hpending ep Hep).
    assert (ep ∈ graph_filter (sweepWorld s) isEntryPoint) as Hin.
    { rewrite <-(dirtyFlags_entryPoints (allNodesToClean s)
        (potentialStylesResources s) _ (sweepWorld s)).
      by apply (list_elem_of_fmap_2 fst _ (ep, true)). }
    by destruct (graph_filter_isEntryPoint _ _ Hin) as [st ->].
  - intros n Hn. by rewrite (Hkept n Hn).
Qed.

(** *** Duplicate paths in the batch *)

Lemma findChangedNodes_app w files files' :
  findChangedNodes w (files ++ files') =
  fold_left
    (λ allNodesToClean filePath,
       match graph_find w (λ node, String.eqb (fileUrl filePath) (url node)) with
       | None => allNodesToClean
       | Some nodeToClean => Js.Map_set filePath nodeToClean allNodesToClean
       end)
    files' (findChangedNodes w files).
Proof. unfold findChangedNodes. apply fold_left_app. Qed.

Lemma findChangedNodes_get w files acc x n :
  graph_find w (λ node, String.eqb (fileUrl x) (url node)) = Some n →
  x ∈ files ∨ Js.Map_get x acc = Some n →
  Js.Map_get x
    (fold_left
       (λ allNodesToClean filePath,
          match graph_find w (λ node, String.eqb (fileUrl filePath) (url node)) with
          | None => allNodesToClean
          | Some nodeToClean => Js.Map_set filePath nodeToClean allNodesToClean
          end)
       files acc) = Some n.
Proof.
  intros Hx. revert acc. induction files as [|f files IH]; intros acc; cbn [fold_left].
  - intros [Hin|?]; [by apply elem_of_nil in Hin|done].
  - intros Hcase. apply IH.
    destruct (decide (x = f)) as [<-|Hne].
    + right. rewrite Hx, Map_get_set. by rewrite decide_True.
    + destruct Hcase as [[?|Hin]%elem_of_cons|Hget]; [done|by left|].
      right.
      destruct (graph_find w (λ node, String.eqb (fileUrl f) (url node))); [|done].
      rewrite Map_get_set. by rewrite decide_False.
Qed.

(** A path met again finds its node already filed under it. *)
Lemma findChangedNodes_again w files x :
  x ∈ files → findChangedNodes w (files ++ [x]) = findChangedNodes w files.
Proof.
  intros Hin. rewrite findChangedNodes_app. cbn [fold_left].
  destruct (graph_find w _) as [n|] eqn:Hx; [|done].
  apply Map_set_get_same. unfold findChangedNodes.
  apply findChangedNodes_get; [done|by left].
Qed.

Lemma findChangedNodes_dedup w files seen :
  findChangedNodes w (seen ++ files) =
  findChangedNodes w (fold_left (λ acc x, Js.Set_add x acc) files seen).
Proof.
  revert seen. induction files as [|x files IH]; intros seen; cbn [fold_left].
  - by rewrite app_nil_r.
  - unfold Js.Set_add at 2. destruct (decide (x ∈ seen)) as [Hin|Hout].
    + rewrite <-IH. rewrite (cons_middle x seen files), app_assoc.
      rewrite findChangedNodes_app, findChangedNodes_again by done.
      by rewrite <-findChangedNodes_app.
    + rewrite <-IH. by rewrite (cons_middle x seen files), app_assoc.
Qed.

(** C8. A batch with duplicate paths gives the same result, caches, entry
    point states and trace as the batch with the duplicates removed
    ([[...new Set(files)]], which keeps the first occurrence of each path). *)
Theorem invalidate_duplicate_paths w files :
  invalidateEntryPointsAndCacheOnFileChange w files =
  invalidateEntryPointsAndCacheOnFileChange w (Js.Set_from files).
Proof.
  assert (collectNodesToClean w files = collectNodesToClean w (Js.Set_from files))
    as Hsame.
  { destruct (collectNodesToClean_total w files) as (s1 & Hs1 & _).
    destruct (collectNodesToClean_total w (Js.Set_from files)) as (s2 & Hs2 & _).
    rewrite Hs1, Hs2. unfold collectNodesToClean in Hs1, Hs2.
    unfold Js.Set_from in Hs2 at 2.
    rewrite <-(findChangedNodes_dedup w files []) in Hs2. cbn [app] in Hs2.
    apply (sweep_fuel_mono _ (sweepFuel w files + sweepFuel w (Js.Set_from files)))
      in Hs1, Hs2; [|lia..].
    congruence. }
  unfold invalidateEntryPointsAndCacheOnFileChange. by rewrite Hsame.
Qed.

(** *** Order of the evictions *)

Lemma pullDependee_prefix w acc d :
  acc.1.*1 `prefix_of` (pullDependee w acc d).1.*1.
Proof.
  unfold pullDependee. destruct (pathOf w d) as [filePath|]; [|done].
  destruct (Js.truthy filePath); [|done]. apply Map_set_prefix_keys.
Qed.

Lemma pullDependees_prefix w ds acc :
  acc.1.*1 `prefix_of` (fold_left (pullDependee w) ds acc).1.*1.
Proof.
  revert acc. induction ds as [|d ds IH]; intros acc; [done|].
  cbn [fold_left]. etrans; [apply (pullDependee_prefix w acc d)|apply IH].
Qed.

Lemma sweepStep_prefix filePath n s :
  (allNodesToClean s).*1 `prefix_of` (allNodesToClean (sweepStep filePath n s)).*1.
Proof.
  unfold sweepStep. destruct (Js.endsWith filePath ".ts"); [done|].
  pose proof (pullDependees_prefix (sweepWorld s) (dependeesOf (sweepWorld s) n)
    (allNodesToClean s, Js.Set_add filePath (potentialStylesResources s))) as Hp.
  by destruct (fold_left _ _ _).
Qed.

Lemma sweepStep_effects filePath n s :
  let w := sweepWorld s in
  let w' := sweepWorld (sweepStep filePath n s) in
  trace w' = trace w ++ [EvSourcesDelete filePath] ∧
  sourcesFileCache w' = delete filePath (sourcesFileCache w).
Proof.
  cbn zeta. unfold sweepStep. destruct (Js.endsWith filePath ".ts"); [done|].
  by destruct (fold_left _ _ _).
Qed.

(** The sweep evicts the keys of the map it ends with, in map order. *)
Lemma collectNodesToClean_effects w files s :
  collectNodesToClean w files = Some s →
  let keys := (allNodesToClean s).*1 in
  trace (sweepWorld s) = trace w ++ (EvSourcesDelete <$> keys) ∧
  sourcesFileCache (sweepWorld s) =
    fold_left (λ c k, delete k c) keys (sourcesFileCache w).
Proof.
  intros Hs. cbn zeta.
  apply (sweep_ind (λ i s,
    let keys := take i (allNodesToClean s).*1 in
    i ≤ length (allNodesToClean s) ∧
    trace (sweepWorld s) = trace w ++ (EvSourcesDelete <$> keys) ∧
    sourcesFileCache (sweepWorld s) =
      fold_left (λ c k, delete k c) keys (sourcesFileCache w)))
    in Hs as (i & (Hle & Ht & Hc) & Hend).
  - apply lookup_ge_None in Hend.
    rewrite take_ge in Ht, Hc by (rewrite length_fmap; lia). done.
  - intros i filePath n s0 (Hle & Ht & Hc) Hi. cbn zeta in *.
    destruct (sweepStep_effects filePath n s0) as [Ht' Hc']. cbn zeta in *.
    pose proof (sweepStep_prefix filePath n s0) as Hp.
    assert ((allNodesToClean s0).*1 !! i = Some filePath) as Hk.
    { by rewrite list_lookup_fmap, Hi. }
    pose proof (prefix_lookup_Some _ _ _ _ Hk Hp) as Hk'.
    assert (take i (allNodesToClean (sweepStep filePath n s0)).*1
            = take i (allNodesToClean s0).*1) as Htake.
    { destruct Hp as [rest ->]. rewrite take_app_le; [done|].
      apply lookup_lt_Some in Hk. lia. }
    split_and!.
    + apply lookup_lt_Some in Hk'. rewrite length_fmap in Hk'. lia.
    + rewrite (take_S_r _ _ _ Hk'), Htake, fmap_app, Ht', Ht.
      by rewrite <-app_assoc.
    + rewrite (take_S_r _ _ _ Hk'), Htake, fold_left_app, Hc', Hc. done.
  - cbn. split_and!; [lia|by rewrite app_nil_r|done].
Qed.

Lemma fold_delete_lookup {V} (keys : list string) (c : gmap string V) k :
  fold_left (λ c k, delete k c) keys c !! k =
  if decide (k ∈ keys) then None else c !! k.
Proof.
  revert c. induction keys as [|k' keys IH]; intros c; cbn [fold_left]; [done|].
  rewrite IH. destruct (decide (k ∈ keys)) as [Hin|Hout].
  - by rewrite decide_True by (by apply list_elem_of_further).
  - destruct (decide (k = k')) as [->|Hne].
    + rewrite decide_True by apply list_elem_of_here. apply lookup_delete_eq.
    + rewrite decide_False; [by apply lookup_delete_ne|].
      rewrite elem_of_cons. tauto.
Qed.

Lemma entryPointStep_refl w : entryPointStep w w.
Proof. split_and!; [done..|]. exists []. by rewrite app_nil_r. Qed.

Lemma entryPointStep_trans w1 w2 w3 :
  entryPointStep w1 w2 → entryPointStep w2 w3 → entryPointStep w1 w3.
Proof.
  intros (Hg & Hc & Hh & Hb & evs & Ht & Hevs) (Hg' & Hc' & Hh' & Hb' & evs' & Ht' & Hevs').
  split_and!; [congruence..|]. exists (evs ++ evs'). split.
  - by rewrite Ht', Ht, app_assoc.
  - by apply Forall_app.
Qed.

Lemma entryPointStep_log f ep e w :
  isEntryPointEvent e = true →
  entryPointStep w (log e (alterNode (alterTarget f) ep w)).
Proof.
  intros He. split_and!; [done..|]. exists [e]. split; [done|].
  by apply Forall_singleton.
Qed.

Lemma invalidateStyles_step resources ep w :
  entryPointStep w (invalidateStyles resources ep w).2.
Proof.
  unfold invalidateStyles. destruct resources; [apply entryPointStep_refl|].
  destruct (targetOf w ep ≫= stylesheetProcessor) as [sp|]; [|apply entryPointStep_refl].
  destruct (sp_invalidate sp _) as [sp' affected]. cbn [snd].
  by apply entryPointStep_log.
Qed.

Lemma cleanAnalysed_step ep acc entry :
  entryPointStep acc.2 (cleanAnalysed ep acc entry).2.
Proof.
  unfold cleanAnalysed. destruct entry as [filePath dependent].
  case_decide; [|apply entryPointStep_refl]. cbn [snd].
  by apply entryPointStep_log.
Qed.

Lemma checkEntryPoint_step all resources ep w :
  entryPointStep w (checkEntryPoint all resources ep w).2.
Proof.
  unfold checkEntryPoint.
  assert (entryPointStep w
    (fold_left (cleanAnalysed ep) all (invalidateStyles resources ep w)).2) as Hfold.
  { generalize (invalidateStyles_step resources ep w).
    generalize (invalidateStyles resources ep w) as acc.
    induction all as [|entry all IH]; intros acc Hacc; [done|].
    cbn [fold_left]. apply IH.
    eapply entryPointStep_trans; [done|apply cleanAnalysed_step]. }
  destruct (fold_left _ _ _) as [isDirty w']. cbn [snd] in Hfold.
  destruct isDirty; [|done]. cbn [snd].
  eapply entryPointStep_trans; [done|]. by apply entryPointStep_log.
Qed.

Lemma markEntryPoints_step all resources eps acc :
  entryPointStep acc.2 (markEntryPoints all resources eps acc).2.
Proof.
  revert acc. induction eps as [|ep eps IH]; intros acc; [apply entryPointStep_refl|].
  rewrite markEntryPoints_cons.
  eapply entryPointStep_trans; [|apply IH]. apply checkEntryPoint_step.
Qed.

(** *** The sources file cache is written, never read *)

Lemma sameButSources_refl w : sameButSources w w.
Proof. done. Qed.

Lemma sameButSources_alter g n w1 w2 :
  sameButSources w1 w2 → sameButSources (alterNode g n w1) (alterNode g n w2).
Proof.
  intros (Hh & Hg & Hc & Hb & Ht). unfold sameButSources, alterNode. cbn.
  by rewrite Hh.
Qed.

Lemma sameButSources_log e w1 w2 :
  sameButSources w1 w2 → sameButSources (log e w1) (log e w2).
Proof.
  intros (Hh & Hg & Hc & Hb & Ht). unfold sameButSources, log. cbn.
  by rewrite Ht.
Qed.

Lemma sameButSources_setSources c1 c2 w1 w2 :
  sameButSources w1 w2 → sameButSources (setSources c1 w1) (setSources c2 w2).
Proof. by intros (Hh & Hg & Hc & Hb & Ht). Qed.

Lemma invalidateStyles_sim resources ep w1 w2 :
  sameButSources w1 w2 →
  (invalidateStyles resources ep w1).1 = (invalidateStyles resources ep w2).1 ∧
  sameButSources (invalidateStyles resources ep w1).2 (invalidateStyles resources ep w2).2.
Proof.
  intros Hsim. unfold invalidateStyles. destruct resources; [done|].
  unfold targetOf. rewrite (proj1 Hsim).
  destruct (_ ≫= stylesheetProcessor) as [sp|]; [|done].
  destruct (sp_invalidate sp _) as [sp' affected]. cbn [fst snd].
  split; [done|]. by apply sameButSources_log, sameButSources_alter.
Qed.

Lemma cleanAnalysed_sim ep acc1 acc2 entry :
  acc1.1 = acc2.1 → sameButSources acc1.2 acc2.2 →
  (cleanAnalysed ep acc1 entry).1 = (cleanAnalysed ep acc2 entry).1 ∧
  sameButSources (cleanAnalysed ep acc1 entry).2 (cleanAnalysed ep acc2 entry).2.
Proof.
  intros Hd Hsim. unfold cleanAnalysed. destruct entry as [filePath dependent].
  unfold dependentsOf. rewrite (proj1 Hsim).
  case_decide; [|done]. cbn [fst snd].
  split; [done|]. by apply sameButSources_log, sameButSources_alter.
Qed.

Lemma checkEntryPoint_sim all resources ep w1 w2 :
  sameButSources w1 w2 →
  (checkEntryPoint all resources ep w1).1 = (checkEntryPoint all resources ep w2).1 ∧
  sameButSources (checkEntryPoint all resources ep w1).2
    (checkEntryPoint all resources ep w2).2.
Proof.
  intros Hsim. unfold checkEntryPoint.
  assert (
    (fold_left (cleanAnalysed ep) all (invalidateStyles resources ep w1)).1 =
    (fold_left (cleanAnalysed ep) all (invalidateStyles resources ep w2)).1 ∧
    sameButSources
      (fold_left (cleanAnalysed ep) all (invalidateStyles resources ep w1)).2
      (fold_left (cleanAnalysed ep) all (invalidateStyles resources ep w2)).2)
    as Hfold.
  { generalize (invalidateStyles_sim resources ep w1 w2 Hsim).
    generalize (invalidateStyles resources ep w1) as acc1.
    generalize (invalidateStyles resources ep w2) as acc2.
    induction all as [|entry all IH]; intros acc2 acc1 [Hd Hw]; [done|].
    cbn [fold_left]. by apply IH, cleanAnalysed_sim. }
  destruct (fold_left _ _ (invalidateStyles resources ep w1)) as [d1 w1'].
  destruct (fold_left _ _ (invalidateStyles resources ep w2)) as [d2 w2'].
  cbn [fst snd] in Hfold. destruct Hfold as [-> Hw].
  destruct d2; cbn [fst snd]; [|done].
  split; [done|]. by apply sameButSources_log, sameButSources_alter.
Qed.

Lemma markEntryPoints_sim all resources eps acc1 acc2 :
  acc1.1 = acc2.1 → sameButSources acc1.2 acc2.2 →
  (markEntryPoints all resources eps acc1).1 = (markEntryPoints all resources eps acc2).1 ∧
  sameButSources (markEntryPoints all resources eps acc1).2
    (markEntryPoints all resources eps acc2).2.
Proof.
  revert acc1 acc2. induction eps as [|ep eps IH]; intros acc1 acc2 Hd Hw; [done|].
  rewrite !markEntryPoints_cons.
  destruct (checkEntryPoint_sim all resources ep acc1.2 acc2.2 Hw) as [Hd' Hw'].
  apply IH; cbn [fst snd]; [|done]. by rewrite Hd, Hd'.
Qed.

Lemma sweepStep_sim filePath n s1 s2 :
  sweepSim s1 s2 → sweepSim (sweepStep filePath n s1) (sweepStep filePath n s2).
Proof.
  intros (Hall & Hres & Hw). unfold sweepStep.
  assert (sameButSources
    (log (EvSourcesDelete filePath)
       (setSources (FileCache_delete filePath (sourcesFileCache (sweepWorld s1)))
          (sweepWorld s1)))
    (log (EvSourcesDelete filePath)
       (setSources (FileCache_delete filePath (sourcesFileCache (sweepWorld s2)))
          (sweepWorld s2)))) as Hw'.
  { by apply sameButSources_log, sameButSources_setSources. }
  destruct (Js.endsWith filePath ".ts"); [done|].
  rewrite (pullDependee_heap (sweepWorld s2) (sweepWorld s1)) by apply Hw.
  unfold dependeesOf. rewrite (proj1 Hw), Hall, Hres.
  by destruct (fold_left _ _ _).
Qed.

Lemma sweep_sim fuel i s1 s2 s1' :
  sweepSim s1 s2 → sweep fuel i s1 = Some s1' →
  ∃ s2', sweep fuel i s2 = Some s2' ∧ sweepSim s1' s2'.
Proof.
  revert i s1 s2. induction fuel as [|fuel IH]; intros i s1 s2 Hsim; cbn [sweep];
    rewrite <-(proj1 Hsim).
  - destruct (allNodesToClean s1 !! i) as [[filePath n]|]; [done|].
    intros [= <-]. by exists s2.
  - destruct (allNodesToClean s1 !! i) as [[filePath n]|].
    + apply IH. by apply sweepStep_sim.
    + intros [= <-]. by exists s2.
Qed.

Lemma graph_filter_sim w1 w2 by_ :
  sameButSources w1 w2 → graph_filter w1 by_ = graph_filter w2 by_.
Proof.
  intros (Hh & Hg & _). unfold graph_filter, graph_entries. by rewrite Hh, Hg.
Qed.

Lemma findChangedNodes_sim w1 w2 files :
  sameButSources w1 w2 → findChangedNodes w1 files = findChangedNodes w2 files.
Proof.
  intros (Hh & Hg & _). unfold findChangedNodes, graph_find, graph_entries.
  by rewrite Hh, Hg.
Qed.

(** The outcome, the node objects and the trace do not depend on what the
    sources file cache holds. *)
Lemma invalidate_sim w1 w2 files r w1' :
  sameButSources w1 w2 →
  invalidateEntryPointsAndCacheOnFileChange w1 files = Some (r, w1') →
  ∃ w2', invalidateEntryPointsAndCacheOnFileChange w2 files = Some (r, w2') ∧
         sameButSources w1' w2'.
Proof.
  intros Hsim. unfold invalidateEntryPointsAndCacheOnFileChange, collectNodesToClean.
  destruct (sweep _ 0 (mkSweep (findChangedNodes w1 files) [] w1)) as [s1|] eqn:Hs1;
    [|done].
  eapply (sweep_sim _ _ _ (mkSweep (findChangedNodes w2 files) [] w2)) in Hs1
    as (s2 & Hs2 & Hall & Hres & Hw); last first.
  { split_and!; [apply (findChangedNodes_sim w1 w2 files Hsim)|done|done]. }
  cbn [sweepWorld allNodesToClean potentialStylesResources] in *.
  unfold sweepFuel in *. rewrite <-(proj1 Hsim), Hs2.
  rewrite <-Hall, <-Hres, <-(graph_filter_sim _ _ isEntryPoint Hw).
  destruct (markEntryPoints_sim (allNodesToClean s1) (potentialStylesResources s1)
    (graph_filter (sweepWorld s1) isEntryPoint) (false, sweepWorld s1)
    (false, sweepWorld s2) eq_refl Hw) as [Hr Hw'].
  destruct (markEntryPoints _ _ _ (false, sweepWorld s1)) as [r1 w1a].
  destruct (markEntryPoints _ _ _ (false, sweepWorld s2)) as [r2 w2a].
  cbn [fst snd] in *. intros [= <- <-]. exists w2a. by subst.
Qed.

(** C7 (amended). Within one call every eviction from the sources file
    cache happens before the loop over the entry points starts: the trace of
    the call is one [EvSourcesDelete] per key of the to-clean map, in map
    order, followed by entry point events only. Exactly those keys are gone
    from the sources file cache afterwards. The dirty determinations never
    read that cache: with any other cache content the call returns the same
    result and leaves the same node objects and the same trace. *)
Theorem invalidate_evicts_before_entry_points w files :
  ∃ s r w' evs,
    collectNodesToClean w files = Some s ∧
    invalidateEntryPointsAndCacheOnFileChange w files = Some (r, w') ∧
    trace w' = trace w ++ (EvSourcesDelete <$> (allNodesToClean s).*1) ++ evs ∧
    Forall (λ e, isEntryPointEvent e = true) evs ∧
    (∀ k, sourcesFileCache w' !! k =
          if decide (k ∈ (allNodesToClean s).*1) then None
          else sourcesFileCache w !! k) ∧
    (∀ c, ∃ w'',
       invalidateEntryPointsAndCacheOnFileChange (setSources c w) files
       = Some (r, w'') ∧
       heap w'' = heap w' ∧ trace w'' = trace w').
Proof.
  destruct (collectNodesToClean_total w files) as (s & Hs & _).
  destruct (collectNodesToClean_effects w files s Hs) as [Ht Hc]. cbn zeta in *.
  assert (∃ r w', invalidateEntryPointsAndCacheOnFileChange w files = Some (r, w') ∧
                  entryPointStep (sweepWorld s) w') as (r & w' & Hrun & Hstep).
  { unfold invalidateEntryPointsAndCacheOnFileChange. rewrite Hs.
    pose proof (markEntryPoints_step (allNodesToClean s) (potentialStylesResources s)
      (graph_filter (sweepWorld s) isEntryPoint) (false, sweepWorld s)) as Hstep.
    destruct (markEntryPoints _ _ _ _) as [r w']. by exists r, w'. }
  destruct Hstep as (_ & Hc' & _ & _ & evs & Ht' & Hevs).
  exists s, r, w', evs. split_and!; [done..| | | |].
  - by rewrite Ht', Ht, <-app_assoc.
  - done.
  - intros k. by rewrite Hc', Hc, fold_delete_lookup.
  - intros c.
    destruct (invalidate_sim w (setSources c w) files r w') as (w'' & Hrun' & Hsim);
      [by repeat split|done|].
    exists w''. split; [done|]. destruct Hsim as (Hh & _ & _ & _ & Htr). done.
Qed.

(** *** Resource fan-out *)

Lemma omap_lookup_inj {A B} (f : A → option B) (l : list A) a b x y p :
  NoDup (omap f l) →
  l !! a = Some x → f x = Some p → l !! b = Some y → f y = Some p → a = b.
Proof.
  revert a b. induction l as [|z l IH]; intros a b Hnd Ha Hx Hb Hy; [done|].
  simpl in Hnd.
  assert (∀ c u, l !! c = Some u → f u = Some p → p ∈ omap f l) as Hin.
  { intros c u Hc Hu. apply list_elem_of_omap. exists u. split; [|done].
    by apply list_elem_of_lookup_2 in Hc. }
  destruct a as [|a], b as [|b]; cbn [lookup list_lookup] in Ha, Hb.
  - done.
  - injection Ha as <-. rewrite Hx in Hnd. apply NoDup_cons in Hnd as [Hout _].
    destruct Hout. by eapply Hin.
  - injection Hb as <-. rewrite Hy in Hnd. apply NoDup_cons in Hnd as [Hout _].
    destruct Hout. by eapply Hin.
  - f_equal. apply IH; [|done..].
    destruct (f z); [by apply NoDup_cons in Hnd as [_ ?]|done].
Qed.

Lemma uniquePaths_inj w a b p :
  uniquePaths w → pathOf w a = Some p → pathOf w b = Some p → a = b.
Proof.
  unfold uniquePaths, pathOf. intros Hnd Ha Hb.
  destruct (heap w !! a) as [x|] eqn:Hx; [|done].
  destruct (heap w !! b) as [y|] eqn:Hy; [|done].
  by eapply (omap_lookup_inj _ (heap w) a b x y p).
Qed.

Lemma pullDependee_settled w acc d q :
  uniquePaths w → settled w acc.1 →
  pathOf w d = Some q → Js.truthy q = true →
  acc.1 `prefix_of` (pullDependee w acc d).1 ∧ (q, d) ∈ (pullDependee w acc d).1.
Proof.
  intros HU [Hf Hnd] Hq Htruthy. unfold pullDependee. rewrite Hq, Htruthy. cbn [fst].
  destruct (decide (q ∈ acc.1.*1)) as [Hin|Hout].
  - apply list_elem_of_fmap in Hin as ([q' n'] & -> & Hin). cbn [fst] in *.
    assert (n' = d) as ->.
    { eapply uniquePaths_inj; [done| |done]. by apply Hf. }
    by rewrite Map_set_same.
  - rewrite Map_set_fresh by done. split; [by apply prefix_app_r|].
    apply elem_of_app. right. apply list_elem_of_here.
Qed.

Lemma pullDependee_keeps_settled w acc d :
  settled w acc.1 → settled w (pullDependee w acc d).1.
Proof.
  intros [Hf Hnd]. split; [by apply pullDependee_filed|].
  unfold pullDependee. destruct (pathOf w d) as [q|]; [|done].
  destruct (Js.truthy q); [|done]. by apply Map_set_NoDup.
Qed.

Lemma pullDependee_grows w acc d :
  uniquePaths w → settled w acc.1 → acc.1 `prefix_of` (pullDependee w acc d).1.
Proof.
  intros HU Hs.
  destruct (pathOf w d) as [q|] eqn:Hq; [destruct (Js.truthy q) eqn:Ht|].
  - by eapply pullDependee_settled.
  - unfold pullDependee. by rewrite Hq, Ht.
  - unfold pullDependee. by rewrite Hq.
Qed.

Lemma prefix_elem_of {A} (l k : list A) x : l `prefix_of` k → x ∈ l → x ∈ k.
Proof. intros [rest ->] Hx. apply elem_of_app. by left. Qed.

Lemma pullDependees_settled w ds acc :
  uniquePaths w → settled w acc.1 →
  let r := fold_left (pullDependee w) ds acc in
  settled w r.1 ∧ acc.1 `prefix_of` r.1 ∧
  ∀ d q, d ∈ ds → pathOf w d = Some q → Js.truthy q = true → (q, d) ∈ r.1.
Proof.
  intros HU. revert acc. induction ds as [|d ds IH]; intros acc Hs; cbn [fold_left].
  - split_and!; [done..|]. intros d q Hd. by apply elem_of_nil in Hd.
  - destruct (IH (pullDependee w acc d) (pullDependee_keeps_settled w acc d Hs))
      as (Hs' & Hp & Hall). cbn zeta in *.
    split_and!; [done| |].
    + etrans; [by apply pullDependee_grows|done].
    + intros d' q [->|Hd]%elem_of_cons Hq Ht; [|by eapply Hall].
      eapply prefix_elem_of; [done|]. by eapply pullDependee_settled.
Qed.

Lemma sweepStep_swept w i filePath n s :
  uniquePaths w →
  heap (sweepWorld s) = heap w →
  settled w (allNodesToClean s) → swept w i (allNodesToClean s) →
  allNodesToClean s !! i = Some (filePath, n) →
  let s' := sweepStep filePath n s in
  settled w (allNodesToClean s') ∧ swept w (S i) (allNodesToClean s') ∧
  allNodesToClean s `prefix_of` allNodesToClean s'.
Proof.
  intros HU Hh Hs Hswept Hi. cbn zeta. unfold sweepStep.
  destruct (Js.endsWith filePath ".ts") eqn:Hts; cbn [allNodesToClean].
  - split_and!; [done| |done].
    intros j k m d q Hj Hjm Hk. destruct (decide (j = i)) as [->|Hne].
    + rewrite Hi in Hjm. injection Hjm as <- <-. congruence.
    + apply (Hswept j k m d q); [lia|done..].
  - rewrite (pullDependee_heap w (sweepWorld s)) by done.
    assert (dependeesOf (sweepWorld s) n = dependeesOf w n) as ->.
    { unfold dependeesOf. by rewrite Hh. }
    pose proof (pullDependees_settled w (dependeesOf w n)
      (allNodesToClean s, Js.Set_add filePath (potentialStylesResources s)) HU Hs)
      as (Hs' & Hp & Hall). cbn zeta in *.
    destruct (fold_left _ _ _) as [all resources]. cbn [fst allNodesToClean] in *.
    split_and!; [done| |done].
    intros j k m d q Hj Hjm Hk Hd Hq Ht. destruct (decide (j = i)) as [->|Hne].
    + rewrite (prefix_lookup_Some _ _ _ _ Hi Hp) in Hjm. injection Hjm as <- <-.
      by eapply Hall.
    + assert (j < length (allNodesToClean s)) as Hlen.
      { apply lookup_lt_Some in Hi. lia. }
      rewrite <-(prefix_lookup_lt _ _ _ Hlen Hp) in Hjm.
      eapply prefix_elem_of; [done|].
      apply (Hswept j k m d q); [lia|done..].
Qed.

(** With unique paths the to-clean map ends closed under the dependees of
    its non-.ts entries, and holds the node found for every changed path. *)
Lemma collectNodesToClean_closed w files s :
  (∀ x, fileUrlPath (fileUrl x) = Some x) →
  uniquePaths w →
  collectNodesToClean w files = Some s →
  findChangedNodes w files `prefix_of` allNodesToClean s ∧
  ∀ k n d q,
    (k, n) ∈ allNodesToClean s → Js.endsWith k ".ts" = false →
    d ∈ dependeesOf w n → pathOf w d = Some q → Js.truthy q = true →
    (q, d) ∈ allNodesToClean s.
Proof.
  intros Hrt HU Hs.
  apply (sweep_ind (λ i s,
    heap (sweepWorld s) = heap w ∧ settled w (allNodesToClean s) ∧
    swept w i (allNodesToClean s) ∧
    findChangedNodes w files `prefix_of` allNodesToClean s))
    in Hs as (i & (_ & _ & Hswept & Hp) & Hend).
  - split; [done|]. intros k n d q [j Hj]%list_elem_of_lookup.
    apply (Hswept j k n d q); [|done].
    apply lookup_ge_None in Hend. apply lookup_lt_Some in Hj. lia.
  - intros i filePath n s0 (Hh & Hs0 & Hswept & Hp) Hi.
    destruct (sweepStep_swept w i filePath n s0 HU Hh Hs0 Hswept Hi)
      as (Hs' & Hswept' & Hp').
    split_and!; [by rewrite sweepStep_heap|done|done|by etrans].
  - cbn [sweepWorld allNodesToClean]. split_and!; [done| | |done].
    + split; [by apply findChangedNodes_filed|].
      by apply (findChangedNodes_keys w files files).
    + intros j k n d q Hj. lia.
Qed.

Lemma dirtyFlags_dirty all resources eps w e :
  e ∈ eps →
  existsb (λ entry, bool_decide (entry.2 ∈ dependentsOf w e)) all = true →
  (e, true) ∈ dirtyFlags all resources eps w.
Proof.
  revert w. induction eps as [|ep eps IH]; intros w He Hdirty;
    [by apply elem_of_nil in He|].
  rewrite dirtyFlags_cons.
  destruct (checkEntryPoint_spec all resources ep w) as (Hflag & Hdeps & _).
  cbn zeta in *.
  destruct (decide (e = ep)) as [->|Hne].
  - rewrite Hflag, Hdirty, orb_true_r. apply list_elem_of_here.
  - apply list_elem_of_further, IH.
    + apply elem_of_cons in He as [?|?]; [done|done].
    + erewrite existsb_ext; [exact Hdirty|]. intros entry. cbn beta.
      by rewrite Hdeps.
Qed.

(** C2. Resource fan-out is transitive across non-.ts nodes. [P] is the
    node of the changed path, which does not end in .ts; [S], whose path
    does not end in .ts either, depends on [P]; [T] depends on [S]. Then
    invalidating [{P}] puts [S] and [T] into the to-clean map, and an entry
    point that depends on [S] or on [T] is marked dirty (its state becomes
    [STATE_PENDING] and the call returns [true]) whether or not it ever
    referenced [P]. Node identifiers are unique, and [fileUrlPath] undoes
    [fileUrl]. *)
Theorem invalidate_resource_fan_out_transitive w pPath sPath tPath np ns nt ep :
  (∀ x, fileUrlPath (fileUrl x) = Some x) →
  uniquePaths w →
  graph_find w (λ node, String.eqb (fileUrl pPath) (url node)) = Some np →
  Js.endsWith pPath ".ts" = false →
  ns ∈ dependeesOf w np → pathOf w ns = Some sPath →
  Js.truthy sPath = true → Js.endsWith sPath ".ts" = false →
  nt ∈ dependeesOf w ns → pathOf w nt = Some tPath → Js.truthy tPath = true →
  ep ∈ graph_filter w isEntryPoint →
  ns ∈ dependentsOf w ep ∨ nt ∈ dependentsOf w ep →
  ∃ sw w',
    collectNodesToClean w [pPath] = Some sw ∧
    (sPath, ns) ∈ allNodesToClean sw ∧ (tPath, nt) ∈ allNodesToClean sw ∧
    invalidateEntryPointsAndCacheOnFileChange w [pPath] = Some (true, w') ∧
    stateOf w' ep = Some STATE_PENDING.
Proof.
  intros Hrt HU Hp Hpts Hs Hspath Hstruthy Hsts Ht Htpath Httruthy He Hdep.
  destruct (collectNodesToClean_total w [pPath]) as (sw & Hsw & _).
  destruct (collectNodesToClean_frame w [pPath] sw Hsw) as (Hheap & Hgraph & _).
  destruct (collectNodesToClean_closed w [pPath] sw Hrt HU Hsw) as [Hstart Hclosed].
  assert ((pPath, np) ∈ allNodesToClean sw) as Hpin.
  { eapply prefix_elem_of; [done|]. unfold findChangedNodes. cbn [fold_left].
    rewrite Hp. apply list_elem_of_here. }
  assert ((sPath, ns) ∈ allNodesToClean sw) as Hsin by by eapply Hclosed.
  assert ((tPath, nt) ∈ allNodesToClean sw) as Htin by by eapply Hclosed.
  assert (∀ n, dependentsOf (sweepWorld sw) n = dependentsOf w n) as Hdeps.
  { intros n. unfold dependentsOf. by rewrite Hheap. }
  assert (ep ∈ graph_filter (sweepWorld sw) isEntryPoint) as He'.
  { unfold graph_filter, graph_entries in *. by rewrite Hheap, Hgraph. }
  assert ((ep, true) ∈ dirtyFlags (allNodesToClean sw) (potentialStylesResources sw)
            (graph_filter (sweepWorld sw) isEntryPoint) (sweepWorld sw)) as Hflag.
  { apply dirtyFlags_dirty; [done|]. apply existsb_exists.
    destruct Hdep as [Hdep|Hdep].
    - exists (sPath, ns). split; [by apply list_elem_of_In|].
      apply bool_decide_eq_true_2. by rewrite Hdeps.
    - exists (tPath, nt). split; [by apply list_elem_of_In|].
      apply bool_decide_eq_true_2. by rewrite Hdeps. }
  unfold invalidateEntryPointsAndCacheOnFileChange. rewrite Hsw.
  pose proof (markEntryPoints_spec (allNodesToClean sw) (potentialStylesResources sw)
    (graph_filter (sweepWorld sw) isEntryPoint) false (sweepWorld sw))
    as (Hret & Hpending & _).
  destruct (markEntryPoints _ _ _ _) as [r w']. cbn [fst snd] in *.
  assert (r = true) as ->.
  { apply Hret. right. by exists ep. }
  exists sw, w'. split_and!; [done..|].
  rewrite (Hpending ep Hflag).
  by destruct (graph_filter_isEntryPoint _ _ He') as [st ->].
Qed.

End InvalidateFacts.

(** ** The caching compiler host *)

Section HostFacts.
Context `{Collaborators}.
Implicit Types (w : World) (fileName : string) (entryPoint : node_id).

Lemma bind_returned {A B} (m : Op A) (k : A → Op B) w a w' :
  m w = (Returned a, w') → bind m k w = k a w'.
Proof. intros Hm. unfold bind. by rewrite Hm. Qed.

Lemma bind_threw {A B} (m : Op A) (k : A → Op B) w message w' :
  m w = (Threw message, w') → bind m k w = (Threw message, w').
Proof. intros Hm. unfold bind. by rewrite Hm. Qed.

(** C10. A file name that contains ".ngtypecheck." makes [writeFile] return
    at once: whatever the data and the source files, the call returns
    normally and leaves the world as it found it, so nothing is written
    through to the wrapped host and the output cache is neither read nor
    modified (the trace gains no event). *)
Theorem writeFile_ngtypecheck_returns_at_once entryPoint fileName data
    writeByteOrderMark sourceFiles w :
  Js.includes fileName ".ngtypecheck." = true →
  writeFile entryPoint fileName data writeByteOrderMark sourceFiles w
  = (Returned (), w).
Proof. intros Hng. unfold writeFile. by rewrite Hng. Qed.

(** *** Node lookup and creation *)

Lemma graphStep_refl w : graphStep w w.
Proof. done. Qed.

Lemma graphStep_trans w1 w2 w3 : graphStep w1 w2 → graphStep w2 w3 → graphStep w1 w3.
Proof. intros (?&?&?&?) (?&?&?&?). split_and!; congruence. Qed.

(** [getNode] always returns, and the node it returns is the one the graph
    holds for the URL of the file. *)
Lemma getNode_returns fileName w :
  ∃ n w',
    getNode fileName w = (Returned n, w') ∧
    Js.Map_get (fileUrl (ensureUnixPath fileName)) (graph w') = Some n ∧
    graphStep w w'.
Proof.
  unfold getNode, bind, graph_get, gets.
  destruct (Js.Map_get _ (graph w)) as [n|] eqn:Hget.
  - by exists n, w.
  - unfold newNode, graph_put, ret. cbn [heap setHeap graph].
    rewrite lookup_app_r by done. rewrite Nat.sub_diag. cbn [lookup list_lookup url].
    rewrite Hget. eexists _, _. split; [done|]. split; [|done].
    cbn [graph setGraph]. rewrite Map_get_set. by rewrite decide_True.
Qed.

Lemma addEdge_graphStep a b w : graphStep w (addEdge a b w).
Proof. done. Qed.

Lemma addDependee_returns entryPoint fileName w :
  ∃ w', addDependee entryPoint fileName w = (Returned (), w') ∧ graphStep w w'.
Proof.
  destruct (getNode_returns fileName w) as (n & w1 & Hn & _ & Hstep).
  unfold addDependee. rewrite (bind_returned _ _ _ _ _ Hn).
  unfold dependsOn, modify. cbn [fold_left]. eexists. split; [done|].
  eapply graphStep_trans; [done|apply addEdge_graphStep].
Qed.

(** *** The output cache *)

(** C5 (amended). For a file name without ".ngtypecheck.", emitted with
    exactly one source file for an entry point: [writeFile] returns
    normally, without a value; when the data equals the content cached for
    the file name the call only reads the output cache (the entry and its
    version stay, nothing is written to the cache or to the wrapped host);
    otherwise the entry becomes the data with its sha256 as version, the
    other entries stay, and the only write is that one. With any other
    number of source files no entry point's cache changes at all. *)
Theorem writeFile_suppresses_identical_content entryPoint fileName data
    writeByteOrderMark sourceFile t w :
  Js.includes fileName ".ngtypecheck." = false →
  targetOf w entryPoint = Some t →
  let r := writeFile entryPoint fileName data writeByteOrderMark
             (Some [sourceFile]) w in
  r.1 = Returned () ∧
  (if decide (OutputFile.content <$> outputCache t !! fileName = Some data)
   then r.2 = log (EvOutputGet entryPoint fileName) w ∧ written w r.2 = false
   else outputOf r.2 entryPoint fileName
          = Some (OutputFile.mk data (sha256hex data)) ∧
        (∀ other, other ≠ fileName →
           outputOf r.2 entryPoint other = outputOf w entryPoint other) ∧
        trace r.2 = trace w ++ [EvOutputGet entryPoint fileName;
                                EvOutputSet entryPoint fileName] ∧
        compilerHost r.2 = compilerHost w ∧
        written w r.2 = true) ∧
  (∀ sourceFiles n,
     from_option length 0 sourceFiles ≠ 1 →
     targetOf (writeFile entryPoint fileName data writeByteOrderMark sourceFiles w).2 n
     = targetOf w n).
Proof.
  intros Hng Ht. cbn zeta. unfold writeFile. rewrite Hng.
  split_and!.
  - cbn [from_option length]. rewrite bool_decide_eq_false_2 by lia.
    rewrite bool_decide_eq_true_2 by done. cbn [andb negb].
    unfold bind, gets, modify, ret. rewrite Ht. by case_decide.
  - cbn [from_option length]. rewrite bool_decide_eq_false_2 by lia.
    rewrite bool_decide_eq_true_2 by done. cbn [andb negb].
    unfold bind, gets, modify, ret. rewrite Ht. case_decide as Hsame; cbn [snd].
    + split; [done|]. unfold written, log. cbn [trace].
      by rewrite drop_app_length.
    + split_and!.
      * unfold outputOf. rewrite targetOf_log, targetOf_alterTarget.
        rewrite decide_True by done. rewrite targetOf_log, Ht. cbn.
        apply lookup_insert_eq.
      * intros other Hother. unfold outputOf.
        rewrite targetOf_log, targetOf_alterTarget.
        rewrite decide_True by done. rewrite targetOf_log, Ht. cbn.
        by apply lookup_insert_ne.
      * cbn. by rewrite <-app_assoc.
      * done.
      * unfold written. cbn. rewrite <-app_assoc.
        by rewrite drop_app_length.
  - intros sourceFiles n Hcount.
    destruct (bool_decide (from_option length 0 sourceFiles = 0)
              && String.eqb (extname fileName) ".tsbuildinfo"); [done|].
    by rewrite (bool_decide_eq_false_2 _ Hcount).
Qed.

(** *** The sources file cache *)

Lemma keepsPopulated_refl c : keepsPopulated c c.
Proof. intros f. done. Qed.

Lemma keepsPopulated_trans c1 c2 c3 :
  keepsPopulated c1 c2 → keepsPopulated c2 c3 → keepsPopulated c1 c3.
Proof.
  intros H12 H23 f. destruct (H12 f) as (He & Hc & Hs), (H23 f) as (He' & Hc' & Hs').
  split_and!; eauto.
Qed.

Lemma getOrCreate_spec fileName (c : gmap string CacheEntry) :
  let r := getOrCreate fileName c in
  r.2 !! fileName = Some r.1 ∧
  (∀ other, other ≠ fileName → r.2 !! other = c !! other) ∧
  (∀ A (field : CacheEntry → option A) v,
     c !! fileName ≫= field = Some v → field r.1 = Some v ∧ r.2 = c) ∧
  keepsPopulated c r.2.
Proof.
  cbn zeta. unfold getOrCreate. destruct (c !! fileName) as [e|] eqn:He; cbn [fst snd].
  - split_and!; [done|done| |apply keepsPopulated_refl]. by intros A field v.
  - split_and!.
    + apply lookup_insert_eq.
    + intros other Hother. by apply lookup_insert_ne.
    + by intros A field v.
    + intros f. destruct (decide (f = fileName)) as [->|Hne].
      * rewrite He. by split_and!.
      * rewrite lookup_insert_ne by done. by split_and!.
Qed.

Lemma keepsPopulated_alter g fileName (c : gmap string CacheEntry) :
  (∀ e, c !! fileName = Some e →
        (∀ b, exists_ e = Some b → exists_ (g e) = Some b) ∧
        (∀ t, content e = Some t → content (g e) = Some t) ∧
        (∀ sf, sourceFile e = Some sf → sourceFile (g e) = Some sf)) →
  keepsPopulated c (alter g fileName c).
Proof.
  intros Hg f. destruct (decide (f = fileName)) as [->|Hne].
  - rewrite lookup_alter_eq. destruct (c !! fileName) as [e|]; [|done].
    destruct (Hg e eq_refl) as (He & Hc & Hs). by split_and!.
  - rewrite lookup_alter_ne by done. by split_and!.
Qed.

(** [fileExists] trusts a populated [exists]. *)
Lemma fileExists_cached fileName b w :
  cached exists_ w fileName = Some b → fileExists fileName w = (Returned b, w).
Proof.
  unfold cached. intros Hb. unfold fileExists, bind, cacheOf, ret.
  destruct (getOrCreate_spec fileName (sourcesFileCache w)) as (_ & _ & Hhit & _).
  destruct (Hhit _ exists_ b Hb) as [He Hc].
  destruct (getOrCreate fileName (sourcesFileCache w)) as [e c]. cbn [fst snd] in *.
  rewrite He. subst c. by destruct w.
Qed.

(** [readFile] trusts a populated [content]. *)
Lemma readFile_cached entryPoint fileName t w :
  cached content w fileName = Some t →
  ∃ w', readFile entryPoint fileName w = (Returned (Some t), w') ∧
        servedFromCache w w'.
Proof.
  unfold cached. intros Ht.
  destruct (addDependee_returns entryPoint fileName w) as (w1 & Hdep & Hc1 & Hh1 & _ & Ht1).
  unfold readFile. rewrite (bind_returned _ _ _ _ _ Hdep).
  unfold bind, cacheOf, ret. rewrite <-Hc1 in Ht.
  destruct (getOrCreate_spec fileName (sourcesFileCache w1)) as (_ & _ & Hhit & _).
  destruct (Hhit _ content t Ht) as [He Hc].
  destruct (getOrCreate fileName (sourcesFileCache w1)) as [e c]. cbn [fst snd] in *.
  rewrite He. subst c. eexists. split; [done|]. by split_and!.
Qed.

(** [getSourceFile] trusts a populated [sourceFile] unless a new one is
    asked for. *)
Lemma getSourceFile_cached entryPoint fileName languageVersion sf w :
  cached sourceFile w fileName = Some sf →
  ∃ w', getSourceFile entryPoint fileName languageVersion false w
        = (Returned (Some sf), w') ∧
        servedFromCache w w'.
Proof.
  unfold cached. intros Hsf.
  destruct (addDependee_returns entryPoint fileName w) as (w1 & Hdep & Hc1 & Hh1 & _ & Ht1).
  unfold getSourceFile. rewrite (bind_returned _ _ _ _ _ Hdep).
  unfold bind, cacheOf, ret. rewrite <-Hc1 in Hsf.
  destruct (getOrCreate_spec fileName (sourcesFileCache w1)) as (_ & _ & Hhit & _).
  destruct (Hhit _ sourceFile sf Hsf) as [He Hc].
  destruct (getOrCreate fileName (sourcesFileCache w1)) as [e c]. cbn [fst snd] in *.
  rewrite He. cbn. subst c. eexists. split; [done|]. by split_and!.
Qed.

(** None of the three reads changes a populated field. *)
Lemma fileExists_keeps fileName w :
  keepsPopulated (sourcesFileCache w) (sourcesFileCache (fileExists fileName w).2).
Proof.
  unfold fileExists, bind, cacheOf, callFileExists, assignCache, modify, ret.
  destruct (getOrCreate_spec fileName (sourcesFileCache w)) as (Hat & _ & _ & Hkeep).
  destruct (getOrCreate fileName (sourcesFileCache w)) as [e c]. cbn [fst snd] in *.
  destruct (exists_ e) as [b|] eqn:He; [done|]. cbn [sourcesFileCache setSources compilerHost].
  destruct (host_fileExists _ _) as [h r]. cbn.
  eapply keepsPopulated_trans; [done|]. apply keepsPopulated_alter.
  intros e' He'. rewrite Hat in He'. injection He' as <-. split_and!; [|done..].
  intros b. by rewrite He.
Qed.

Lemma readFile_keeps entryPoint fileName w :
  keepsPopulated (sourcesFileCache w)
    (sourcesFileCache (readFile entryPoint fileName w).2).
Proof.
  destruct (addDependee_returns entryPoint fileName w) as (w1 & Hdep & Hc1 & _).
  unfold readFile. rewrite (bind_returned _ _ _ _ _ Hdep). rewrite <-Hc1.
  unfold bind, cacheOf, callReadFile, assignCache, modify, ret.
  destruct (getOrCreate_spec fileName (sourcesFileCache w1)) as (Hat & _ & _ & Hkeep).
  destruct (getOrCreate fileName (sourcesFileCache w1)) as [e c]. cbn [fst snd] in *.
  destruct (content e) as [t|] eqn:He; [done|]. cbn [sourcesFileCache setSources compilerHost].
  destruct (host_readFile _ _) as [h r]. cbn.
  eapply keepsPopulated_trans; [done|]. apply keepsPopulated_alter.
  intros e' He'. rewrite Hat in He'. injection He' as <-. split_and!; [done| |done].
  intros t. by rewrite He.
Qed.

Lemma getSourceFile_keeps entryPoint fileName languageVersion w :
  keepsPopulated (sourcesFileCache w)
    (sourcesFileCache (getSourceFile entryPoint fileName languageVersion false w).2).
Proof.
  destruct (addDependee_returns entryPoint fileName w) as (w1 & Hdep & Hc1 & _).
  unfold getSourceFile. rewrite (bind_returned _ _ _ _ _ Hdep). rewrite <-Hc1.
  unfold bind, cacheOf, callGetSourceFile, assignCache, modify, ret.
  destruct (getOrCreate_spec fileName (sourcesFileCache w1)) as (Hat & _ & _ & Hkeep).
  destruct (getOrCreate fileName (sourcesFileCache w1)) as [e c]. cbn [fst snd] in *.
  destruct (sourceFile e) as [sf|] eqn:He; cbn; [done|].
  destruct (host_getSourceFile _ _ _) as [h r]. cbn.
  eapply keepsPopulated_trans; [done|]. apply keepsPopulated_alter.
  intros e' He'. rewrite Hat in He'. injection He' as <-. split_and!; [done|done|].
  intros sf. by rewrite He.
Qed.

(** *** Edges *)

Lemma Set_add_elem {A} `{EqDecision A} (x : A) (l : list A) : x ∈ Js.Set_add x l.
Proof.
  unfold Js.Set_add. case_decide; [done|]. apply elem_of_app. right.
  apply list_elem_of_here.
Qed.

Lemma Set_add_mono {A} `{EqDecision A} (x y : A) (l : list A) :
  y ∈ l → y ∈ Js.Set_add x l.
Proof.
  intros Hy. unfold Js.Set_add. case_decide; [done|]. apply elem_of_app. by left.
Qed.

Lemma addEdge_lookup a b w x :
  heap (addEdge a b w) !! x = addEdgeNode a b x <$> heap w !! x.
Proof.
  unfold addEdge, alterNode, addEdgeNode. cbn [heap setHeap].
  destruct (decide (x = a)) as [Ha|Ha], (decide (x = b)) as [Hb|Hb]; subst.
  - rewrite !list_lookup_alter_eq. by destruct (heap w !! b) as [[]|].
  - rewrite list_lookup_alter_eq, list_lookup_alter_ne by congruence.
    by destruct (heap w !! a) as [[]|].
  - rewrite list_lookup_alter_ne, list_lookup_alter_eq by congruence.
    by destruct (heap w !! b) as [[]|].
  - rewrite !list_lookup_alter_ne by congruence. by destruct (heap w !! x) as [[]|].
Qed.

Lemma addEdge_length a b w : length (heap (addEdge a b w)) = length (heap w).
Proof. unfold addEdge, alterNode. cbn [heap setHeap]. by rewrite !length_alter. Qed.

Lemma edgesGrow_refl w : edgesGrow w w.
Proof. by split_and!. Qed.

Lemma edgesGrow_trans w1 w2 w3 : edgesGrow w1 w2 → edgesGrow w2 w3 → edgesGrow w1 w3.
Proof.
  intros (Hs & Hg & Hl & Hu & Hd & He) (Hs' & Hg' & Hl' & Hu' & Hd' & He').
  split_and!; [by eapply graphStep_trans|congruence|congruence| |eauto|eauto].
  intros x. by rewrite Hu', Hu.
Qed.

Lemma addEdge_grows a b w : edgesGrow w (addEdge a b w).
Proof.
  split_and!; [done|done|apply addEdge_length| | |].
  - intros x. rewrite addEdge_lookup. by destruct (heap w !! x).
  - intros x y. unfold dependentsOf. rewrite addEdge_lookup.
    destruct (heap w !! x) as [node|]; [|done]. cbn.
    case_decide; [apply Set_add_mono|done].
  - intros x y. unfold dependeesOf. rewrite addEdge_lookup.
    destruct (heap w !! x) as [node|]; [|done]. cbn.
    case_decide; [apply Set_add_mono|done].
Qed.

Lemma addEdge_edge a b w :
  a < length (heap w) → b < length (heap w) → dependsOnEdge (addEdge a b w) a b.
Proof.
  intros [na Ha]%lookup_lt_is_Some [nb Hb]%lookup_lt_is_Some.
  unfold dependsOnEdge, dependentsOf, dependeesOf. rewrite !addEdge_lookup, Ha, Hb.
  cbn. rewrite !decide_True by done. split; apply Set_add_elem.
Qed.

Lemma addEdge_dependees_other a b w x :
  x ≠ b → dependeesOf (addEdge a b w) x = dependeesOf w x.
Proof.
  intros Hx. unfold dependeesOf. rewrite addEdge_lookup.
  destruct (heap w !! x) as [node|]; [|done]. cbn. by rewrite decide_False.
Qed.

Lemma edgesGrow_edge w w' a b : edgesGrow w w' → dependsOnEdge w a b → dependsOnEdge w' a b.
Proof. intros (_ & _ & _ & _ & Hd & He) [Hab Hba]. split; eauto. Qed.

Lemma linkAll_grows node deps w : edgesGrow w (linkAll node deps w).
Proof.
  revert w. induction deps as [|d deps IH]; intros w; [apply edgesGrow_refl|].
  unfold linkAll. cbn [fold_left].
  eapply edgesGrow_trans; [apply addEdge_grows|apply IH].
Qed.

Lemma linkAll_edges node deps w d :
  node < length (heap w) → Forall (λ d, d < length (heap w)) deps →
  d ∈ deps → dependsOnEdge (linkAll node deps w) node d.
Proof.
  revert w. induction deps as [|d' deps IH]; intros w Hnode Hdeps Hd;
    [by apply elem_of_nil in Hd|].
  apply Forall_cons in Hdeps as [Hd' Hdeps].
  unfold linkAll. cbn [fold_left]. fold (linkAll node deps (addEdge node d' w)).
  destruct (decide (d = d')) as [->|Hne].
  - eapply edgesGrow_edge; [apply linkAll_grows|]. by apply addEdge_edge.
  - apply IH.
    + by rewrite addEdge_length.
    + by rewrite addEdge_length.
    + by apply elem_of_cons in Hd as [?|?].
Qed.

Lemma linkAll_dependees_other node deps w x :
  x ∉ deps → dependeesOf (linkAll node deps w) x = dependeesOf w x.
Proof.
  revert w. induction deps as [|d deps IH]; intros w Hx; [done|].
  apply not_elem_of_cons in Hx as [Hne Hx].
  unfold linkAll. cbn [fold_left]. fold (linkAll node deps (addEdge node d w)).
  by rewrite IH, addEdge_dependees_other.
Qed.

Lemma propagateStep_grows depNodes w n : edgesGrow w (propagateStep depNodes w n).
Proof.
  unfold propagateStep. destruct (heap w !! n) as [dependee|]; [|apply edgesGrow_refl].
  destruct (Js.endsWith _ _); [apply linkAll_grows|apply edgesGrow_refl].
Qed.

Lemma propagate_grows depNodes ds w :
  edgesGrow w (fold_left (propagateStep depNodes) ds w).
Proof.
  revert w. induction ds as [|n ds IH]; intros w; [apply edgesGrow_refl|].
  cbn [fold_left]. eapply edgesGrow_trans; [apply propagateStep_grows|apply IH].
Qed.

Lemma propagate_edges depNodes ds w n dependee d :
  Forall (λ d, d < length (heap w)) depNodes →
  n ∈ ds → heap w !! n = Some dependee → Js.endsWith (url dependee) ".ts" = true →
  d ∈ depNodes →
  dependsOnEdge (fold_left (propagateStep depNodes) ds w) n d.
Proof.
  revert w dependee. induction ds as [|n' ds IH]; intros w dependee Hvalid Hn Hnode Hts Hd;
    [by apply elem_of_nil in Hn|].
  cbn [fold_left].
  destruct (decide (n = n')) as [<-|Hne].
  - eapply edgesGrow_edge; [apply propagate_grows|].
    unfold propagateStep. rewrite Hnode, Hts.
    apply linkAll_edges; [by apply lookup_lt_Some in Hnode|done|done].
  - destruct (propagateStep_grows depNodes w n') as (_ & _ & Hlen & Hurl & _).
    pose proof (Hurl n) as Hurl'. rewrite Hnode in Hurl'.
    destruct (heap (propagateStep depNodes w n') !! n) as [dependee'|] eqn:Hnode';
      [|done].
    injection Hurl' as Hurl'.
    apply (IH _ dependee'); [by rewrite Hlen| |done|by rewrite Hurl'|done].
    by apply elem_of_cons in Hn as [?|?].
Qed.

Lemma propagate_dependees_other depNodes ds w x :
  x ∉ depNodes →
  dependeesOf (fold_left (propagateStep depNodes) ds w) x = dependeesOf w x.
Proof.
  intros Hx. revert w. induction ds as [|n ds IH]; intros w; [done|].
  cbn [fold_left]. rewrite IH. unfold propagateStep.
  destruct (heap w !! n) as [dependee|]; [|done].
  destruct (Js.endsWith _ _); [by apply linkAll_dependees_other|done].
Qed.

Lemma propagateToSources_run node depNodes w :
  propagateToSources node depNodes w
  = (Returned (), fold_left (propagateStep depNodes) (dependeesOf w node) w).
Proof. reflexivity. Qed.

(** *** Nodes for file names *)

Lemma graphGrows_refl w : graphGrows w w.
Proof. by split_and!. Qed.

Lemma graphGrows_trans w1 w2 w3 : graphGrows w1 w2 → graphGrows w2 w3 → graphGrows w1 w3.
Proof.
  intros (Hs & Hp & Hg) (Hs' & Hp' & Hg').
  split_and!; [by eapply graphStep_trans|by etrans|eauto].
Qed.

Lemma graphValid_lookup w u n :
  graphValid w → Js.Map_get u (graph w) = Some n → n < length (heap w).
Proof.
  intros Hvalid Hget%Map_get_Some. unfold graphValid in Hvalid.
  rewrite Forall_forall in Hvalid. by apply (Hvalid (u, n)).
Qed.

Lemma getNode_grows fileName w :
  ∃ n w',
    getNode fileName w = (Returned n, w') ∧
    Js.Map_get (fileUrl (ensureUnixPath fileName)) (graph w') = Some n ∧
    graphGrows w w' ∧
    (graphValid w → graphValid w' ∧ n < length (heap w')).
Proof.
  unfold getNode, bind, graph_get, gets.
  destruct (Js.Map_get _ (graph w)) as [n|] eqn:Hget.
  - exists n, w. split_and!; [done|done|apply graphGrows_refl|].
    intros Hvalid. split; [done|]. by eapply graphValid_lookup.
  - unfold newNode, graph_put, ret. cbn [heap setHeap graph].
    rewrite lookup_app_r by done. rewrite Nat.sub_diag. cbn [lookup list_lookup url].
    rewrite Hget. eexists _, _. split; [done|]. cbn [graph setGraph heap].
    split_and!.
    + rewrite Map_get_set. by rewrite decide_True.
    + split_and!; [done|by apply prefix_app_r|].
      intros u n Hu. cbn [graph setGraph]. rewrite Map_get_set.
      case_decide; [congruence|done].
    + intros Hvalid. unfold graphValid. cbn [graph setGraph heap setHeap].
      rewrite length_app. cbn [length]. split; [|lia].
      rewrite Forall_forall.
      intros entry [->|Hin]%Map_set_elem_inv; cbn [snd]; [lia|].
      unfold graphValid in Hvalid. rewrite Forall_forall in Hvalid.
      specialize (Hvalid entry Hin). lia.
Qed.

Lemma getNodes_grows fileNames w :
  ∃ ns w',
    getNodes fileNames w = (Returned ns, w') ∧
    Forall2 (λ fileName n,
               Js.Map_get (fileUrl (ensureUnixPath fileName)) (graph w') = Some n)
      fileNames ns ∧
    graphGrows w w' ∧
    (graphValid w → graphValid w' ∧ Forall (λ n, n < length (heap w')) ns).
Proof.
  revert w. induction fileNames as [|fileName rest IH]; intros w.
  - exists [], w. split_and!; [done|constructor|apply graphGrows_refl|done].
  - destruct (getNode_grows fileName w) as (n & w1 & Hn & Hget & Hgrow & Hvalid).
    destruct (IH w1) as (ns & w2 & Hns & Hgets & Hgrow' & Hvalid').
    exists (n :: ns), w2. cbn [getNodes].
    rewrite (bind_returned _ _ _ _ _ Hn), (bind_returned _ _ _ _ _ Hns).
    split_and!; [done| |by eapply graphGrows_trans|].
    + constructor; [|done]. by apply Hgrow'.
    + intros Hw. destruct (Hvalid Hw) as [Hw1 Hlt].
      destruct (Hvalid' Hw1) as [Hw2 Hall]. split; [done|].
      constructor; [|done]. destruct Hgrow' as (_ & Hp & _).
      apply prefix_length in Hp. lia.
Qed.

Lemma addEdge_valid a b w : graphValid w → graphValid (addEdge a b w).
Proof. unfold graphValid. by rewrite addEdge_length. Qed.

Lemma addDependee_valid entryPoint fileName w :
  ∃ w', addDependee entryPoint fileName w = (Returned (), w') ∧ graphStep w w' ∧
        (graphValid w → graphValid w').
Proof.
  destruct (getNode_grows fileName w) as (n & w1 & Hn & _ & (Hstep & _) & Hvalid).
  unfold addDependee. rewrite (bind_returned _ _ _ _ _ Hn).
  unfold dependsOn, modify. cbn [fold_left]. eexists. split_and!; [done| |].
  - eapply graphStep_trans; [done|apply addEdge_graphStep].
  - intros Hw. apply addEdge_valid. by apply Hvalid.
Qed.

Lemma getOrCreate_content fileName (c : gmap string CacheEntry) :
  content (getOrCreate fileName c).1 = c !! fileName ≫= content.
Proof. unfold getOrCreate. by destruct (c !! fileName). Qed.

Lemma elem_of_filter_ne (node : node_id) (nodes : list node_id) d :
  d ∈ List.filter (λ n, negb (bool_decide (n = node))) nodes ↔ d ∈ nodes ∧ d ≠ node.
Proof.
  rewrite !list_elem_of_In, filter_In, negb_true_iff, bool_decide_eq_false. done.
Qed.

(** C9. [readResource] on a stylesheet (an extension that is not html, htm
    or svg) whose content is not cached, that exists and that the processor
    bundles: when the call is over, whether it returned the bundled contents
    or threw because the bundle had errors, the stylesheet's node depends on
    the node of every referenced file the bundler reported, the stylesheet
    itself excepted, and every dependee of the stylesheet's node whose URL
    ends in ".ts" depends on each of those nodes too. *)
Theorem readResource_links_stylesheet_imports entryPoint fileName sp sp' bundled
    host' w :
  graphValid w →
  cached content w fileName = None →
  host_fileExists (compilerHost w) fileName = (host', true) →
  isTemplateExtension (extname fileName) = false →
  bundler w = Some sp →
  sp_bundleFile sp fileName = (sp', bundled) →
  let r := readResource entryPoint fileName w in
  r.1 = (if bool_decide (errors bundled = [])
         then Returned (Some (contents bundled))
         else Threw ("An error has occuried while processing " +:+ fileName +:+ ".")) ∧
  ∃ node,
    Js.Map_get (fileUrl (ensureUnixPath fileName)) (graph r.2) = Some node ∧
    ∀ referenced,
      referenced ∈ referencedFiles bundled →
      ∃ dep,
        Js.Map_get (fileUrl (ensureUnixPath referenced)) (graph r.2) = Some dep ∧
        (dep ≠ node →
         dependsOnEdge r.2 node dep ∧
         ∀ n dependee,
           n ∈ dependeesOf r.2 node → heap r.2 !! n = Some dependee →
           Js.endsWith (url dependee) ".ts" = true →
           dependsOnEdge r.2 n dep).
Proof.
  intros Hvalid Hcontent Hexists Hext Hsp Hbundle. cbn zeta.
  destruct (addDependee_valid entryPoint fileName w)
    as (w1 & Hdep & (Hc1 & Hh1 & Hb1 & Ht1) & Hvalid1).
  specialize (Hvalid1 Hvalid).
  unfold readResource. rewrite (bind_returned _ _ _ _ _ Hdep).
  (* the cache entry *)
  pose proof (getOrCreate_content fileName (sourcesFileCache w1)) as Hentry.
  rewrite Hc1 in Hentry. unfold cached in Hcontent. rewrite Hcontent in Hentry.
  assert (cacheOf fileName w1
          = (Returned (getOrCreate fileName (sourcesFileCache w1)).1,
             setSources (getOrCreate fileName (sourcesFileCache w1)).2 w1)) as Hcache.
  { unfold cacheOf. by destruct (getOrCreate fileName (sourcesFileCache w1)). }
  rewrite Hc1 in Hcache at 1. rewrite (bind_returned _ _ _ _ _ Hcache). rewrite Hentry.
  (* the file exists and is bundled *)
  set (w2 := setSources _ w1).
  assert (callFileExists fileName w2
          = (Returned true, log (EvHostFileExists fileName) (setHost host' w2))) as Hfound.
  { unfold callFileExists. subst w2. cbn [compilerHost setSources].
    by rewrite Hh1, Hexists. }
  rewrite (bind_returned _ _ _ _ _ Hfound). cbn [negb]. rewrite Hext.
  set (w3 := log _ (setHost host' w2)).
  assert (callBundleFile fileName w3
          = (Returned bundled, log (EvBundleFile fileName) (setBundler (Some sp') w3)))
    as Hbundled.
  { unfold callBundleFile. subst w3 w2. cbn [bundler log setHost setSources].
    by rewrite Hb1, Hsp, Hbundle. }
  rewrite (bind_returned _ _ _ _ _ Hbundled).
  set (w4 := log _ (setBundler (Some sp') w3)).
  assert (graphValid w4) as Hvalid4 by done.
  (* the nodes *)
  destruct (getNode_grows fileName w4) as (node & w5 & Hnode & Hget5 & Hgrow5 & Hvalid5).
  destruct (Hvalid5 Hvalid4) as [Hvalid5' Hnode5].
  rewrite (bind_returned _ _ _ _ _ Hnode).
  destruct (getNodes_grows (referencedFiles bundled) w5)
    as (nodes & w6 & Hnodes & Hgets & Hgrow6 & Hvalid6).
  destruct (Hvalid6 Hvalid5') as [Hvalid6' Hnodes6].
  rewrite (bind_returned _ _ _ _ _ Hnodes).
  set (depNodes := List.filter _ nodes).
  assert (node < length (heap w6)) as Hnode6.
  { destruct Hgrow6 as (_ & Hp & _). apply prefix_length in Hp. lia. }
  assert (Forall (λ d, d < length (heap w6)) depNodes) as Hdeps6.
  { rewrite Forall_forall. intros d [Hd _]%elem_of_filter_ne.
    rewrite Forall_forall in Hnodes6. by apply Hnodes6. }
  assert (node ∉ depNodes) as Hself.
  { by intros [_ ?]%elem_of_filter_ne. }
  (* the edges *)
  assert (dependsOn node depNodes w6 = (Returned (), linkAll node depNodes w6)) as Hlink
    by done.
  rewrite (bind_returned _ _ _ _ _ Hlink).
  rewrite (bind_returned _ _ _ _ _ (propagateToSources_run node depNodes _)).
  set (w7 := linkAll node depNodes w6).
  set (w8 := fold_left _ _ w7).
  pose proof (linkAll_grows node depNodes w6) as Hgrow7. fold w7 in Hgrow7.
  pose proof (propagate_grows depNodes (dependeesOf w7 node) w7) as Hgrow8.
  fold w8 in Hgrow8.
  assert (graph w8 = graph w6) as Hgraph8.
  { transitivity (graph w7); [apply Hgrow8|apply Hgrow7]. }
  assert (length (heap w7) = length (heap w6)) as Hlen7 by apply Hgrow7.
  assert (∀ outcome : Outcome (option string) * World,
            outcome.2 = w8 →
            ∃ node',
              Js.Map_get (fileUrl (ensureUnixPath fileName)) (graph outcome.2) = Some node' ∧
              ∀ referenced,
                referenced ∈ referencedFiles bundled →
                ∃ dep,
                  Js.Map_get (fileUrl (ensureUnixPath referenced)) (graph outcome.2)
                  = Some dep ∧
                  (dep ≠ node' →
                   dependsOnEdge outcome.2 node' dep ∧
                   ∀ n dependee,
                     n ∈ dependeesOf outcome.2 node' →
                     heap outcome.2 !! n = Some dependee →
                     Js.endsWith (url dependee) ".ts" = true →
                     dependsOnEdge outcome.2 n dep)) as Hedges.
  { intros outcome ->. exists node. rewrite Hgraph8. split.
    { destruct Hgrow6 as (_ & _ & Hmono). by apply Hmono. }
    intros referenced [i Hi]%list_elem_of_lookup.
    destruct (Forall2_lookup_l _ _ _ _ _ Hgets Hi) as (dep & Hdep' & Hgetdep).
    exists dep. split; [done|]. intros Hne.
    assert (dep ∈ depNodes) as Hin.
    { apply elem_of_filter_ne. split; [|done]. by apply list_elem_of_lookup_2 in Hdep'. }
    split.
    - eapply edgesGrow_edge; [done|]. by apply linkAll_edges.
    - intros n dependee Hn Hdependee Hts.
      unfold w8 in Hn. rewrite propagate_dependees_other in Hn by done.
      destruct Hgrow8 as (_ & _ & _ & Hurl & _).
      pose proof (Hurl n) as Hurl'. rewrite Hdependee in Hurl'.
      destruct (heap w7 !! n) as [dependee7|] eqn:Hn7; [|done].
      injection Hurl' as Hurl'.
      apply (propagate_edges depNodes _ w7 n dependee7 dep);
        [by rewrite Hlen7|done|done|by rewrite <-Hurl'|done]. }
  destruct (bool_decide (errors bundled = [])); (split; [done|]); by apply Hedges.
Qed.

End HostFacts.

(** * Further facts *)

(** ** More on invalidateEntryPointsAndCacheOnFileChange *)

Section MoreInvalidateFacts.
Context `{Collaborators}.
Implicit Types (w : World) (s : Sweep) (files : list string).

(** A preorder that every write of the loop over the entry points respects
    relates the world before the loop, or any part of it, to the world
    after. *)
Section EntryPointLoop.
Variable R : World → World → Prop.
Variable all : Js.Map node_id.
Variable resources : list string.
Hypothesis R_refl : ∀ w, R w w.
Hypothesis R_trans : ∀ w1 w2 w3, R w1 w2 → R w2 w3 → R w1 w3.
Hypothesis R_styles :
  ∀ ep w sp', resources ≠ [] →
    R w (log (EvStylesInvalidate ep resources)
           (alterNode
              (alterTarget (λ t, mkTarget (state t) (outputCache t)
                                   (analysesSourcesFileCache t) (Some sp')))
              ep w)).
Hypothesis R_delete :
  ∀ ep w filePath dependent,
    (filePath, dependent) ∈ all → dependent ∈ dependentsOf w ep →
    R w (log (EvAnalysesDelete ep filePath)
           (alterNode
              (alterTarget (λ t, mkTarget (state t) (outputCache t)
                                   (FileCache_delete filePath (analysesSourcesFileCache t))
                                   (stylesheetProcessor t)))
              ep w)).
Hypothesis R_state :
  ∀ ep w,
    R w (log (EvSetState ep STATE_PENDING)
           (alterNode
              (alterTarget (λ t, mkTarget STATE_PENDING (outputCache t)
                                   (analysesSourcesFileCache t) (stylesheetProcessor t)))
              ep w)).

Lemma invalidateStyles_rel ep w : R w (invalidateStyles resources ep w).2.
Proof.
  unfold invalidateStyles. destruct resources as [|r rs] eqn:Hres; [done|].
  destruct (_ ≫= stylesheetProcessor) as [sp|]; [|done].
  destruct (sp_invalidate sp _) as [sp' affected]. cbn [snd]. by apply R_styles.
Qed.

Lemma cleanAnalysed_fold_rel ep l acc :
  (∀ e, e ∈ l → e ∈ all) → R acc.2 (fold_left (cleanAnalysed ep) l acc).2.
Proof.
  revert acc. induction l as [|[filePath dependent] l IH]; intros acc Hsub; [done|].
  cbn [fold_left]. eapply R_trans; [|apply IH].
  - unfold cleanAnalysed. case_decide as Hin; [|done]. cbn [snd].
    apply (R_delete ep acc.2 filePath dependent); [|done].
    apply Hsub, list_elem_of_here.
  - intros e He. by apply Hsub, list_elem_of_further.
Qed.

Lemma checkEntryPoint_rel ep w : R w (checkEntryPoint all resources ep w).2.
Proof.
  unfold checkEntryPoint.
  pose proof (cleanAnalysed_fold_rel ep all (invalidateStyles resources ep w)
    (λ e He, He)) as Hf.
  pose proof (invalidateStyles_rel ep w) as Hi.
  destruct (fold_left _ _ _) as [isDirty w']. cbn [snd] in Hf.
  destruct isDirty; cbn [snd].
  - eapply R_trans; [done|]. eapply R_trans; [done|]. apply R_state.
  - by eapply R_trans.
Qed.

Lemma markEntryPoints_rel eps acc : R acc.2 (markEntryPoints all resources eps acc).2.
Proof.
  revert acc. induction eps as [|ep eps IH]; intros acc; [done|].
  rewrite markEntryPoints_cons.
  apply (R_trans _ (checkEntryPoint all resources ep acc.2).2);
    [apply checkEntryPoint_rel|].
  apply (IH (acc.1 || (checkEntryPoint all resources ep acc.2).1,
             (checkEntryPoint all resources ep acc.2).2)).
Qed.

End EntryPointLoop.

Lemma sameGraph_refl w : sameGraph w w.
Proof. by split_and!. Qed.

Lemma sameGraph_trans w1 w2 w3 : sameGraph w1 w2 → sameGraph w2 w3 → sameGraph w1 w3.
Proof.
  intros (Hg & Hc & Hb & Hl & Hn) (Hg' & Hc' & Hb' & Hl' & Hn').
  split_and!; [congruence..|]. intros n.
  destruct (Hn n) as (Hu & Hd & He & Ho), (Hn' n) as (Hu' & Hd' & He' & Ho').
  split_and!; congruence.
Qed.

Lemma dependeesOf_alterTarget f ep w n :
  dependeesOf (alterNode (alterTarget f) ep w) n = dependeesOf w n.
Proof.
  unfold dependeesOf, alterNode. cbn [heap setHeap].
  destruct (decide (n = ep)) as [->|Hne].
  - rewrite list_lookup_alter_eq. by destruct (heap w !! ep).
  - by rewrite list_lookup_alter_ne.
Qed.

Lemma url_alterTarget f ep w n :
  url <$> heap (alterNode (alterTarget f) ep w) !! n = url <$> heap w !! n.
Proof.
  unfold alterNode. cbn [heap setHeap].
  destruct (decide (n = ep)) as [->|Hne].
  - rewrite list_lookup_alter_eq. by destruct (heap w !! ep).
  - by rewrite list_lookup_alter_ne.
Qed.

Lemma sameGraph_alterTarget f e ep w :
  (∀ t, outputCache (f t) = outputCache t) →
  sameGraph w (log e (alterNode (alterTarget f) ep w)).
Proof.
  intros Hf. split_and!; [done..| |].
  - unfold alterNode. cbn [heap log setHeap]. apply length_alter.
  - intros n. split_and!.
    + apply (url_alterTarget f ep w n).
    + apply (dependentsOf_alterTarget f ep w n).
    + apply (dependeesOf_alterTarget f ep w n).
    + rewrite targetOf_log, targetOf_alterTarget. case_decide; [|done].
      destruct (targetOf w n) as [t|]; [|done]. cbn. by rewrite Hf.
Qed.

(** X1. A call changes neither the graph nor any node's URL or edges, nor
    any output cache, nor the compiler host or the bundler: only the sources
    file cache and the states, per-entry-point caches and processors of the
    entry points can differ afterwards. *)
Theorem invalidate_keeps_graph_and_outputs w files :
  ∃ r w',
    invalidateEntryPointsAndCacheOnFileChange w files = Some (r, w') ∧
    sameGraph w w' ∧
    ∀ n fileName, outputOf w' n fileName = outputOf w n fileName.
Proof.
  destruct (collectNodesToClean_total w files) as (s & Hs & _).
  destruct (collectNodesToClean_frame w files s Hs) as (Hh & Hg & Hc & Hb).
  unfold invalidateEntryPointsAndCacheOnFileChange. rewrite Hs.
  assert (sameGraph (sweepWorld s)
            (markEntryPoints (allNodesToClean s) (potentialStylesResources s)
               (graph_filter (sweepWorld s) isEntryPoint) (false, sweepWorld s)).2)
    as Hrel.
  { apply (markEntryPoints_rel sameGraph); [apply sameGraph_refl|apply sameGraph_trans|..];
      intros; by apply sameGraph_alterTarget. }
  destruct (markEntryPoints _ _ _ _) as [r w']. cbn [snd] in Hrel.
  assert (sameGraph w w') as Hsame.
  { eapply sameGraph_trans; [|done]. split_and!; [done..|by rewrite Hh|].
    intros n. unfold dependentsOf, dependeesOf, targetOf. by rewrite Hh. }
  exists r, w'. split_and!; [done..|].
  intros n fileName. destruct Hsame as (_ & _ & _ & _ & Hn).
  destruct (Hn n) as (_ & _ & _ & Ho). unfold outputOf.
  destruct (targetOf w' n) as [t'|], (targetOf w n) as [t|]; cbn in *; congruence.
Qed.

Lemma noStylesCall_refl w : noStylesCall w w.
Proof. exists []. by rewrite app_nil_r. Qed.

Lemma noStylesCall_trans w1 w2 w3 :
  noStylesCall w1 w2 → noStylesCall w2 w3 → noStylesCall w1 w3.
Proof.
  intros (evs & Ht & Hevs) (evs' & Ht' & Hevs'). exists (evs ++ evs'). split.
  - by rewrite Ht', Ht, app_assoc.
  - by apply Forall_app.
Qed.

Lemma noStylesCall_log f e ep w :
  (∀ ep' files, e ≠ EvStylesInvalidate ep' files) →
  noStylesCall w (log e (alterNode (alterTarget f) ep w)).
Proof. intros He. exists [e]. split; [done|]. by apply Forall_singleton. Qed.

(** X2. Changed .ts files are not fanned out. For a batch of paths that all
    end in ".ts" the to-clean map is just the nodes found for those paths,
    no dependee is pulled in, the set of potential style resources stays
    empty and no stylesheet processor is asked anything. *)
Theorem invalidate_ts_batch_no_fan_out w files :
  Forall (λ filePath, Js.endsWith filePath ".ts" = true) files →
  ∃ s r w',
    collectNodesToClean w files = Some s ∧
    allNodesToClean s = findChangedNodes w files ∧
    potentialStylesResources s = [] ∧
    invalidateEntryPointsAndCacheOnFileChange w files = Some (r, w') ∧
    noStylesCall w w'.
Proof.
  intros Hts. rewrite Forall_forall in Hts.
  destruct (collectNodesToClean_total w files) as (s & Hs & _).
  destruct (collectNodesToClean_effects w files s Hs) as [Htrace _]. cbn zeta in Htrace.
  pose proof Hs as Hsweep.
  apply (sweep_ind (λ _ s0,
    allNodesToClean s0 = findChangedNodes w files ∧ potentialStylesResources s0 = []))
    in Hsweep as (_ & [Hall Hres] & _); [| |done].
  2:{ intros i filePath n s0 [Hall Hres] Hi. unfold sweepStep.
      assert (filePath ∈ files) as Hin.
      { destruct (findChangedNodes_keys w files files (λ k Hk, Hk)) as [_ Hsub].
        apply Hsub. rewrite <-Hall.
        apply (list_elem_of_fmap_2 fst _ (filePath, n)).
        by apply list_elem_of_lookup_2 in Hi. }
      by rewrite (Hts filePath Hin). }
  unfold invalidateEntryPointsAndCacheOnFileChange. rewrite Hs.
  assert (noStylesCall (sweepWorld s)
            (markEntryPoints (allNodesToClean s) (potentialStylesResources s)
               (graph_filter (sweepWorld s) isEntryPoint) (false, sweepWorld s)).2)
    as Hloop.
  { apply (markEntryPoints_rel noStylesCall);
      [apply noStylesCall_refl|apply noStylesCall_trans|..].
    - intros ep w0 sp' Hne. by rewrite Hres in Hne.
    - intros. by apply noStylesCall_log.
    - intros. by apply noStylesCall_log. }
  destruct (markEntryPoints _ _ _ _) as [r w']. cbn [snd] in Hloop.
  exists s, r, w'. split_and!; [done..|].
  eapply noStylesCall_trans; [|done].
  exists (EvSourcesDelete <$> (allNodesToClean s).*1). split; [done|].
  rewrite Forall_forall. intros e (k & -> & _)%list_elem_of_fmap. done.
Qed.

Lemma analysedAt_alterTarget f e ep w n k :
  analysedAt (log e (alterNode (alterTarget f) ep w)) n k =
  if decide (n = ep)
  then targetOf w n ≫= (λ t, analysesSourcesFileCache (f t) !! k)
  else analysedAt w n k.
Proof.
  unfold analysedAt. rewrite targetOf_log, targetOf_alterTarget.
  case_decide; [|done]. by destruct (targetOf w n).
Qed.

Lemma analysedShrinks_refl all w : analysedShrinks all w w.
Proof. by split_and!. Qed.

Lemma analysedShrinks_trans all w1 w2 w3 :
  analysedShrinks all w1 w2 → analysedShrinks all w2 w3 → analysedShrinks all w1 w3.
Proof.
  intros (Hd & Hn & Hk) (Hd' & Hn' & Hk'). split_and!.
  - intros n. by rewrite Hd', Hd.
  - intros n k Hnone. by apply Hn', Hn.
  - intros n k Hout. rewrite Hk', Hk; [done|done|].
    intros m Hm. rewrite Hd. by apply Hout.
Qed.

Lemma analysedShrinks_keep all f e ep w :
  (∀ t, analysesSourcesFileCache (f t) = analysesSourcesFileCache t) →
  analysedShrinks all w (log e (alterNode (alterTarget f) ep w)).
Proof.
  intros Hf.
  assert (∀ n k, analysedAt (log e (alterNode (alterTarget f) ep w)) n k
                 = analysedAt w n k) as Hsame.
  { intros n k. rewrite analysedAt_alterTarget. case_decide; [|done].
    unfold analysedAt. destruct (targetOf w n) as [t|]; [|done]. cbn. by rewrite Hf. }
  split_and!.
  - intros n. apply (dependentsOf_alterTarget f ep w n).
  - intros n k. by rewrite Hsame.
  - intros n k _. apply Hsame.
Qed.

Lemma analysedShrinks_delete all ep w filePath dependent :
  (filePath, dependent) ∈ all → dependent ∈ dependentsOf w ep →
  analysedShrinks all w
    (log (EvAnalysesDelete ep filePath)
       (alterNode
          (alterTarget (λ t, mkTarget (state t) (outputCache t)
                               (FileCache_delete filePath (analysesSourcesFileCache t))
                               (stylesheetProcessor t)))
          ep w)).
Proof.
  intros Hin Hdep. split_and!.
  - intros n. apply (dependentsOf_alterTarget _ ep w n).
  - intros n k. rewrite analysedAt_alterTarget. case_decide as Hn; [|done].
    unfold analysedAt. destruct (targetOf w n) as [t|]; [|done]. cbn.
    unfold FileCache_delete. intros Hnone.
    destruct (decide (k = filePath)) as [->|Hne];
      [apply lookup_delete_eq|by rewrite lookup_delete_ne].
  - intros n k Hout. rewrite analysedAt_alterTarget. case_decide as Hn; [|done].
    subst n. unfold analysedAt. destruct (targetOf w ep) as [t|]; [|done]. cbn.
    unfold FileCache_delete. rewrite lookup_delete_ne; [done|].
    intros <-. by apply (Hout dependent).
Qed.

Lemma cleanAnalysed_fold_deletes ep (all : list (string * nat)) l acc k m :
  (∀ e, e ∈ l → e ∈ all) →
  (k, m) ∈ l → m ∈ dependentsOf acc.2 ep →
  analysedAt (fold_left (cleanAnalysed ep) l acc).2 ep k = None.
Proof.
  revert acc. induction l as [|[filePath dependent] l IH]; intros acc Hsub Hin Hdep;
    [by apply elem_of_nil in Hin|].
  cbn [fold_left].
  assert (∀ e, e ∈ l → e ∈ all) as Hsub'.
  { intros e He. by apply Hsub, list_elem_of_further. }
  apply elem_of_cons in Hin as [[= <- <-]|Hin].
  - assert (analysedShrinks all (cleanAnalysed ep acc (k, m)).2
              (fold_left (cleanAnalysed ep) l (cleanAnalysed ep acc (k, m))).2)
      as (_ & Hnone & _).
    { apply (cleanAnalysed_fold_rel (analysedShrinks all) all);
        [apply analysedShrinks_refl|apply analysedShrinks_trans| |done].
      intros. by eapply analysedShrinks_delete. }
    apply Hnone. unfold cleanAnalysed. rewrite decide_True by done. cbn [snd].
    rewrite analysedAt_alterTarget, decide_True by done.
    destruct (targetOf acc.2 ep) as [t|]; [|done]. cbn. apply lookup_delete_eq.
  - apply IH; [done|done|]. by rewrite cleanAnalysed_dependentsOf.
Qed.

Lemma checkEntryPoint_deletes (all : list (string * nat)) resources ep w k m :
  (k, m) ∈ all → m ∈ dependentsOf w ep →
  analysedAt (checkEntryPoint all resources ep w).2 ep k = None.
Proof.
  intros Hin Hdep. unfold checkEntryPoint.
  pose proof (cleanAnalysed_fold_deletes ep all all (invalidateStyles resources ep w)
    k m (λ e He, He) Hin) as Hdel.
  rewrite invalidateStyles_dependentsOf in Hdel. specialize (Hdel Hdep).
  destruct (fold_left _ _ _) as [isDirty w1]. cbn [snd] in Hdel.
  destruct isDirty; cbn [snd]; [|done].
  by apply (analysedShrinks_keep all).
Qed.

Lemma markEntryPoints_shrinks (all : list (string * nat)) resources eps acc :
  analysedShrinks all acc.2 (markEntryPoints all resources eps acc).2.
Proof.
  apply (markEntryPoints_rel (analysedShrinks all));
    [apply analysedShrinks_refl|apply analysedShrinks_trans|..].
  - intros. by apply analysedShrinks_keep.
  - intros. by eapply analysedShrinks_delete.
  - intros. by apply analysedShrinks_keep.
Qed.

Lemma markEntryPoints_deletes (all : list (string * nat)) resources eps acc ep k m :
  ep ∈ eps → (k, m) ∈ all → m ∈ dependentsOf acc.2 ep →
  analysedAt (markEntryPoints all resources eps acc).2 ep k = None.
Proof.
  revert acc. induction eps as [|ep' eps IH]; intros acc Hep Hin Hdep;
    [by apply elem_of_nil in Hep|].
  rewrite markEntryPoints_cons.
  destruct (decide (ep = ep')) as [<-|Hne].
  - destruct (markEntryPoints_shrinks all resources eps
      (acc.1 || (checkEntryPoint all resources ep acc.2).1,
       (checkEntryPoint all resources ep acc.2).2)) as (_ & Hnone & _).
    apply Hnone. cbn [snd]. by eapply checkEntryPoint_deletes.
  - apply IH; [|done|].
    + by apply elem_of_cons in Hep as [?|?].
    + cbn [snd]. destruct (checkEntryPoint_spec all resources ep' acc.2) as (_ & Hd & _).
      by rewrite Hd.
Qed.

(** X3. What a call does to the per-entry-point caches, exactly: an entry
    point of the graph loses the entry of every to-clean file whose node it
    depends on, and no node loses or gains any other entry. *)
Theorem invalidate_analysed_cache_effect w files :
  ∃ s r w',
    collectNodesToClean w files = Some s ∧
    invalidateEntryPointsAndCacheOnFileChange w files = Some (r, w') ∧
    (∀ ep k m,
       ep ∈ graph_filter w isEntryPoint →
       (k, m) ∈ allNodesToClean s → m ∈ dependentsOf w ep →
       analysedAt w' ep k = None) ∧
    (∀ n k,
       (∀ m, (k, m) ∈ allNodesToClean s → m ∉ dependentsOf w n) →
       analysedAt w' n k = analysedAt w n k).
Proof.
  destruct (collectNodesToClean_total w files) as (s & Hs & _).
  destruct (collectNodesToClean_frame w files s Hs) as (Hh & Hg & _).
  unfold invalidateEntryPointsAndCacheOnFileChange. rewrite Hs.
  assert (∀ n, dependentsOf (sweepWorld s) n = dependentsOf w n) as Hdeps.
  { intros n. unfold dependentsOf. by rewrite Hh. }
  assert (∀ n k, analysedAt (sweepWorld s) n k = analysedAt w n k) as Hat.
  { intros n k. unfold analysedAt, targetOf. by rewrite Hh. }
  assert (graph_filter (sweepWorld s) isEntryPoint = graph_filter w isEntryPoint) as ->.
  { unfold graph_filter, graph_entries. by rewrite Hh, Hg. }
  pose proof (markEntryPoints_shrinks (allNodesToClean s) (potentialStylesResources s)
    (graph_filter w isEntryPoint) (false, sweepWorld s)) as (_ & _ & Hkeep).
  pose proof (markEntryPoints_deletes (allNodesToClean s) (potentialStylesResources s)
    (graph_filter w isEntryPoint) (false, sweepWorld s)) as Hdel.
  destruct (markEntryPoints _ _ _ _) as [r w']. cbn [snd] in *.
  exists s, r, w'. split_and!; [done..| |].
  - intros ep k m Hep Hk Hm. apply (Hdel ep k m); [done|done|]. by rewrite Hdeps.
  - intros n k Hout. rewrite Hkeep, Hat; [done|]. intros m Hm. rewrite Hdeps.
    by apply Hout.
Qed.

Lemma direct_dependency_dirty w files changed n ep :
  (∀ x, fileUrlPath (fileUrl x) = Some x) →
  uniquePaths w →
  changed ∈ files →
  graph_find w (λ node, String.eqb (fileUrl changed) (url node)) = Some n →
  ep ∈ graph_filter w isEntryPoint →
  n ∈ dependentsOf w ep →
  ∃ w',
    invalidateEntryPointsAndCacheOnFileChange w files = Some (true, w') ∧
    stateOf w' ep = Some STATE_PENDING.
Proof.
  intros Hrt HU Hin Hfind Hep Hdep.
  destruct (collectNodesToClean_total w files) as (s & Hs & _).
  destruct (collectNodesToClean_frame w files s Hs) as (Hheap & Hgraph & _).
  destruct (collectNodesToClean_closed w files s Hrt HU Hs) as [Hstart _].
  assert ((changed, n) ∈ allNodesToClean s) as Hentry.
  { eapply prefix_elem_of; [done|]. apply Map_get_Some. unfold findChangedNodes.
    apply findChangedNodes_get; [done|by left]. }
  assert (ep ∈ graph_filter (sweepWorld s) isEntryPoint) as Hep'.
  { unfold graph_filter, graph_entries in *. by rewrite Hheap, Hgraph. }
  assert ((ep, true) ∈ dirtyFlags (allNodesToClean s) (potentialStylesResources s)
            (graph_filter (sweepWorld s) isEntryPoint) (sweepWorld s)) as Hflag.
  { apply dirtyFlags_dirty; [done|]. apply existsb_exists.
    exists (changed, n). split; [by apply list_elem_of_In|].
    apply bool_decide_eq_true_2. unfold dependentsOf in *. by rewrite Hheap. }
  unfold invalidateEntryPointsAndCacheOnFileChange. rewrite Hs.
  pose proof (markEntryPoints_spec (allNodesToClean s) (potentialStylesResources s)
    (graph_filter (sweepWorld s) isEntryPoint) false (sweepWorld s))
    as (Hret & Hpending & _).
  destruct (markEntryPoints _ _ _ _) as [r w']. cbn [fst snd] in *.
  assert (r = true) as ->.
  { apply Hret. right. by exists ep. }
  exists w'. split; [done|]. rewrite (Hpending ep Hflag).
  by destruct (graph_filter_isEntryPoint _ _ Hep') as [st ->].
Qed.

(** X4. A changed file that an entry point depends on directly makes that
    entry point dirty: if the graph finds a node for one of the changed
    paths and an entry point of the graph depends on that node, the call
    returns [true] and the entry point ends in [STATE_PENDING]. Node
    identifiers are unique, and [fileUrlPath] undoes [fileUrl]. *)
Theorem invalidate_direct_dependency_dirty w files changed n ep :
  (∀ x, fileUrlPath (fileUrl x) = Some x) →
  uniquePaths w →
  changed ∈ files →
  graph_find w (λ node, String.eqb (fileUrl changed) (url node)) = Some n →
  ep ∈ graph_filter w isEntryPoint →
  n ∈ dependentsOf w ep →
  ∃ w',
    invalidateEntryPointsAndCacheOnFileChange w files = Some (true, w') ∧
    stateOf w' ep = Some STATE_PENDING.
Proof. apply direct_dependency_dirty. Qed.

Lemma targetOf_other f e ep w n :
  n ≠ ep → targetOf (log e (alterNode (alterTarget f) ep w)) n = targetOf w n.
Proof. intros Hne. rewrite targetOf_log, targetOf_alterTarget. by rewrite decide_False. Qed.

Lemma cleanAnalysed_fold_other ep l acc n :
  n ≠ ep → targetOf (fold_left (cleanAnalysed ep) l acc).2 n = targetOf acc.2 n.
Proof.
  intros Hne. revert acc. induction l as [|[filePath dependent] l IH]; intros acc; [done|].
  cbn [fold_left]. rewrite IH. unfold cleanAnalysed. case_decide; [|done].
  cbn [snd]. by apply targetOf_other.
Qed.

Lemma cleanAnalysed_fold_idle ep (l : list (string * nat)) acc :
  (∀ k m, (k, m) ∈ l → m ∉ dependentsOf acc.2 ep) →
  fold_left (cleanAnalysed ep) l acc = acc.
Proof.
  revert acc. induction l as [|[filePath dependent] l IH]; intros acc Hout; [done|].
  cbn [fold_left].
  assert (cleanAnalysed ep acc (filePath, dependent) = acc) as ->.
  { unfold cleanAnalysed. rewrite decide_False; [done|].
    apply (Hout filePath), list_elem_of_here. }
  apply IH. intros k m Hin. by apply (Hout k), list_elem_of_further.
Qed.

Lemma checkEntryPoint_untouched (all : list (string * nat)) resources ep w n :
  (∀ k m, (k, m) ∈ all → m ∉ dependentsOf w n) →
  resources = [] ∨ targetOf w n ≫= stylesheetProcessor = None →
  targetOf (checkEntryPoint all resources ep w).2 n = targetOf w n.
Proof.
  intros Hout Hquiet. unfold checkEntryPoint.
  destruct (decide (n = ep)) as [->|Hne].
  - assert (invalidateStyles resources ep w = (false, w)) as ->.
    { unfold invalidateStyles. destruct Hquiet as [->|Hnone]; [done|].
      rewrite Hnone. by destruct resources. }
    by rewrite cleanAnalysed_fold_idle.
  - pose proof (cleanAnalysed_fold_other ep all (invalidateStyles resources ep w) n Hne)
      as Hfold.
    assert (targetOf (invalidateStyles resources ep w).2 n = targetOf w n) as Hinv.
    { unfold invalidateStyles. destruct resources; [done|].
      destruct (targetOf w ep ≫= stylesheetProcessor) as [sp|]; [|done].
      destruct (sp_invalidate sp _) as [sp' affected]. cbn [snd].
      by apply targetOf_other. }
    destruct (fold_left _ _ _) as [isDirty w1]. cbn [snd] in Hfold.
    destruct isDirty; cbn [snd].
    + rewrite targetOf_other by done. congruence.
    + congruence.
Qed.

(** X5. No unaffected work is redone: a node that depends on none of the
    nodes of the to-clean map, and that has no stylesheet processor or meets
    an empty set of potential style resources, is left exactly as it was,
    its state, its caches and its processor included. *)
Theorem invalidate_unaffected_entry_point_untouched w files :
  ∃ s r w',
    collectNodesToClean w files = Some s ∧
    invalidateEntryPointsAndCacheOnFileChange w files = Some (r, w') ∧
    ∀ n,
      (∀ k m, (k, m) ∈ allNodesToClean s → m ∉ dependentsOf w n) →
      potentialStylesResources s = [] ∨ targetOf w n ≫= stylesheetProcessor = None →
      targetOf w' n = targetOf w n.
Proof.
  destruct (collectNodesToClean_total w files) as (s & Hs & _).
  destruct (collectNodesToClean_frame w files s Hs) as (Hh & _).
  unfold invalidateEntryPointsAndCacheOnFileChange. rewrite Hs.
  assert (∀ n eps acc,
            (∀ k m, (k, m) ∈ allNodesToClean s → m ∉ dependentsOf acc.2 n) →
            potentialStylesResources s = []
            ∨ targetOf acc.2 n ≫= stylesheetProcessor = None →
            targetOf (markEntryPoints (allNodesToClean s) (potentialStylesResources s)
                        eps acc).2 n = targetOf acc.2 n) as Hloop.
  { intros n eps. induction eps as [|ep eps IH]; intros acc Hout Hquiet; [done|].
    rewrite markEntryPoints_cons.
    pose proof (checkEntryPoint_untouched (allNodesToClean s)
      (potentialStylesResources s) ep acc.2 n Hout Hquiet) as Hstep.
    destruct (checkEntryPoint_spec (allNodesToClean s) (potentialStylesResources s)
      ep acc.2) as (_ & Hd & _).
    rewrite IH; cbn [snd]; [done| |].
    - intros k m Hin. rewrite Hd. by apply (Hout k).
    - destruct Hquiet as [?|Hnone]; [by left|right]. by rewrite Hstep. }
  specialize (λ n, Hloop n (graph_filter (sweepWorld s) isEntryPoint) (false, sweepWorld s)).
  destruct (markEntryPoints _ _ _ _) as [r w']. cbn [snd] in Hloop.
  exists s, r, w'. split_and!; [done..|].
  intros n Hout Hquiet.
  assert (targetOf (sweepWorld s) n = targetOf w n) as Ht.
  { unfold targetOf. by rewrite Hh. }
  rewrite <-Ht. apply Hloop.
  - intros k m Hin. unfold dependentsOf. rewrite Hh. by apply (Hout k).
  - by rewrite Ht.
Qed.

End MoreInvalidateFacts.

(** *** Which entry points are marked dirty *)

Section DirtyFacts.
Context `{Collaborators}.
Implicit Types (w : World) (all : Js.Map nat) (resources : list string).

Lemma invalidateStyles_flag resources ep w :
  (invalidateStyles resources ep w).1 = stylesAffected resources w ep.
Proof.
  unfold invalidateStyles, stylesAffected. destruct resources as [|resource rest]; [done|].
  destruct (targetOf w ep ≫= stylesheetProcessor) as [sp|]; [|done].
  by destruct (sp_invalidate sp (resource :: rest)) as [sp' affected].
Qed.

Lemma checkEntryPoint_flag all resources ep w :
  (checkEntryPoint all resources ep w).1 = markedDirty all resources w ep.
Proof.
  destruct (checkEntryPoint_spec all resources ep w) as (-> & _).
  by rewrite invalidateStyles_flag.
Qed.

(** The body of the loop for one entry point leaves the role of every
    other node alone. *)
Lemma checkEntryPoint_other all resources ep w n :
  n ≠ ep → targetOf (checkEntryPoint all resources ep w).2 n = targetOf w n.
Proof.
  intros Hne. unfold checkEntryPoint.
  pose proof (cleanAnalysed_fold_other ep all (invalidateStyles resources ep w) n Hne)
    as Hfold.
  assert (targetOf (invalidateStyles resources ep w).2 n = targetOf w n) as Hinv.
  { unfold invalidateStyles. destruct resources; [done|].
    destruct (targetOf w ep ≫= stylesheetProcessor) as [sp|]; [|done].
    destruct (sp_invalidate sp _) as [sp' affected]. cbn [snd].
    by apply targetOf_other. }
  destruct (fold_left _ _ _) as [isDirty w1]. cbn [snd] in Hfold.
  destruct isDirty; cbn [snd].
  - rewrite targetOf_other by done. congruence.
  - congruence.
Qed.

Lemma markedDirty_ext all resources w w' n :
  targetOf w' n = targetOf w n → dependentsOf w' n = dependentsOf w n →
  markedDirty all resources w' n = markedDirty all resources w n.
Proof.
  intros Ht Hd. unfold markedDirty, stylesAffected, dependsOnCleaned.
  by rewrite Ht, Hd.
Qed.

(** When no entry point is visited twice, the flag the loop computes for an
    entry point is what the world before the loop says. *)
Lemma dirtyFlags_marked all resources eps w :
  NoDup eps →
  dirtyFlags all resources eps w = (λ ep, (ep, markedDirty all resources w ep)) <$> eps.
Proof.
  revert w. induction eps as [|ep eps IH]; intros w Hnd; [done|].
  apply NoDup_cons in Hnd as [Hfresh Hnd].
  rewrite dirtyFlags_cons, fmap_cons, checkEntryPoint_flag, (IH _ Hnd).
  f_equal. apply list_fmap_ext. intros i n Hn. f_equal.
  apply list_elem_of_lookup_2 in Hn.
  destruct (checkEntryPoint_spec all resources ep w) as (_ & Hdep & _).
  apply markedDirty_ext; [|done].
  apply checkEntryPoint_other. by intros ->.
Qed.

(** C4. The call returns [true] if and only if an entry point of the graph
    is marked dirty, that is, its stylesheet processor is affected by the
    potential style resources or a node of the to-clean map is among its
    dependents; every entry point that is marked dirty ends with its state
    set to [STATE_PENDING]; every other node keeps the state it had. The
    graph holds no entry point twice. *)
Theorem invalidate_true_iff_dirty_pending w files :
  NoDup (graph_filter w isEntryPoint) →
  ∃ s r w',
    collectNodesToClean w files = Some s ∧
    invalidateEntryPointsAndCacheOnFileChange w files = Some (r, w') ∧
    let dirty := markedDirty (allNodesToClean s) (potentialStylesResources s) w in
    (r = true ↔ ∃ ep, ep ∈ graph_filter w isEntryPoint ∧ dirty ep = true) ∧
    (∀ ep, ep ∈ graph_filter w isEntryPoint → dirty ep = true →
           stateOf w' ep = Some STATE_PENDING) ∧
    (∀ n, ¬ (n ∈ graph_filter w isEntryPoint ∧ dirty n = true) →
          stateOf w' n = stateOf w n).
Proof.
  intros Hnd.
  destruct (invalidate_flags w files) as (s & r & w' & Hs & Hrun & Hflags).
  cbn zeta in Hflags. destruct Hflags as (Heps & Hret & Hpending & Hkept).
  destruct (collectNodesToClean_frame w files s Hs) as (Hheap & Hgraph & _).
  assert (graph_filter (sweepWorld s) isEntryPoint = graph_filter w isEntryPoint) as Hfilter.
  { unfold graph_filter, graph_entries. by rewrite Hheap, Hgraph. }
  assert (∀ n, markedDirty (allNodesToClean s) (potentialStylesResources s)
                 (sweepWorld s) n
               = markedDirty (allNodesToClean s) (potentialStylesResources s) w n)
    as Hsame.
  { intros n. apply markedDirty_ext; unfold targetOf, dependentsOf; by rewrite Hheap. }
  rewrite Hfilter in Hret, Hpending, Hkept.
  rewrite dirtyFlags_marked in Hret, Hpending, Hkept by done.
  assert (∀ n, (n, true) ∈ (λ ep, (ep, markedDirty (allNodesToClean s)
                                         (potentialStylesResources s) (sweepWorld s) ep))
                           <$> graph_filter w isEntryPoint
               ↔ n ∈ graph_filter w isEntryPoint ∧
                 markedDirty (allNodesToClean s) (potentialStylesResources s) w n = true)
    as Hmem.
  { intros n. rewrite list_elem_of_fmap. split.
    - intros (ep & [= -> Hd] & Hin). by rewrite <-Hsame.
    - intros [Hin Hd]. exists n. by rewrite Hsame, Hd. }
  exists s, r, w'. split; [done|]. split; [done|]. cbn zeta. split; [|split].
  - rewrite Hret. by setoid_rewrite Hmem.
  - intros ep Hin Hd. apply Hpending, Hmem. done.
  - intros n Hn. apply Hkept. by rewrite Hmem.
Qed.

End DirtyFacts.

(** ** More on the caching compiler host *)

Section MoreHostFacts.
Context `{Collaborators} `{NodePath} `{!InlineBundler}.
Implicit Types (w : World) (fileName : string) (entryPoint : node_id).

(** *** What every call keeps *)

Lemma hostStep_refl w : hostStep w w.
Proof. split_and!; eauto. Qed.

Lemma hostStep_trans w1 w2 w3 : hostStep w1 w2 → hostStep w2 w3 → hostStep w1 w3.
Proof.
  intros (Hg & He & Hu & Ht & Hc & Hs & Hv) (Hg' & He' & Hu' & Ht' & Hc' & Hs' & Hv').
  split_and!; eauto.
  intros n t Hn. destruct (Ht n t Hn) as (t1 & Hn1 & Hst & Han & Hsp).
  destruct (Ht' n t1 Hn1) as (t2 & Hn2 & Hst' & Han' & Hsp').
  exists t2. split_and!; congruence.
Qed.

(** Steps that leave node objects and graph as they are. *)
Lemma hostStep_caches w w' :
  heap w' = heap w → graph w' = graph w →
  (∀ f, is_Some (sourcesFileCache w !! f) → is_Some (sourcesFileCache w' !! f)) →
  hostStep w w'.
Proof.
  intros Hh Hg Hc. unfold hostStep, dependsOnEdge, dependentsOf, dependeesOf, targetOf,
    graphSound, graphValid. rewrite Hh, Hg. split_and!; eauto.
Qed.

Lemma hostStep_prefix_lookup w w' n node :
  heap w `prefix_of` heap w' → heap w !! n = Some node → heap w' !! n = Some node.
Proof. intros Hp Hn. by eapply prefix_lookup_Some. Qed.

Lemma getNode_hostStep fileName : always hostStep (getNode fileName).
Proof.
  intros w. unfold getNode, bind, graph_get, gets.
  destruct (Js.Map_get _ (graph w)) as [n|] eqn:Hget; [apply hostStep_refl|].
  unfold newNode, graph_put, ret. cbn [heap setHeap graph].
  rewrite lookup_app_r by done. rewrite Nat.sub_diag. cbn [lookup list_lookup url].
  rewrite Hget. cbn [snd].
  set (node := mkNode _ [] [] None).
  set (w' := setGraph _ (setHeap _ w)).
  assert (∀ n x, heap w !! n = Some x → heap w' !! n = Some x) as Hold.
  { intros n x Hn. unfold w'. cbn [heap setGraph setHeap]. by apply lookup_app_l_Some. }
  split_and!.
  - intros u n Hu. unfold w'. cbn [graph setGraph]. rewrite Map_get_set.
    case_decide; [congruence|done].
  - intros a b [Hab Hba]. unfold dependsOnEdge, dependentsOf, dependeesOf in *.
    destruct (heap w !! a) as [na|] eqn:Ha; [|by apply elem_of_nil in Hab].
    destruct (heap w !! b) as [nb|] eqn:Hb; [|by apply elem_of_nil in Hba].
    by rewrite (Hold a na Ha), (Hold b nb Hb).
  - intros n u Hn. destruct (heap w !! n) as [x|] eqn:Hx; [|done].
    by rewrite (Hold n x Hx).
  - intros n t Hn. exists t. split_and!; [|done..]. unfold targetOf in *.
    destruct (heap w !! n) as [x|] eqn:Hx; [|done]. by rewrite (Hold n x Hx).
  - done.
  - intros [Hnd Hkeyed]. split.
    + unfold w'. cbn [graph setGraph]. by apply Map_set_NoDup.
    + rewrite Forall_forall. intros entry [->|Hin]%Map_set_elem_inv.
      * cbn [fst snd]. unfold w'. cbn [heap setGraph setHeap].
        rewrite lookup_app_r by done. by rewrite Nat.sub_diag.
      * rewrite Forall_forall in Hkeyed. specialize (Hkeyed entry Hin).
        destruct (heap w !! entry.2) as [x|] eqn:Hx; [|done].
        by rewrite (Hold _ x Hx).
  - intros Hvalid. unfold graphValid, w'. cbn [graph setGraph heap setHeap].
    rewrite length_app. cbn [length]. rewrite Forall_forall.
    intros entry [->|Hin]%Map_set_elem_inv; cbn [snd]; [lia|].
    unfold graphValid in Hvalid. rewrite Forall_forall in Hvalid.
    specialize (Hvalid entry Hin). lia.
Qed.

Lemma addEdge_hostStep a b w : hostStep w (addEdge a b w).
Proof.
  destruct (addEdge_grows a b w) as (_ & Hg & Hl & Hu & Hd & He).
  split_and!.
  - intros u n. by rewrite Hg.
  - intros x y [Hxy Hyx]. split; eauto.
  - intros n u. by rewrite Hu.
  - intros n t Hn. exists t. split_and!; [|done..]. unfold targetOf in *.
    rewrite addEdge_lookup. by destruct (heap w !! n).
  - done.
  - intros [Hnd Hkeyed]. split; [by rewrite Hg|]. rewrite Hg.
    eapply Forall_impl; [done|]. intros entry. cbn beta. by rewrite Hu.
  - apply addEdge_valid.
Qed.

Lemma linkAll_hostStep node deps w : hostStep w (linkAll node deps w).
Proof.
  revert w. induction deps as [|d deps IH]; intros w; [apply hostStep_refl|].
  unfold linkAll. cbn [fold_left].
  eapply hostStep_trans; [apply addEdge_hostStep|apply IH].
Qed.

Lemma propagate_hostStep depNodes ds w :
  hostStep w (fold_left (propagateStep depNodes) ds w).
Proof.
  revert w. induction ds as [|n ds IH]; intros w; [apply hostStep_refl|].
  cbn [fold_left]. eapply hostStep_trans; [|apply IH].
  unfold propagateStep. destruct (heap w !! n) as [dependee|]; [|apply hostStep_refl].
  destruct (Js.endsWith _ _); [apply linkAll_hostStep|apply hostStep_refl].
Qed.

Lemma hostStep_alterTarget f e ep w :
  (∀ t, state (f t) = state t ∧
        analysesSourcesFileCache (f t) = analysesSourcesFileCache t ∧
        stylesheetProcessor (f t) = stylesheetProcessor t) →
  hostStep w (log e (alterNode (alterTarget f) ep w)).
Proof.
  intros Hf.
  pose proof (sameGraph_alterTarget (λ t, t) e ep w (λ t, eq_refl)) as _.
  split_and!.
  - done.
  - intros a b [Hab Hba]. split.
    + by rewrite dependentsOf_log, dependentsOf_alterTarget.
    + change (a ∈ dependeesOf (alterNode (alterTarget f) ep w) b).
      by rewrite dependeesOf_alterTarget.
  - intros n u. change (heap (log e (alterNode (alterTarget f) ep w)))
      with (heap (alterNode (alterTarget f) ep w)). by rewrite url_alterTarget.
  - intros n t Hn. rewrite targetOf_log, targetOf_alterTarget, Hn.
    case_decide; [|by exists t]. exists (f t). destruct (Hf t) as (? & ? & ?). done.
  - done.
  - intros [Hnd Hkeyed]. split; [done|].
    eapply Forall_impl; [exact Hkeyed|]. intros entry. cbn beta.
    change (heap (log e (alterNode (alterTarget f) ep w)))
      with (heap (alterNode (alterTarget f) ep w)). by rewrite url_alterTarget.
  - unfold graphValid, alterNode. cbn [graph heap log setHeap]. by rewrite length_alter.
Qed.

(** How the relation goes through the monad. *)
Lemma always_ret {A} (a : A) : always hostStep (ret a).
Proof. intros w. apply hostStep_refl. Qed.

Lemma always_throw {A} message : always hostStep (throw (A := A) message).
Proof. intros w. apply hostStep_refl. Qed.

Lemma always_gets {A} (f : World → A) : always hostStep (gets f).
Proof. intros w. apply hostStep_refl. Qed.

Lemma always_bind {A B} (m : Op A) (k : A → Op B) :
  always hostStep m → (∀ a, always hostStep (k a)) → always hostStep (bind m k).
Proof.
  intros Hm Hk w. unfold bind. specialize (Hm w).
  destruct (m w) as [[a|message] w1]; cbn [snd] in *; [|done].
  eapply hostStep_trans; [done|apply Hk].
Qed.

Lemma cacheOf_hostStep fileName : always hostStep (cacheOf fileName).
Proof.
  intros w. unfold cacheOf.
  destruct (getOrCreate_spec fileName (sourcesFileCache w)) as (Hat & Hother & _).
  destruct (getOrCreate fileName (sourcesFileCache w)) as [e c]. cbn [fst snd] in *.
  apply hostStep_caches; [done..|]. cbn [sourcesFileCache setSources].
  intros f Hf. destruct (decide (f = fileName)) as [->|Hne]; [by rewrite Hat|].
  by rewrite Hother.
Qed.

Lemma assignCache_hostStep fileName g : always hostStep (assignCache fileName g).
Proof.
  intros w. apply hostStep_caches; [done..|]. cbn. intros f [e He].
  destruct (decide (f = fileName)) as [->|Hne].
  - rewrite lookup_alter_eq, He. by eexists.
  - rewrite lookup_alter_ne by done. by eexists.
Qed.

Lemma callFileExists_hostStep fileName : always hostStep (callFileExists fileName).
Proof.
  intros w. unfold callFileExists. destruct (host_fileExists _ _).
  by apply hostStep_caches.
Qed.

Lemma callReadFile_hostStep fileName : always hostStep (callReadFile fileName).
Proof.
  intros w. unfold callReadFile. destruct (host_readFile _ _).
  by apply hostStep_caches.
Qed.

Lemma callGetSourceFile_hostStep fileName languageVersion :
  always hostStep (callGetSourceFile fileName languageVersion).
Proof.
  intros w. unfold callGetSourceFile. destruct (host_getSourceFile _ _ _).
  by apply hostStep_caches.
Qed.

Lemma callWriteFile_hostStep fileName data writeByteOrderMark :
  always hostStep (callWriteFile fileName data writeByteOrderMark).
Proof. intros w. by apply hostStep_caches. Qed.

Lemma callBundleFile_hostStep fileName : always hostStep (callBundleFile fileName).
Proof.
  intros w. unfold callBundleFile. destruct (bundler w); [|apply hostStep_refl].
  destruct (sp_bundleFile _ _). by apply hostStep_caches.
Qed.

Lemma callBundleInline_hostStep data containing language :
  always hostStep (callBundleInline data containing language).
Proof.
  intros w. unfold callBundleInline. destruct (bundler w); [|apply hostStep_refl].
  destruct (sp_bundleInline _ _ _ _). by apply hostStep_caches.
Qed.

Lemma dependsOn_hostStep node deps : always hostStep (dependsOn node deps).
Proof. intros w. apply linkAll_hostStep. Qed.

Lemma propagateToSources_hostStep node deps :
  always hostStep (propagateToSources node deps).
Proof. intros w. rewrite propagateToSources_run. apply propagate_hostStep. Qed.

Lemma getNodes_hostStep fileNames : always hostStep (getNodes fileNames).
Proof.
  induction fileNames as [|fileName rest IH]; cbn [getNodes]; [apply always_ret|].
  apply always_bind; [apply getNode_hostStep|]. intros n.
  apply always_bind; [apply IH|]. intros ns. apply always_ret.
Qed.

Lemma addDependee_hostStep entryPoint fileName :
  always hostStep (addDependee entryPoint fileName).
Proof.
  unfold addDependee. apply always_bind; [apply getNode_hostStep|].
  intros n. apply dependsOn_hostStep.
Qed.


Lemma always_modify (f : World → World) :
  (∀ w, hostStep w (f w)) → always hostStep (modify f).
Proof. intros Hf w. apply Hf. Qed.

Lemma log_hostStep e : always hostStep (modify (log e)).
Proof. apply always_modify. intros w. by apply hostStep_caches. Qed.

Ltac host_step :=
  repeat first
    [ apply always_ret | apply always_throw | apply always_gets
    | apply getNode_hostStep | apply getNodes_hostStep | apply dependsOn_hostStep
    | apply addDependee_hostStep | apply propagateToSources_hostStep
    | apply cacheOf_hostStep | apply assignCache_hostStep
    | apply callFileExists_hostStep | apply callReadFile_hostStep
    | apply callGetSourceFile_hostStep | apply callWriteFile_hostStep
    | apply callBundleFile_hostStep | apply callBundleInline_hostStep
    | apply log_hostStep
    | apply always_bind; [|intros ?]
    | match goal with
      | |- always _ (match ?x with _ => _ end) => destruct x
      end ].

Lemma fileExists_hostStep fileName : always hostStep (fileExists fileName).
Proof. unfold fileExists. host_step. Qed.

Lemma getSourceFile_hostStep entryPoint fileName languageVersion fresh :
  always hostStep (getSourceFile entryPoint fileName languageVersion fresh).
Proof. unfold getSourceFile. host_step. Qed.

Lemma readFile_hostStep entryPoint fileName :
  always hostStep (readFile entryPoint fileName).
Proof. unfold readFile. host_step. Qed.

Lemma readResource_hostStep entryPoint fileName :
  always hostStep (readResource entryPoint fileName).
Proof. unfold readResource. host_step. Qed.

Lemma writeFile_hostStep entryPoint fileName data writeByteOrderMark sourceFiles :
  always hostStep (writeFile entryPoint fileName data writeByteOrderMark sourceFiles).
Proof.
  unfold writeFile. host_step.
  apply always_modify. intros w. by apply hostStep_alterTarget.
Qed.

Lemma resourceNameToFileName_hostStep resourceName containingFilePath :
  always hostStep (resourceNameToFileName resourceName containingFilePath).
Proof. unfold resourceNameToFileName. host_step. Qed.

Lemma transformResource_hostStep inlineStyleLanguage data context :
  always hostStep (transformResource inlineStyleLanguage data context).
Proof. unfold transformResource. host_step. Qed.

(** X6. No call on the caching compiler host ever takes anything out of the
    build graph or resets an entry point: whatever the arguments, and
    whether the call returns or throws, every node stays filed under its
    URL, every edge stays, the state, the analyses cache and the stylesheet
    processor of every entry point stay, no entry leaves the sources file
    cache, and a graph that files each node once under its own URL still
    does so afterwards. *)
Theorem host_calls_keep_graph_and_targets entryPoint fileName :
  always hostStep (fileExists fileName) ∧
  (∀ languageVersion fresh,
     always hostStep (getSourceFile entryPoint fileName languageVersion fresh)) ∧
  (∀ data writeByteOrderMark sourceFiles,
     always hostStep
       (writeFile entryPoint fileName data writeByteOrderMark sourceFiles)) ∧
  always hostStep (readFile entryPoint fileName) ∧
  always hostStep (readResource entryPoint fileName) ∧
  (∀ containingFilePath,
     always hostStep (resourceNameToFileName fileName containingFilePath)) ∧
  (∀ inlineStyleLanguage data context,
     always hostStep (transformResource inlineStyleLanguage data context)).
Proof.
  split_and!; intros.
  - apply fileExists_hostStep.
  - apply getSourceFile_hostStep.
  - apply writeFile_hostStep.
  - apply readFile_hostStep.
  - apply readResource_hostStep.
  - apply resourceNameToFileName_hostStep.
  - apply transformResource_hostStep.
Qed.


(** ** Nodes and edges the compiler host creates *)


Lemma Map_get_elem {V} k (v : V) (m : Js.Map V) :
  NoDup m.*1 → (k, v) ∈ m → Js.Map_get k m = Some v.
Proof.
  induction m as [|[k' v'] m IH]; intros Hnd Hin; [by apply elem_of_nil in Hin|].
  rewrite fmap_cons in Hnd. apply NoDup_cons in Hnd as [Hfresh Hnd].
  cbn [Js.Map_get]. apply elem_of_cons in Hin as [[= -> ->]|Hin].
  - by rewrite decide_True.
  - rewrite decide_False; [by apply IH|]. intros ->. apply Hfresh.
    apply list_elem_of_fmap. by exists (k', v).
Qed.

(** In a sound graph, looking a URL up finds what [find] by URL finds. *)
Lemma graph_find_keyed w u n :
  graphSound w → Js.Map_get u (graph w) = Some n →
  graph_find w (λ node, String.eqb u (url node)) = Some n.
Proof.
  intros [_ Hkeyed]. unfold graph_find, graph_entries.
  induction (graph w) as [|[k v] g IH]; [done|]. intros Hget.
  apply Forall_cons in Hkeyed as [Hv Hkeyed]. cbn [fst snd] in Hv.
  rewrite fmap_cons. cbn [List.find snd]. cbn [Js.Map_get] in Hget.
  destruct (heap w !! v) as [node|] eqn:Hnode; [|done].
  injection Hv as Hv. cbn [from_option].
  destruct (decide (u = k)) as [->|Hne].
  - injection Hget as ->. rewrite <-Hv. by rewrite String.eqb_refl.
  - assert (String.eqb u (url node) = false) as ->.
    { apply String.eqb_neq. by rewrite Hv. }
    by apply IH.
Qed.

Lemma graph_filter_elem w by_ n :
  n ∈ graph_filter w by_ ↔
  (∃ k, (k, n) ∈ graph w) ∧ ∃ node, heap w !! n = Some node ∧ by_ node = true.
Proof.
  unfold graph_filter, graph_entries. rewrite list_elem_of_In, filter_In, <-list_elem_of_In.
  rewrite list_elem_of_fmap. split.
  - intros [([k v] & -> & Hin) Hby]. cbn [snd] in *. split; [by exists k|].
    destruct (heap w !! v) as [node|]; [by exists node|done].
  - intros [[k Hin] (node & Hnode & Hby)]. split; [by exists (k, n)|].
    by rewrite Hnode.
Qed.

Lemma hostStep_entry_point w w' ep :
  graphSound w → hostStep w w' →
  ep ∈ graph_filter w isEntryPoint → ep ∈ graph_filter w' isEntryPoint.
Proof.
  intros [Hnd _] (Hg & _ & _ & Ht & _). rewrite !graph_filter_elem.
  intros [[k Hin] (node & Hnode & Hep)]. split.
  - exists k. apply Map_get_Some, Hg. by apply Map_get_elem.
  - unfold isEntryPoint in Hep. destruct (target node) as [t|] eqn:Htarget; [|done].
    destruct (Ht ep t) as (t' & Ht' & _).
    { unfold targetOf. by rewrite Hnode. }
    unfold targetOf in Ht'. destruct (heap w' !! ep) as [node'|]; [|done].
    exists node'. split; [done|]. unfold isEntryPoint. cbn in Ht'. by rewrite Ht'.
Qed.

(** X7. [getNode] never fails and keeps one node per URL: the node it
    returns is filed in the graph, a later call for any file name with the
    same URL returns the same node and changes nothing, and in a graph that
    files every node under its own URL the node carries the URL of the
    file. *)
Theorem getNode_one_node_per_url fileName other w :
  fileUrl (ensureUnixPath other) = fileUrl (ensureUnixPath fileName) →
  ∃ n w',
    getNode fileName w = (Returned n, w') ∧
    getNode other w' = (Returned n, w') ∧
    (graphSound w →
     url <$> heap w' !! n = Some (fileUrl (ensureUnixPath fileName))).
Proof.
  intros Hsame. destruct (getNode_returns fileName w) as (n & w' & Hrun & Hget & _).
  exists n, w'. split_and!; [done| |].
  - unfold getNode, bind, graph_get, gets, ret. by rewrite Hsame, Hget.
  - intros Hsound. pose proof (getNode_hostStep fileName w) as Hstep.
    rewrite Hrun in Hstep. destruct Hstep as (_ & _ & _ & _ & _ & Hs & _).
    destruct (Hs Hsound) as [_ Hkeyed]. rewrite Forall_forall in Hkeyed.
    by apply (Hkeyed (_, n)), Map_get_Some.
Qed.

(** What follows [addDependee] cannot undo it. *)
Lemma addDependee_then {A} (k : Op A) entryPoint fileName w :
  graphValid w → entryPoint < length (heap w) → always hostStep k →
  let w' := (bind (addDependee entryPoint fileName) (λ _, k) w).2 in
  ∃ n, Js.Map_get (fileUrl (ensureUnixPath fileName)) (graph w') = Some n ∧
       dependsOnEdge w' entryPoint n.
Proof.
  intros Hvalid Hep Hk.
  destruct (getNode_grows fileName w) as (n & w1 & Hn & Hget & (_ & Hp & _) & Hv).
  destruct (Hv Hvalid) as [_ Hn1].
  assert (addDependee entryPoint fileName w = (Returned (), linkAll entryPoint [n] w1))
    as Hdep.
  { unfold addDependee. by rewrite (bind_returned _ _ _ _ _ Hn). }
  cbn zeta. rewrite (bind_returned _ _ _ _ _ Hdep).
  destruct (Hk (linkAll entryPoint [n] w1)) as (Hg & He & _).
  exists n. split.
  - apply Hg. destruct (linkAll_grows entryPoint [n] w1) as (_ & -> & _). done.
  - apply He. apply linkAll_edges; [|by apply Forall_singleton|by constructor].
    apply prefix_length in Hp. lia.
Qed.

(** X8. Every read through the host registers the file with the entry
    point before anything else happens: after [readFile], [getSourceFile]
    or [readResource], whether they return or throw, the graph has a node
    for the file and the entry point depends on it. *)
Theorem host_reads_register_dependency entryPoint fileName w :
  graphValid w → entryPoint < length (heap w) →
  ∀ w',
    w' = (readFile entryPoint fileName w).2 ∨
    w' = (readResource entryPoint fileName w).2 ∨
    (∃ languageVersion fresh,
       w' = (getSourceFile entryPoint fileName languageVersion fresh w).2) →
    ∃ n, Js.Map_get (fileUrl (ensureUnixPath fileName)) (graph w') = Some n ∧
         dependsOnEdge w' entryPoint n.
Proof.
  intros Hvalid Hep w' [->|[->|(languageVersion & fresh & ->)]];
    apply addDependee_then; try done; host_step.
Qed.

(** X9. What the compiler host records is what the file watcher needs: once
    an entry point of the graph has read a file through [readFile],
    [readResource] or [getSourceFile], a change of that file, reported under
    its normalised path, makes the entry point dirty and the invalidation
    return [true]. The graph files every node once under its own URL,
    [fileUrlPath] undoes [fileUrl], and no two nodes share a path. *)
Theorem read_then_change_makes_dirty entryPoint fileName w w1 :
  (∀ x, fileUrlPath (fileUrl x) = Some x) →
  graphSound w → graphValid w →
  entryPoint ∈ graph_filter w isEntryPoint →
  w1 = (readFile entryPoint fileName w).2 ∨
  w1 = (readResource entryPoint fileName w).2 ∨
  (∃ languageVersion fresh,
     w1 = (getSourceFile entryPoint fileName languageVersion fresh w).2) →
  uniquePaths w1 →
  ∃ w2,
    invalidateEntryPointsAndCacheOnFileChange w1 [ensureUnixPath fileName]
    = Some (true, w2) ∧
    stateOf w2 entryPoint = Some STATE_PENDING.
Proof.
  intros Hrt Hsound Hvalid Hep Hcall Hunique.
  assert (entryPoint < length (heap w)) as Hlt.
  { apply graph_filter_elem in Hep as [_ (node & Hnode & _)].
    by eapply lookup_lt_Some. }
  assert (hostStep w w1 ∧
          ∃ n, Js.Map_get (fileUrl (ensureUnixPath fileName)) (graph w1) = Some n ∧
               dependsOnEdge w1 entryPoint n) as [Hstep (n & Hget & Hedge & _)].
  { destruct Hcall as [->|[->|(languageVersion & fresh & ->)]]; split;
      first [ apply readFile_hostStep | apply readResource_hostStep
            | apply getSourceFile_hostStep
            | apply addDependee_then; try done; host_step ]. }
  assert (graphSound w1) as Hsound1 by by apply Hstep.
  apply (direct_dependency_dirty w1 _ (ensureUnixPath fileName) n entryPoint);
    [done|done|by apply list_elem_of_singleton| |by apply (hostStep_entry_point w)|done].
  by apply graph_find_keyed.
Qed.


(** *** What each call does to the sources file cache *)

Section Always.
Variable R : World → World → Prop.
Hypothesis R_refl : ∀ w, R w w.
Hypothesis R_trans : ∀ w1 w2 w3, R w1 w2 → R w2 w3 → R w1 w3.

Lemma rel_ret {A} (a : A) : always R (ret a).
Proof. intros w. apply R_refl. Qed.

Lemma rel_throw {A} message : always R (throw (A := A) message).
Proof. intros w. apply R_refl. Qed.

Lemma rel_gets {A} (f : World → A) : always R (gets f).
Proof. intros w. apply R_refl. Qed.

Lemma rel_bind {A B} (m : Op A) (k : A → Op B) :
  always R m → (∀ a, always R (k a)) → always R (bind m k).
Proof.
  intros Hm Hk w. unfold bind. specialize (Hm w).
  destruct (m w) as [[a|message] w1]; cbn [snd] in *; [|done].
  eapply R_trans; [done|apply Hk].
Qed.

End Always.

Lemma entryKept_refl other w : entryKept other w w.
Proof. done. Qed.

Lemma entryKept_trans other w1 w2 w3 :
  entryKept other w1 w2 → entryKept other w2 w3 → entryKept other w1 w3.
Proof. intros (? & ? & ?) (? & ? & ?). split_and!; congruence. Qed.

Lemma entryKept_caches other w w' :
  sourcesFileCache w' = sourcesFileCache w → entryKept other w w'.
Proof. intros Hc. unfold entryKept, cached. by rewrite Hc. Qed.

Lemma graphStep_always {A} (m : Op A) other :
  (∀ w, graphStep w (m w).2) → always (entryKept other) m.
Proof. intros Hm w. apply entryKept_caches, Hm. Qed.

Lemma getNode_entryKept fileName other : always (entryKept other) (getNode fileName).
Proof.
  apply graphStep_always. intros w.
  destruct (getNode_returns fileName w) as (n & w' & -> & _ & Hstep). done.
Qed.

Lemma getNodes_entryKept fileNames other :
  always (entryKept other) (getNodes fileNames).
Proof.
  apply graphStep_always. intros w.
  destruct (getNodes_grows fileNames w) as (ns & w' & -> & _ & (Hstep & _) & _). done.
Qed.

Lemma dependsOn_entryKept node deps other : always (entryKept other) (dependsOn node deps).
Proof. apply graphStep_always. intros w. apply (linkAll_grows node deps w). Qed.

Lemma addDependee_entryKept entryPoint fileName other :
  always (entryKept other) (addDependee entryPoint fileName).
Proof.
  apply graphStep_always. intros w.
  destruct (addDependee_returns entryPoint fileName w) as (w' & -> & Hstep). done.
Qed.

Lemma propagateToSources_entryKept node deps other :
  always (entryKept other) (propagateToSources node deps).
Proof.
  apply graphStep_always. intros w. rewrite propagateToSources_run.
  apply propagate_grows.
Qed.

Lemma cacheOf_run fileName w :
  cacheOf fileName w
  = (Returned (getOrCreate fileName (sourcesFileCache w)).1,
     setSources (getOrCreate fileName (sourcesFileCache w)).2 w).
Proof. unfold cacheOf. by destruct (getOrCreate fileName (sourcesFileCache w)). Qed.

Lemma getOrCreate_cached {A} (field : CacheEntry → option A) fileName other
    (c : gmap string CacheEntry) :
  field emptyEntry = None →
  (getOrCreate fileName c).2 !! other ≫= field = c !! other ≫= field.
Proof.
  intros Hempty. unfold getOrCreate.
  destruct (c !! fileName) as [e|] eqn:He; [done|]. cbn [snd].
  destruct (decide (other = fileName)) as [->|Hne].
  - by rewrite lookup_insert_eq, He.
  - by rewrite lookup_insert_ne.
Qed.

Lemma cacheOf_entryKept fileName other : always (entryKept other) (cacheOf fileName).
Proof.
  intros w. rewrite cacheOf_run. unfold entryKept, cached. cbn [snd sourcesFileCache setSources].
  by rewrite !getOrCreate_cached.
Qed.

Lemma assignCache_entryKept fileName g other :
  other ≠ fileName → always (entryKept other) (assignCache fileName g).
Proof.
  intros Hne w. unfold entryKept, cached. cbn. by rewrite !lookup_alter_ne.
Qed.

Lemma callFileExists_entryKept fileName other :
  always (entryKept other) (callFileExists fileName).
Proof.
  intros w. unfold callFileExists. destruct (host_fileExists _ _).
  by apply entryKept_caches.
Qed.

Lemma callReadFile_entryKept fileName other :
  always (entryKept other) (callReadFile fileName).
Proof.
  intros w. unfold callReadFile. destruct (host_readFile _ _).
  by apply entryKept_caches.
Qed.

Lemma callGetSourceFile_entryKept fileName languageVersion other :
  always (entryKept other) (callGetSourceFile fileName languageVersion).
Proof.
  intros w. unfold callGetSourceFile. destruct (host_getSourceFile _ _ _).
  by apply entryKept_caches.
Qed.

Lemma callBundleFile_entryKept fileName other :
  always (entryKept other) (callBundleFile fileName).
Proof.
  intros w. unfold callBundleFile. destruct (bundler w); [|done].
  destruct (sp_bundleFile _ _). by apply entryKept_caches.
Qed.

Lemma callBundleInline_entryKept data containing language other :
  always (entryKept other) (callBundleInline data containing language).
Proof.
  intros w. unfold callBundleInline. destruct (bundler w); [|done].
  destruct (sp_bundleInline _ _ _ _). by apply entryKept_caches.
Qed.

Lemma modify_entryKept (f : World → World) other :
  (∀ w, sourcesFileCache (f w) = sourcesFileCache w) →
  always (entryKept other) (modify f).
Proof. intros Hf w. by apply entryKept_caches, Hf. Qed.

Ltac cache_step :=
  repeat first
    [ apply rel_ret; apply entryKept_refl
    | apply rel_throw; apply entryKept_refl
    | apply rel_gets; apply entryKept_refl
    | apply getNode_entryKept | apply getNodes_entryKept | apply dependsOn_entryKept
    | apply addDependee_entryKept | apply propagateToSources_entryKept
    | apply cacheOf_entryKept | by apply assignCache_entryKept
    | apply callFileExists_entryKept | apply callReadFile_entryKept
    | apply callGetSourceFile_entryKept
    | apply callBundleFile_entryKept | apply callBundleInline_entryKept
    | by apply modify_entryKept
    | apply rel_bind; [apply entryKept_trans| |intros ?]
    | match goal with
      | |- always _ (match ?x with _ => _ end) => destruct x
      end ].

(** X10. A call about one file leaves the sources file cache entries of
    all other files alone: no field of the entry of another file is
    populated, replaced or cleared by [fileExists], [getSourceFile],
    [readFile] or [readResource], however the call ends. *)
Theorem host_calls_touch_own_entry_only entryPoint fileName other :
  other ≠ fileName →
  always (entryKept other) (fileExists fileName) ∧
  (∀ languageVersion fresh,
     always (entryKept other)
       (getSourceFile entryPoint fileName languageVersion fresh)) ∧
  always (entryKept other) (readFile entryPoint fileName) ∧
  always (entryKept other) (readResource entryPoint fileName).
Proof.
  intros Hne. split_and!; intros.
  - unfold fileExists. cache_step.
  - unfold getSourceFile. cache_step.
  - unfold readFile. cache_step.
  - unfold readResource. cache_step.
Qed.

(** X11. The bundle of a stylesheet is never cached: [readResource] for a
    file whose extension is not that of a template leaves every field of
    every entry of the sources file cache as it was, whether the file
    exists, the bundle succeeds, or the call throws. *)
Theorem readResource_stylesheet_never_cached entryPoint fileName other :
  isTemplateExtension (extname fileName) = false →
  always (entryKept other) (readResource entryPoint fileName).
Proof. intros Hext. unfold readResource. rewrite Hext. cache_step. Qed.

(** X12. Emitting, resolving a resource name and transforming an inline
    style never touch the sources file cache. *)
Theorem emit_and_resources_keep_sources_cache entryPoint fileName other :
  (∀ data writeByteOrderMark sourceFiles,
     always (entryKept other)
       (writeFile entryPoint fileName data writeByteOrderMark sourceFiles)) ∧
  (∀ containingFilePath,
     always (entryKept other) (resourceNameToFileName fileName containingFilePath)) ∧
  (∀ inlineStyleLanguage data context,
     always (entryKept other) (transformResource inlineStyleLanguage data context)).
Proof.
  split_and!; intros.
  - unfold writeFile, callWriteFile. cache_step.
  - unfold resourceNameToFileName. cache_step.
  - unfold transformResource. cache_step.
Qed.


(** *** Asking the wrapped host *)

Lemma logged_app w w' evs : trace w' = trace w ++ evs → logged w w' = evs.
Proof. intros Ht. unfold logged. by rewrite Ht, drop_app_length. Qed.

Lemma getOrCreate_at fileName (c : gmap string CacheEntry) :
  (getOrCreate fileName c).2 !! fileName = Some (getOrCreate fileName c).1.
Proof. apply getOrCreate_spec. Qed.

Lemma getOrCreate_field {A} (field : CacheEntry → option A) fileName
    (c : gmap string CacheEntry) :
  field emptyEntry = None →
  field (getOrCreate fileName c).1 = c !! fileName ≫= field.
Proof. intros Hempty. unfold getOrCreate. by destruct (c !! fileName). Qed.

(** X13. [fileExists] asks the wrapped host at most once per file and
    remembers either answer: the call always returns, its answer is in the
    cache afterwards, a second call gives the same answer and changes
    nothing, and when nothing was cached the answer is the wrapped host's,
    which was asked exactly once. *)
Theorem fileExists_remembers_any_answer fileName w :
  ∃ r w1,
    fileExists fileName w = (Returned r, w1) ∧
    cached exists_ w1 fileName = Some r ∧
    fileExists fileName w1 = (Returned r, w1) ∧
    (cached exists_ w fileName = None →
     r = (host_fileExists (compilerHost w) fileName).2 ∧
     logged w w1 = [EvHostFileExists fileName]).
Proof.
  unfold fileExists at 1. rewrite (bind_returned _ _ _ _ _ (cacheOf_run fileName w)).
  pose proof (getOrCreate_at fileName (sourcesFileCache w)) as Hat.
  pose proof (getOrCreate_field exists_ fileName (sourcesFileCache w) eq_refl) as Hfield.
  destruct (getOrCreate fileName (sourcesFileCache w)) as [e c]. cbn [fst snd] in *.
  destruct (exists_ e) as [b|] eqn:Hb.
  - assert (cached exists_ (setSources c w) fileName = Some b) as Hcached.
    { unfold cached. cbn [sourcesFileCache setSources]. by rewrite Hat. }
    exists b, (setSources c w). split_and!; [done|done|by apply fileExists_cached|].
    unfold cached. intros Hnone. congruence.
  - unfold bind, callFileExists, assignCache, modify, ret.
    cbn [compilerHost setSources].
    destruct (host_fileExists (compilerHost w) fileName) as [h r] eqn:Hhost.
    eexists r, _. split; [done|].
    match goal with
    | |- cached exists_ ?w1 _ = _ ∧ _ =>
        assert (cached exists_ w1 fileName = Some r) as Hcached
    end.
    { unfold cached. cbn [sourcesFileCache setSources log setHost].
      by rewrite lookup_alter_eq, Hat. }
    split_and!; [done|by apply fileExists_cached|].
    intros _. split; [done|]. by apply logged_app.
Qed.

(** With no content cached, [readFile] asks the wrapped host once and
    keeps what it answers. *)
Lemma readFile_uncached entryPoint fileName w :
  cached content w fileName = None →
  let r := readFile entryPoint fileName w in
  let answer := host_readFile (compilerHost w) fileName in
  r.1 = Returned answer.2 ∧
  cached content r.2 fileName = answer.2 ∧
  compilerHost r.2 = answer.1 ∧
  logged w r.2 = [EvHostReadFile fileName].
Proof.
  intros Hnone.
  destruct (addDependee_returns entryPoint fileName w) as (w0 & Hdep & Hc & Hh & _ & Ht).
  cbn zeta. unfold readFile. rewrite (bind_returned _ _ _ _ _ Hdep).
  rewrite (bind_returned _ _ _ _ _ (cacheOf_run fileName w0)).
  pose proof (getOrCreate_at fileName (sourcesFileCache w0)) as Hat.
  pose proof (getOrCreate_field content fileName (sourcesFileCache w0) eq_refl) as Hfield.
  destruct (getOrCreate fileName (sourcesFileCache w0)) as [e c]. cbn [fst snd] in *.
  unfold cached in Hnone. rewrite Hc, Hnone in Hfield. rewrite Hfield.
  unfold bind, callReadFile, assignCache, modify, ret. cbn [compilerHost setSources].
  rewrite Hh. destruct (host_readFile (compilerHost w) fileName) as [h r].
  cbn [fst snd]. split_and!; [done| |done|].
  - unfold cached. cbn [sourcesFileCache setSources log setHost].
    by rewrite lookup_alter_eq, Hat.
  - apply logged_app. cbn. by rewrite Ht.
Qed.

(** X14. A missing file is not remembered by [readFile]: when nothing is
    cached and the wrapped host has no text for the file, the call returns
    [undefined] after asking the host once, and the content is as little
    cached afterwards as before, so that the next call asks again. *)
Theorem readFile_missing_not_cached entryPoint fileName host' w :
  cached content w fileName = None →
  host_readFile (compilerHost w) fileName = (host', None) →
  let r := readFile entryPoint fileName w in
  r.1 = Returned None ∧
  cached content r.2 fileName = None ∧
  compilerHost r.2 = host' ∧
  logged w r.2 = [EvHostReadFile fileName].
Proof.
  intros Hnone Hhost.
  pose proof (readFile_uncached entryPoint fileName w Hnone) as Hrun.
  cbn zeta in *. by rewrite Hhost in Hrun.
Qed.

(** X15. [getSourceFile] goes to the wrapped host whenever a new source
    file is asked for or none is cached, and stores what the host gives,
    be it [undefined]: the result and the cached source file are the host's
    answer, the host was asked once, and the other two fields of the entry
    are as before. *)
Theorem getSourceFile_asks_host entryPoint fileName languageVersion fresh w :
  fresh = true ∨ cached sourceFile w fileName = None →
  let r := getSourceFile entryPoint fileName languageVersion fresh w in
  let answer := host_getSourceFile (compilerHost w) fileName languageVersion in
  r.1 = Returned answer.2 ∧
  cached sourceFile r.2 fileName = answer.2 ∧
  compilerHost r.2 = answer.1 ∧
  logged w r.2 = [EvHostGetSourceFile fileName] ∧
  cached exists_ r.2 fileName = cached exists_ w fileName ∧
  cached content r.2 fileName = cached content w fileName.
Proof.
  intros Hask.
  destruct (addDependee_returns entryPoint fileName w) as (w0 & Hdep & Hc & Hh & _ & Ht).
  cbn zeta. unfold getSourceFile. rewrite (bind_returned _ _ _ _ _ Hdep).
  rewrite (bind_returned _ _ _ _ _ (cacheOf_run fileName w0)).
  pose proof (getOrCreate_at fileName (sourcesFileCache w0)) as Hat.
  pose proof (getOrCreate_field sourceFile fileName (sourcesFileCache w0) eq_refl) as Hsf.
  pose proof (getOrCreate_field exists_ fileName (sourcesFileCache w0) eq_refl) as Hex.
  pose proof (getOrCreate_field content fileName (sourcesFileCache w0) eq_refl) as Hco.
  destruct (getOrCreate fileName (sourcesFileCache w0)) as [e c]. cbn [fst snd] in *.
  rewrite Hc in Hsf, Hex, Hco.
  assert (fresh || negb (bool_decide (is_Some (sourceFile e))) = true) as ->.
  { destruct Hask as [->|Hnone]; [done|]. unfold cached in Hnone.
    rewrite Hsf, Hnone. rewrite bool_decide_eq_false_2; [by rewrite orb_true_r|].
    by intros [? ?]. }
  unfold bind, callGetSourceFile, assignCache, modify, ret. cbn [compilerHost setSources].
  rewrite Hh.
  destruct (host_getSourceFile (compilerHost w) fileName languageVersion) as [h r].
  cbn [fst snd]. unfold cached. cbn [sourcesFileCache setSources log setHost].
  rewrite lookup_alter_eq, Hat. cbn. split_and!; [done|done|done| |done|done].
  apply logged_app. cbn. by rewrite Ht.
Qed.


(** *** How long a populated field is trusted *)

Lemma always_mono {A} (R R' : World → World → Prop) (m : Op A) :
  (∀ w w', R w w' → R' w w') → always R m → always R' m.
Proof. intros Hsub Hm w. apply Hsub, Hm. Qed.

Lemma trueKept_trans fileName w1 w2 w3 :
  trueKept fileName w1 w2 → trueKept fileName w2 w3 → trueKept fileName w1 w3.
Proof. intros [He Hs] [He' Hs']. split; [by eauto|congruence]. Qed.

Lemma entryKept_trueKept fileName w w' :
  entryKept fileName w w' → trueKept fileName w w'.
Proof. intros (He & _ & Hs). split; [|done]. by rewrite He. Qed.

Lemma sourceApart_trans fileName w1 w2 w3 :
  sourceApart fileName w1 w2 → sourceApart fileName w2 w3 → sourceApart fileName w1 w3.
Proof. intros [He Hc] [He' Hc']. split; congruence. Qed.

Lemma entryKept_sourceApart fileName w w' :
  entryKept fileName w w' → sourceApart fileName w w'.
Proof. by intros (He & Hc & _). Qed.

Lemma assignCache_trueKept name g fileName :
  (∀ e, sourceFile (g e) = sourceFile e ∧
        (exists_ e = Some true → exists_ (g e) = Some true)) →
  always (trueKept fileName) (assignCache name g).
Proof.
  intros Hg w. unfold trueKept, cached. cbn.
  destruct (decide (fileName = name)) as [->|Hne]; [|by rewrite !lookup_alter_ne].
  rewrite lookup_alter_eq. destruct (sourcesFileCache w !! name) as [e|]; [|done].
  cbn. by destruct (Hg e).
Qed.

Lemma assignCache_sourceApart name g fileName :
  (∀ e, exists_ (g e) = exists_ e ∧ content (g e) = content e) →
  always (sourceApart fileName) (assignCache name g).
Proof.
  intros Hg w. unfold sourceApart, cached. cbn.
  destruct (decide (fileName = name)) as [->|Hne]; [|by rewrite !lookup_alter_ne].
  rewrite lookup_alter_eq. destruct (sourcesFileCache w !! name) as [e|]; [|done].
  cbn. by destruct (Hg e).
Qed.

Ltac leaf_kept :=
  first
    [ apply getNode_entryKept | apply getNodes_entryKept | apply dependsOn_entryKept
    | apply addDependee_entryKept | apply propagateToSources_entryKept
    | apply cacheOf_entryKept
    | apply callFileExists_entryKept | apply callReadFile_entryKept
    | apply callGetSourceFile_entryKept
    | apply callBundleFile_entryKept | apply callBundleInline_entryKept
    | apply rel_ret; apply entryKept_refl
    | apply rel_throw; apply entryKept_refl
    | apply rel_gets; apply entryKept_refl
    | by apply modify_entryKept ].

Ltac weak_step trans kept assign :=
  repeat first
    [ apply (always_mono _ _ _ kept); leaf_kept
    | apply assign; intros ?; by split
    | apply (rel_bind _ trans); [|intros ?]
    | match goal with
      | |- always _ (match ?x with _ => _ end) => destruct x
      end ].

(** [readResource] never takes an [exists] of [true] back and never
    touches a [sourceFile]. *)
Lemma readResource_trueKept entryPoint name fileName :
  always (trueKept fileName) (readResource entryPoint name).
Proof.
  unfold readResource.
  weak_step (trueKept_trans fileName) (entryKept_trueKept fileName)
    assignCache_trueKept.
Qed.

(** [getSourceFile] assigns to the [sourceFile] alone. *)
Lemma getSourceFile_sourceApart entryPoint name languageVersion fresh fileName :
  always (sourceApart fileName) (getSourceFile entryPoint name languageVersion fresh).
Proof.
  unfold getSourceFile.
  weak_step (sourceApart_trans fileName) (entryKept_sourceApart fileName)
    assignCache_sourceApart.
Qed.

(** [readResource] trusts a populated [content]. *)
Lemma readResource_cached entryPoint fileName t w :
  cached content w fileName = Some t →
  ∃ w', readResource entryPoint fileName w = (Returned (Some t), w') ∧
        servedFromCache w w'.
Proof.
  unfold cached. intros Ht.
  destruct (addDependee_returns entryPoint fileName w) as (w1 & Hdep & Hc1 & Hh1 & _ & Ht1).
  unfold readResource. rewrite (bind_returned _ _ _ _ _ Hdep).
  unfold bind, cacheOf, ret. rewrite <-Hc1 in Ht.
  destruct (getOrCreate_spec fileName (sourcesFileCache w1)) as (_ & _ & Hhit & _).
  destruct (Hhit _ content t Ht) as [He Hc].
  destruct (getOrCreate fileName (sourcesFileCache w1)) as [e c]. cbn [fst snd] in *.
  rewrite He. subst c. eexists. split; [done|]. by split_and!.
Qed.

(** What one call can do to the populated fields of a file. *)
Lemma runCall_trust entryPoint call fileName w :
  let w' := runCall entryPoint w call in
  (∀ t, cached content w fileName = Some t → cached content w' fileName = Some t) ∧
  (∀ b, cached exists_ w fileName = Some b →
        b = true ∨ overwritesExists fileName call = false →
        cached exists_ w' fileName = Some b) ∧
  (∀ sf, cached sourceFile w fileName = Some sf →
         overwritesSource fileName call = false →
         cached sourceFile w' fileName = Some sf).
Proof.
  assert (∀ w', entryKept fileName w w' →
            (∀ t, cached content w fileName = Some t →
                  cached content w' fileName = Some t) ∧
            (∀ b, cached exists_ w fileName = Some b →
                  b = true ∨ overwritesExists fileName call = false →
                  cached exists_ w' fileName = Some b) ∧
            (∀ sf, cached sourceFile w fileName = Some sf →
                   overwritesSource fileName call = false →
                   cached sourceFile w' fileName = Some sf)) as Hkept.
  { intros w' (He & Hc & Hs). rewrite He, Hc, Hs. by split_and!. }
  assert (∀ w', keepsPopulated (sourcesFileCache w) (sourcesFileCache w') →
            (∀ t, cached content w fileName = Some t →
                  cached content w' fileName = Some t) ∧
            (∀ b, cached exists_ w fileName = Some b →
                  b = true ∨ overwritesExists fileName call = false →
                  cached exists_ w' fileName = Some b) ∧
            (∀ sf, cached sourceFile w fileName = Some sf →
                   overwritesSource fileName call = false →
                   cached sourceFile w' fileName = Some sf)) as Hpopulated.
  { intros w' Hkeeps. destruct (Hkeeps fileName) as (He & Hc & Hs).
    unfold cached. split_and!; eauto. }
  cbn zeta. destruct call as [name|name|name languageVersion fresh
    |name data writeByteOrderMark sourceFiles|name|resourceName containingFilePath
    |inlineStyleLanguage data context]; cbn [runCall].
  - apply Hpopulated, fileExists_keeps.
  - apply Hpopulated, readFile_keeps.
  - destruct fresh; [|apply Hpopulated, getSourceFile_keeps].
    destruct (getSourceFile_sourceApart entryPoint name languageVersion true fileName w)
      as [He Hc].
    split_and!.
    + intros t. by rewrite Hc.
    + intros b Hb _. by rewrite He.
    + cbn [overwritesSource]. intros sf Hsf Hne%bool_decide_eq_false.
      assert (fileName ≠ name) as Hne' by (by intros ->).
      assert (always (entryKept fileName)
                (getSourceFile entryPoint name languageVersion true)) as Hstep.
      { unfold getSourceFile. cache_step. }
      destruct (Hstep w) as (_ & _ & Hs). by rewrite Hs.
  - apply Hkept.
    assert (always (entryKept fileName)
              (writeFile entryPoint name data writeByteOrderMark sourceFiles)) as Hstep.
    { unfold writeFile, callWriteFile. cache_step. }
    apply Hstep.
  - destruct (readResource_trueKept entryPoint name fileName w) as [Htrue Hs].
    assert (fileName ≠ name → entryKept fileName w (readResource entryPoint name w).2)
      as Hother.
    { intros Hne.
      assert (always (entryKept fileName) (readResource entryPoint name)) as Hstep.
      { unfold readResource. cache_step. }
      apply Hstep. }
    split_and!.
    + intros t Ht. destruct (decide (fileName = name)) as [->|Hne].
      * destruct (readResource_cached entryPoint name t w Ht) as (w' & -> & _ & _ & Hc).
        unfold cached in *. cbn [snd]. by rewrite Hc.
      * destruct (Hother Hne) as (_ & Hc & _). by rewrite Hc.
    + cbn [overwritesExists]. intros b Hb [->|Hne%bool_decide_eq_false]; [by apply Htrue|].
      destruct Hother as (He & _); [by intros ->|]. by rewrite He.
    + intros sf Hsf _. by rewrite Hs.
  - apply Hkept.
    assert (always (entryKept fileName)
              (resourceNameToFileName resourceName containingFilePath)) as Hstep.
    { unfold resourceNameToFileName. cache_step. }
    apply Hstep.
  - apply Hkept.
    assert (always (entryKept fileName)
              (transformResource inlineStyleLanguage data context)) as Hstep.
    { unfold transformResource. cache_step. }
    apply Hstep.
Qed.

Lemma runCalls_trust entryPoint calls fileName w :
  let w' := runCalls entryPoint calls w in
  (∀ t, cached content w fileName = Some t → cached content w' fileName = Some t) ∧
  (∀ b, cached exists_ w fileName = Some b →
        b = true ∨ Forall (λ call, overwritesExists fileName call = false) calls →
        cached exists_ w' fileName = Some b) ∧
  (∀ sf, cached sourceFile w fileName = Some sf →
         Forall (λ call, overwritesSource fileName call = false) calls →
         cached sourceFile w' fileName = Some sf).
Proof.
  revert w. induction calls as [|call calls IH]; intros w; [by split_and!|].
  cbn zeta. unfold runCalls. cbn [fold_left].
  destruct (runCall_trust entryPoint call fileName w) as (Hc & He & Hs).
  destruct (IH (runCall entryPoint w call)) as (Hc' & He' & Hs').
  cbn zeta in *. split_and!.
  - intros t Ht. by apply Hc', Hc.
  - intros b Hb Hquiet. apply He'.
    + apply He; [done|]. destruct Hquiet as [->|Hquiet]; [by left|].
      right. by apply Forall_cons in Hquiet as [? _].
    + destruct Hquiet as [->|Hquiet]; [by left|].
      right. by apply Forall_cons in Hquiet as [_ ?].
  - intros sf Hsf Hquiet. apply Forall_cons in Hquiet as [Hcall Hquiet].
    apply Hs'; [|done]. by apply Hs.
Qed.

(** C6 (amended). Once a field of a file's cache entry is populated, the three reads
    trust it, and no call on the host evicts it; but two calls assign to a
    populated field. Whatever calls on the host lie between, on any files,
    [readFile] returns a populated [content], and [fileExists] a populated
    [exists] of [true]. [fileExists] returns any populated [exists] as long
    as no [readResource] of the file lies between, and [getSourceFile],
    without [shouldCreateNewSourceFile], the populated [sourceFile] as long
    as no [getSourceFile] of the file with [shouldCreateNewSourceFile] lies
    between. The call that is served neither calls the wrapped compiler
    host nor changes the cache. *)
Theorem populated_cache_fields_are_trusted entryPoint fileName calls w :
  let w1 := runCalls entryPoint calls w in
  (∀ t, cached content w fileName = Some t →
        ∃ w2, readFile entryPoint fileName w1 = (Returned (Some t), w2) ∧
              servedFromCache w1 w2) ∧
  (∀ b, cached exists_ w fileName = Some b →
        b = true ∨ Forall (λ call, overwritesExists fileName call = false) calls →
        ∃ w2, fileExists fileName w1 = (Returned b, w2) ∧ servedFromCache w1 w2) ∧
  (∀ sf languageVersion,
     cached sourceFile w fileName = Some sf →
     Forall (λ call, overwritesSource fileName call = false) calls →
     ∃ w2, getSourceFile entryPoint fileName languageVersion false w1
           = (Returned (Some sf), w2) ∧
           servedFromCache w1 w2).
Proof.
  cbn zeta. destruct (runCalls_trust entryPoint calls fileName w) as (Hc & He & Hs).
  cbn zeta in *. split_and!.
  - intros t Ht. by apply readFile_cached, Hc.
  - intros b Hb Hquiet. exists (runCalls entryPoint calls w). split; [|done].
    by apply fileExists_cached, He.
  - intros sf languageVersion Hsf Hquiet. by apply getSourceFile_cached, Hs.
Qed.

(** *** Emitting *)

Lemma logged_refl w : logged w w = [].
Proof. unfold logged. by rewrite drop_all. Qed.

(** X16. Only build-info files ever reach the wrapped host: [writeFile]
    hands a file on exactly when its name has no [.ngtypecheck.], no source
    files come with it and its extension is [.tsbuildinfo], and does nothing
    else then. In every other case the wrapped host is left alone; and an
    emit that does not come from exactly one source file throws without
    changing anything. *)
Theorem writeFile_reaches_host_only_for_buildinfo entryPoint fileName data
    writeByteOrderMark sourceFiles w :
  let r := writeFile entryPoint fileName data writeByteOrderMark sourceFiles w in
  if negb (Js.includes fileName ".ngtypecheck.")
     && bool_decide (from_option length 0 sourceFiles = 0)
     && String.eqb (extname fileName) ".tsbuildinfo"
  then r = (Returned (),
            log (EvHostWriteFile fileName data writeByteOrderMark)
              (setHost (host_writeFile (compilerHost w) fileName data
                          writeByteOrderMark) w))
  else compilerHost r.2 = compilerHost w ∧
       Forall (λ e, ∀ name text mark, e ≠ EvHostWriteFile name text mark)
         (logged w r.2) ∧
       (Js.includes fileName ".ngtypecheck." = false →
        from_option length 0 sourceFiles ≠ 1 →
        r = (Threw ("Invalid TypeScript program emit for " +:+ fileName), w)).
Proof.
  cbn zeta. unfold writeFile.
  destruct (Js.includes fileName ".ngtypecheck.") eqn:Hshim; cbn [negb andb].
  { unfold ret. cbn [fst snd]. rewrite logged_refl. by split_and!. }
  destruct (bool_decide (from_option length 0 sourceFiles = 0)
            && String.eqb (extname fileName) ".tsbuildinfo") eqn:Hinfo; [done|].
  destruct (bool_decide (from_option length 0 sourceFiles = 1)) eqn:Hone; cbn [negb].
  - apply bool_decide_eq_true in Hone.
    unfold bind, gets, throw, modify, ret.
    destruct (targetOf w entryPoint) as [t|].
    + destruct (decide (OutputFile.content <$> outputCache t !! fileName = Some data)).
      * cbn [fst snd]. split_and!; [done| |intros _ Hcount; by destruct Hcount].
        rewrite (logged_app _ _ [EvOutputGet entryPoint fileName]) by done.
        by repeat constructor.
      * cbn [fst snd]. split_and!; [done| |intros _ Hcount; by destruct Hcount].
        rewrite (logged_app _ _ [EvOutputGet entryPoint fileName;
                                 EvOutputSet entryPoint fileName]).
        -- by repeat constructor.
        -- cbn. by rewrite <-app_assoc.
    + cbn [fst snd]. rewrite logged_refl.
      split_and!; [done|done|intros _ Hcount; by destruct Hcount].
  - unfold throw. cbn [fst snd]. rewrite logged_refl. by split_and!.
Qed.

(** X17. Versions in the output caches are always the digest of the
    content: if every output cache entry carries the sha256 of its content
    before [writeFile], so it does afterwards. *)
Theorem writeFile_keeps_outputs_hashed entryPoint fileName data writeByteOrderMark
    sourceFiles w :
  outputsHashed w →
  outputsHashed (writeFile entryPoint fileName data writeByteOrderMark sourceFiles w).2.
Proof.
  intros Hhashed. unfold writeFile.
  destruct (Js.includes fileName ".ngtypecheck."); [done|].
  destruct (_ && _); [done|].
  destruct (negb _); [done|].
  unfold bind, gets, throw, modify, ret.
  destruct (targetOf w entryPoint) as [t|] eqn:Ht'; [|done].
  destruct (decide _) as [|_]; [done|]. cbn [snd].
  intros n name entry. unfold outputOf.
  rewrite targetOf_log, targetOf_alterTarget.
  destruct (decide (n = entryPoint)) as [->|Hne]; [|apply Hhashed].
  rewrite targetOf_log, Ht'. cbn.
  destruct (decide (name = fileName)) as [->|Hname].
  - rewrite lookup_insert_eq. by intros [= <-].
  - rewrite lookup_insert_ne by done. intros Hentry. apply (Hhashed entryPoint name).
    unfold outputOf. by rewrite Ht'.
Qed.

(** *** Resources *)

(** X18. A resource that does not exist fails before anything is cached
    or bundled: when no content is cached and the wrapped host denies the
    file, [readResource] throws [Cannot read file], having asked the host
    only whether the file exists; no field of any cache entry changes (the
    denial is not remembered either) and the stylesheet processor is not
    called. *)
Theorem readResource_missing_file entryPoint fileName host' w :
  cached content w fileName = None →
  host_fileExists (compilerHost w) fileName = (host', false) →
  let r := readResource entryPoint fileName w in
  r.1 = Threw ("Cannot read file " +:+ fileName +:+ ".") ∧
  (∀ other, entryKept other w r.2) ∧
  bundler r.2 = bundler w ∧
  compilerHost r.2 = host' ∧
  logged w r.2 = [EvHostFileExists fileName].
Proof.
  intros Hnone Hhost.
  destruct (addDependee_returns entryPoint fileName w) as (w0 & Hdep & Hc & Hh & Hb & Ht).
  cbn zeta. unfold readResource. rewrite (bind_returned _ _ _ _ _ Hdep).
  rewrite (bind_returned _ _ _ _ _ (cacheOf_run fileName w0)).
  pose proof (getOrCreate_field content fileName (sourcesFileCache w0) eq_refl) as Hfield.
  pose proof (λ other, cacheOf_entryKept fileName other w0) as Hkept.
  rewrite cacheOf_run in Hkept.
  destruct (getOrCreate fileName (sourcesFileCache w0)) as [e c]. cbn [fst snd] in *.
  unfold cached in Hnone. rewrite Hc, Hnone in Hfield. rewrite Hfield.
  unfold bind, callFileExists, throw. cbn [compilerHost setSources].
  rewrite Hh, Hhost. cbn [negb fst snd]. split_and!; [done| |done|done|].
  - intros other. eapply entryKept_trans; [by apply entryKept_caches|].
    eapply entryKept_trans; [apply Hkept|]. by apply entryKept_caches.
  - apply logged_app. cbn. by rewrite Ht.
Qed.

(** X19. A template is read once and cached: when no content is cached,
    the wrapped host confirms the file and its extension is that of a
    template, [readResource] returns the text the host reads, stores it as
    the content of the entry and sets the entry's [exists] to [true]; the
    stylesheet processor is not called. *)
Theorem readResource_template_cached entryPoint fileName host1 host2 text w :
  cached content w fileName = None →
  host_fileExists (compilerHost w) fileName = (host1, true) →
  isTemplateExtension (extname fileName) = true →
  host_readFile host1 fileName = (host2, text) →
  let r := readResource entryPoint fileName w in
  r.1 = Returned text ∧
  cached content r.2 fileName = text ∧
  cached exists_ r.2 fileName = Some true ∧
  cached sourceFile r.2 fileName = cached sourceFile w fileName ∧
  bundler r.2 = bundler w ∧
  compilerHost r.2 = host2 ∧
  logged w r.2 = [EvHostFileExists fileName; EvHostReadFile fileName].
Proof.
  intros Hnone Hhost Hext Hread.
  destruct (addDependee_returns entryPoint fileName w) as (w0 & Hdep & Hc & Hh & Hb & Ht).
  cbn zeta. unfold readResource. rewrite (bind_returned _ _ _ _ _ Hdep).
  rewrite (bind_returned _ _ _ _ _ (cacheOf_run fileName w0)).
  pose proof (getOrCreate_at fileName (sourcesFileCache w0)) as Hat.
  pose proof (getOrCreate_field content fileName (sourcesFileCache w0) eq_refl) as Hfield.
  pose proof (getOrCreate_field sourceFile fileName (sourcesFileCache w0) eq_refl) as Hsf.
  destruct (getOrCreate fileName (sourcesFileCache w0)) as [e c]. cbn [fst snd] in *.
  unfold cached in Hnone. rewrite Hc in Hfield, Hsf. rewrite Hnone in Hfield.
  rewrite Hfield, Hext.
  unfold bind, callFileExists, callReadFile, assignCache, modify, ret.
  cbn [compilerHost setSources].
  rewrite Hh, Hhost. cbn [negb compilerHost log setHost]. rewrite Hread.
  cbn [fst snd]. unfold cached. cbn [sourcesFileCache setSources log setHost bundler].
  rewrite !lookup_alter_eq, Hat. cbn. split_and!; [done|done|done|done|done|done|].
  apply logged_app. cbn. by rewrite Ht, <-app_assoc.
Qed.

(** X20. [resourceNameToFileName] never fails: it returns the resource
    name resolved against the directory of the containing file, and
    afterwards the graph has a node for either file and the containing file
    depends on the resource; nothing but the graph changes. *)
Theorem resourceNameToFileName_links resourceName containingFilePath w :
  graphValid w →
  let resourcePath := path_resolve [path_dirname containingFilePath; resourceName] in
  ∃ w' containingNode resourceNode,
    resourceNameToFileName resourceName containingFilePath w
    = (Returned resourcePath, w') ∧
    Js.Map_get (fileUrl (ensureUnixPath containingFilePath)) (graph w')
    = Some containingNode ∧
    Js.Map_get (fileUrl (ensureUnixPath resourcePath)) (graph w') = Some resourceNode ∧
    dependsOnEdge w' containingNode resourceNode ∧
    graphStep w w'.
Proof.
  intros Hvalid resourcePath.
  destruct (getNode_grows containingFilePath w)
    as (a & w1 & Ha & Hget1 & (Hstep1 & _) & Hvalid1).
  destruct (Hvalid1 Hvalid) as [Hvalid1' Ha1].
  destruct (getNode_grows resourcePath w1)
    as (b & w2 & Hb & Hget2 & (Hstep2 & Hp2 & Hmono2) & Hvalid2).
  destruct (Hvalid2 Hvalid1') as [Hvalid2' Hb2].
  unfold resourceNameToFileName. fold resourcePath.
  rewrite (bind_returned _ _ _ _ _ Ha), (bind_returned _ _ _ _ _ Hb).
  assert (dependsOn a [b] w2 = (Returned (), linkAll a [b] w2)) as Hlink by done.
  rewrite (bind_returned _ _ _ _ _ Hlink).
  destruct (linkAll_grows a [b] w2) as (Hstep3 & Hgraph3 & _).
  exists (linkAll a [b] w2), a, b. split_and!; [done| | | |].
  - rewrite Hgraph3. by apply Hmono2.
  - by rewrite Hgraph3.
  - apply linkAll_edges; [|by apply Forall_singleton|by constructor].
    apply prefix_length in Hp2. lia.
  - eapply graphStep_trans; [|done]. by eapply graphStep_trans.
Qed.

(** X21. An inline style links the containing file to everything its
    bundle refers to, the containing file itself included: for a style
    without resource file and with an inline style language,
    [transformResource] returns the bundle's contents, or throws when the
    bundle has errors, and in both cases the graph then has a node for the
    containing file that depends on the node of every referenced file. *)
Theorem transformResource_links_referenced language data context sp sp' bundled w :
  graphValid w →
  from_option Js.truthy false (resourceFile context) = false →
  type context = "style" →
  Js.truthy language = true →
  bundler w = Some sp →
  sp_bundleInline sp data (containingFile context)
    (if Js.endsWith (containingFile context) ".html" then "css" else language)
  = (sp', bundled) →
  let r := transformResource (Some language) data context w in
  r.1 = (if bool_decide (errors bundled = [])
         then Returned (Some (contents bundled))
         else Threw ("An error has occuried while processing "
                     +:+ containingFile context +:+ ".")) ∧
  ∃ node,
    Js.Map_get (fileUrl (ensureUnixPath (containingFile context))) (graph r.2)
    = Some node ∧
    ∀ referenced,
      referenced ∈ referencedFiles bundled →
      ∃ dep,
        Js.Map_get (fileUrl (ensureUnixPath referenced)) (graph r.2) = Some dep ∧
        dependsOnEdge r.2 node dep.
Proof.
  intros Hvalid Hfile Htype Hlang Hsp Hbundle.
  cbn zeta. unfold transformResource. rewrite Hfile, Htype, String.eqb_refl.
  cbn [negb orb from_option default id]. rewrite Hlang.
  assert (callBundleInline data (containingFile context)
            (if Js.endsWith (containingFile context) ".html" then "css" else language) w
          = (Returned bundled, setBundler (Some sp') w)) as Hbundled.
  { unfold callBundleInline. by rewrite Hsp, Hbundle. }
  rewrite (bind_returned _ _ _ _ _ Hbundled).
  set (w1 := setBundler (Some sp') w).
  assert (graphValid w1) as Hvalid1 by done.
  destruct (getNode_grows (containingFile context) w1)
    as (node & w2 & Hnode & Hget2 & Hgrow2 & Hvalid2).
  destruct (Hvalid2 Hvalid1) as [Hvalid2' Hnode2].
  rewrite (bind_returned _ _ _ _ _ Hnode).
  destruct (getNodes_grows (referencedFiles bundled) w2)
    as (nodes & w3 & Hnodes & Hgets & Hgrow3 & Hvalid3).
  destruct (Hvalid3 Hvalid2') as [Hvalid3' Hnodes3].
  rewrite (bind_returned _ _ _ _ _ Hnodes).
  assert (dependsOn node nodes w3 = (Returned (), linkAll node nodes w3)) as Hlink by done.
  rewrite (bind_returned _ _ _ _ _ Hlink).
  set (w4 := linkAll node nodes w3).
  destruct (linkAll_grows node nodes w3) as (_ & Hgraph4 & _). fold w4 in Hgraph4.
  assert (node < length (heap w3)) as Hnode3.
  { destruct Hgrow3 as (_ & Hp & _). apply prefix_length in Hp. lia. }
  assert (∀ outcome : Outcome (option string) * World,
            outcome.2 = w4 →
            ∃ node',
              Js.Map_get (fileUrl (ensureUnixPath (containingFile context)))
                (graph outcome.2) = Some node' ∧
              ∀ referenced,
                referenced ∈ referencedFiles bundled →
                ∃ dep,
                  Js.Map_get (fileUrl (ensureUnixPath referenced)) (graph outcome.2)
                  = Some dep ∧
                  dependsOnEdge outcome.2 node' dep) as Hedges.
  { intros outcome ->. exists node. rewrite Hgraph4. split.
    { destruct Hgrow3 as (_ & _ & Hmono). by apply Hmono. }
    intros referenced [i Hi]%list_elem_of_lookup.
    destruct (Forall2_lookup_l _ _ _ _ _ Hgets Hi) as (dep & Hdep & Hgetdep).
    exists dep. split; [done|].
    apply linkAll_edges; [done|done|]. by apply list_elem_of_lookup_2 in Hdep. }
  destruct (bool_decide (errors bundled = [])); (split; [done|]); by apply Hedges.
Qed.

(** *** From a change back to the host *)

Lemma collectNodesToClean_keys w files s :
  collectNodesToClean w files = Some s →
  (findChangedNodes w files).*1 `prefix_of` (allNodesToClean s).*1.
Proof.
  intros Hs.
  apply (sweep_ind (λ _ s,
    (findChangedNodes w files).*1 `prefix_of` (allNodesToClean s).*1))
    in Hs as (i & Hp & _); [done| |done].
  intros i filePath n s0 Hp _. etrans; [done|apply sweepStep_prefix].
Qed.

(** X25. A changed file is read anew: when one of the changed paths has a
    node in the graph, the invalidation leaves no sources file cache entry
    for that path, whatever was cached before, so that the next [readFile]
    of it asks the wrapped host, returns the host's answer and caches
    that. *)
Theorem changed_file_is_read_again entryPoint changed files n w :
  changed ∈ files →
  graph_find w (λ node, String.eqb (fileUrl changed) (url node)) = Some n →
  ∃ r w',
    invalidateEntryPointsAndCacheOnFileChange w files = Some (r, w') ∧
    sourcesFileCache w' !! changed = None ∧
    let read := readFile entryPoint changed w' in
    let answer := host_readFile (compilerHost w) changed in
    read.1 = Returned answer.2 ∧
    cached content read.2 changed = answer.2 ∧
    logged w' read.2 = [EvHostReadFile changed].
Proof.
  intros Hin Hfind.
  destruct (collectNodesToClean_total w files) as (s & Hs & _).
  destruct (collectNodesToClean_effects w files s Hs) as [_ Hc]. cbn zeta in Hc.
  destruct (collectNodesToClean_frame w files s Hs) as (_ & _ & Hh & _).
  assert (changed ∈ (allNodesToClean s).*1) as Hkey.
  { eapply prefix_elem_of; [by apply collectNodesToClean_keys|].
    apply list_elem_of_fmap. exists (changed, n). split; [done|].
    apply Map_get_Some. unfold findChangedNodes.
    apply findChangedNodes_get; [done|by left]. }
  pose proof (markEntryPoints_step (allNodesToClean s) (potentialStylesResources s)
    (graph_filter (sweepWorld s) isEntryPoint) (false, sweepWorld s)) as Hstep.
  unfold invalidateEntryPointsAndCacheOnFileChange. rewrite Hs.
  destruct (markEntryPoints _ _ _ _) as [r w']. cbn [snd] in Hstep.
  destruct Hstep as (_ & Hc' & Hh' & _).
  exists r, w'. split; [done|].
  assert (sourcesFileCache w' !! changed = None) as Hgone.
  { rewrite Hc', Hc, fold_delete_lookup. by rewrite decide_True. }
  split; [done|].
  pose proof (readFile_uncached entryPoint changed w') as Hread.
  cbn zeta in *. rewrite Hh', Hh in Hread.
  destruct Hread as (? & ? & _ & ?); [|done].
  unfold cached. by rewrite Hgone.
Qed.

End MoreHostFacts.

(** ** Versioned programs and the file watcher *)

Section MoreWatchFacts.
Context `{Collaborators} `{NodePath} `{!InlineBundler}.

Lemma stampVersion_idem file : stampVersion (stampVersion file) = stampVersion file.
Proof. unfold stampVersion. by destruct (version file) eqn:Hv; cbn; rewrite ?Hv. Qed.

(** X22. The versioned [getSourceFiles] gives every file a version once
    and for all: it returns as many files as the program has, each with its
    text; a file that had a version keeps it whatever its text, a file that
    had none gets the sha256 of its text; and a second call returns the same
    files. *)
Theorem getSourceFiles_versions_once program :
  let files := (getSourceFiles program).1 in
  length files = length program ∧
  (∀ i file,
     program !! i = Some file →
     ∃ file',
       files !! i = Some file' ∧ text file' = text file ∧
       version file' = Some (default (sha256hex (text file)) (version file))) ∧
  getSourceFiles (getSourceFiles program).2 = getSourceFiles program.
Proof.
  cbn zeta. unfold getSourceFiles. cbn [fst snd]. split_and!.
  - by rewrite length_fmap.
  - intros i file Hfile. exists (stampVersion file). rewrite list_lookup_fmap, Hfile.
    split; [done|]. unfold stampVersion. by destruct (version file) eqn:Hv.
  - rewrite <-list_fmap_compose.
    assert (stampVersion ∘ stampVersion <$> program = stampVersion <$> program) as ->; [|done].
    apply list_fmap_ext. intros _ file _. apply stampVersion_idem.
Qed.

Lemma handleFileChange_fold isLinux raws observer :
  let r := fold_left (handleFileChange isLinux) raws observer in
  delivered r = delivered observer ++ omap forwarded raws ∧
  watcherCalls r =
    watcherCalls observer ++
    (if isLinux
     then raws ≫= (λ raw, [WatcherUnwatch raw.2; WatcherAdd raw.2])
     else []).
Proof.
  revert observer. induction raws as [|[kind path] raws IH]; intros observer.
  { cbn. destruct isLinux; by rewrite !app_nil_r. }
  cbn [fold_left]. destruct (IH (handleFileChange isLinux observer (kind, path)))
    as [Hd Hc].
  cbn zeta. rewrite Hd, Hc. split.
  - unfold handleFileChange, forwarded. cbn [omap list_omap fst snd].
    destruct kind; cbn [delivered]; by rewrite <-?app_assoc.
  - unfold handleFileChange.
    destruct isLinux, kind; cbn [watcherCalls]; by rewrite <-?app_assoc.
Qed.

(** X23. The watcher forwards file events one for one and in order: what
    a subscription is handed is the list of raw events without the
    directory events, each with its path resolved and normalised, nothing
    merged and nothing dropped; and on Linux every raw event, directory
    events included, re-arms the watch on its path. *)
Theorem onFileChange_forwards_in_order isLinux raws :
  delivered (onFileChange isLinux raws) = omap forwarded raws ∧
  watcherCalls (onFileChange isLinux raws) =
    if isLinux
    then raws ≫= (λ raw, [WatcherUnwatch raw.2; WatcherAdd raw.2])
    else [].
Proof.
  unfold onFileChange.
  destruct (handleFileChange_fold isLinux raws (mkSubscription [] [])) as [Hd Hc].
  by rewrite Hd, Hc.
Qed.

Lemma prefix_extends p s rest :
  String.prefix p s = true → String.prefix p (s +:+ rest) = true.
Proof.
  revert p. induction s as [|c s IH]; intros [|c' p]; simpl; try done.
  - by destruct rest.
  - destruct (Ascii.ascii_dec c' c); [apply IH|done].
Qed.

(** X24. Ignoring goes by the characters of the path: a file is ignored as
    soon as its normalised path continues that of an ignored file, whether
    or not the continuation starts a new path segment. *)
Theorem ignoredByPath_continuation ignoredPaths file file' rest :
  ignoredByPath ignoredPaths file = true →
  ensureUnixPath file' = ensureUnixPath file +:+ rest →
  ignoredByPath ignoredPaths file' = true.
Proof.
  unfold ignoredByPath. intros Hignored ->.
  apply existsb_exists in Hignored as (p & Hin & Hp).
  apply existsb_exists. exists p. split; [done|]. by apply prefix_extends.
Qed.

End MoreWatchFacts.

(** * The facts at concrete inputs *)

#[local] Existing Instance Demo.collaborators.

Example endsWith_ts :
  Js.endsWith "/src/a.ts" ".ts" = true ∧ Js.endsWith "/src/a.tsx" ".ts" = false ∧
  Js.endsWith "ts" ".ts" = false.
Proof. by vm_compute. Qed.

Example includes_ngtypecheck :
  Js.includes "/src/a.ngtypecheck.ts" ".ngtypecheck." = true ∧
  Js.includes "/src/a.ts" ".ngtypecheck." = false.
Proof. by vm_compute. Qed.

(** The scenario of the spec (§8): the entry point depends on [a.ts], which
    depends on [a.css]; when [a.css] changes, the entries of [a.css] and
    [a.ts] leave the sources file cache, the entry point becomes pending and
    the call returns [true]. The partial, which did not change and depends
    on nothing that did, keeps its entry. *)
Example library_stylesheet_changes :
  match invalidateEntryPointsAndCacheOnFileChange Demo.library ["/src/a.css"] with
  | Some (invalidated, w') =>
      invalidated = true ∧ stateOf w' 0 = Some "pending" ∧
      sourcesFileCache w' !! "/src/a.css" = None ∧
      sourcesFileCache w' !! "/src/a.ts" = None ∧
      sourcesFileCache w' !! "/src/p.css" = Some emptyEntry
  | None => False
  end.
Proof. by vm_compute. Qed.

(** C7 as stated fails: when [a.ts] of the library changes, its entry is
    evicted from the sources file cache first, and only then is the entry
    point examined and its own cache entry deleted. *)
Lemma library_eviction_not_last :
  ¬ evictionsLast (runTrace Demo.library ["/src/a.ts"]).
Proof.
  intros Hlast.
  assert (1 < 0) as Hlt; [|lia].
  apply (Hlast 0 1 "/src/a.ts" (EvAnalysesDelete 0 "/src/a.ts")); by vm_compute.
Qed.

(** C1 at the library: a changed file that no node stands for. *)
Lemma library_unknown_path :
  invalidateEntryPointsAndCacheOnFileChange Demo.library ["/src/unrelated.ts"]
  = Some (false, Demo.library).
Proof.
  apply invalidate_unknown_paths_noop.
  apply Forall_cons_2; [reflexivity|apply Forall_nil_2].
Defined.

(** C2 at the library: the partial [p.css] changes; the stylesheet [a.css]
    imports it, [a.ts] uses the stylesheet, and the entry point, which read
    [a.ts] and [a.css] but never [p.css], is marked dirty. *)
Lemma library_partial_changes :
  ∃ sw w',
    collectNodesToClean Demo.library ["/src/p.css"] = Some sw ∧
    ("/src/a.css", 2) ∈ allNodesToClean sw ∧
    ("/src/a.ts", 1) ∈ allNodesToClean sw ∧
    invalidateEntryPointsAndCacheOnFileChange Demo.library ["/src/p.css"]
    = Some (true, w') ∧
    stateOf w' 0 = Some "pending".
Proof.
  apply (invalidate_resource_fan_out_transitive Demo.library
           "/src/p.css" "/src/a.css" "/src/a.ts" 3 2 1 0).
  - intros x. reflexivity.
  - unfold uniquePaths. apply (bool_decide_unpack _). by vm_compute.
  - reflexivity.
  - reflexivity.
  - apply (bool_decide_unpack _). by vm_compute.
  - reflexivity.
  - reflexivity.
  - reflexivity.
  - apply (bool_decide_unpack _). by vm_compute.
  - reflexivity.
  - reflexivity.
  - apply (bool_decide_unpack _). by vm_compute.
  - left. apply (bool_decide_unpack _). by vm_compute.
Defined.

(** C3 at two stylesheets that import each other. *)
Lemma cycle_terminates :
  ∃ s r w',
    collectNodesToClean Demo.cycle ["/src/a.scss"] = Some s ∧
    invalidateEntryPointsAndCacheOnFileChange Demo.cycle ["/src/a.scss"]
    = Some (r, w') ∧
    NoDup (allNodesToClean s).*1 ∧ NoDup (allNodesToClean s).*2.
Proof.
  destruct (invalidate_terminates_once_per_node Demo.cycle ["/src/a.scss"])
    as (s & r & w' & Hs & Hrun & Hkeys & Hnodes).
  exists s, r, w'. split_and!; [exact Hs|exact Hrun|exact Hkeys|].
  apply Hnodes. intros x. reflexivity.
Defined.

(** What the sweep collects on the cycle: each stylesheet once. *)
Example cycle_nodes_to_clean :
  allNodesToClean <$> collectNodesToClean Demo.cycle ["/src/a.scss"]
  = Some [("/src/a.scss", 1); ("/src/b.scss", 2)].
Proof. reflexivity. Qed.

(** C10 at a type-check shim of the library. *)
Lemma library_ngtypecheck_skipped :
  writeFile 0 "/src/a.ngtypecheck.ts" "export {};" false
    (Some ["a.ts"]) Demo.library
  = (Returned (), Demo.library).
Proof. apply writeFile_ngtypecheck_returns_at_once. reflexivity. Defined.

(** C5 as stated fails: a type-check shim has nothing cached, so its data
    differs from the cached content, and yet no entry is stored for it. *)
Lemma library_shim_not_cached :
  ¬ writeSuppressionAsStated 0 "/src/a.ngtypecheck.ts"
      "export {};" false (Some ["a.ts"]) Demo.library.
Proof. intros [Hentry _]. vm_compute in Hentry. discriminate Hentry. Qed.

(** C5 (amended) at the library: after a first emit of [/dist/a.js], a
    second emit with the same data only reads the output cache, and a third
    with other data replaces the entry and its version. *)
Lemma library_emit_again :
  let second := writeFile 0 "/dist/a.js" "var a;" false (Some ["a.ts"]) Demo.emitted in
  let third := writeFile 0 "/dist/a.js" "var b;" false (Some ["a.ts"]) second.2 in
  (second.1 = Returned () ∧
   second.2 = log (EvOutputGet 0 "/dist/a.js") Demo.emitted ∧
   written Demo.emitted second.2 = false) ∧
  (third.1 = Returned () ∧
   outputOf third.2 0 "/dist/a.js" = Some (OutputFile.mk "var b;" "sha256:var b;") ∧
   written second.2 third.2 = true).
Proof.
  cbn zeta. split.
  - destruct (writeFile_suppresses_identical_content (H := Demo.collaborators) 0 "/dist/a.js" "var a;" false
                "a.ts" _ Demo.emitted eq_refl eq_refl) as (Hret & Hsame & _).
    rewrite decide_True in Hsame by (by vm_compute).
    destruct Hsame as [Hworld Hwritten]. split_and!; assumption.
  - destruct (writeFile_suppresses_identical_content (H := Demo.collaborators) 0 "/dist/a.js" "var b;" false
                "a.ts" _
                (writeFile (H := Demo.collaborators) 0 "/dist/a.js" "var a;" false
                   (Some ["a.ts"]) Demo.emitted).2
                eq_refl eq_refl) as (Hret & Hother & _).
    rewrite decide_False in Hother by (by vm_compute).
    destruct Hother as (Hentry & _ & _ & _ & Hwritten). split_and!; assumption.
Defined.

(** C9 at the library: reading the stylesheet [a.css] links it, and [a.ts]
    which uses it, to the partial and to the newly met [q.css]. *)
Lemma library_stylesheet_read :
  let r := readResource 0 "/src/a.css" Demo.restyled in
  r.1 = Returned (Some "/* /src/a.css */") ∧
  ∃ node,
    Js.Map_get "file:///src/a.css" (graph r.2) = Some node ∧
    ∀ referenced,
      referenced ∈ ["/src/p.css"; "/src/q.css"; "/src/a.css"] →
      ∃ dep,
        Js.Map_get (Demo.toUrl referenced) (graph r.2) = Some dep ∧
        (dep ≠ node →
         dependsOnEdge r.2 node dep ∧
         ∀ n dependee,
           n ∈ dependeesOf r.2 node → heap r.2 !! n = Some dependee →
           Js.endsWith (url dependee) ".ts" = true →
           dependsOnEdge r.2 n dep).
Proof.
  apply (readResource_links_stylesheet_imports (H := Demo.collaborators)
           0 "/src/a.css"
           [("/src/a.css", ["/src/p.css"; "/src/q.css"; "/src/a.css"])]
           [("/src/a.css", ["/src/p.css"; "/src/q.css"; "/src/a.css"])]
           (mkBundleResult ["/src/p.css"; "/src/q.css"; "/src/a.css"]
              "/* /src/a.css */" [] [])
           (compilerHost Demo.restyled) Demo.restyled).
  - unfold graphValid. apply (bool_decide_unpack _). by vm_compute.
  - reflexivity.
  - reflexivity.
  - reflexivity.
  - reflexivity.
  - reflexivity.
Defined.

(** The edges after that call: the stylesheet (node 2) and [a.ts] (node 1)
    depend on [p.css] (node 3) and on the new node of [q.css] (node 4); the
    entry point (node 0), whose URL does not end in ".ts", gains no edge. *)
Example library_stylesheet_read_edges :
  let w := (readResource 0 "/src/a.css" Demo.restyled).2 in
  dependentsOf w 2 = [3; 4] ∧ dependentsOf w 1 = [2; 3; 4] ∧
  dependentsOf w 0 = [1; 2] ∧ dependeesOf w 4 = [2; 1].
Proof. by vm_compute. Qed.

#[local] Existing Instance DemoPaths.nodePath.
#[local] Existing Instance DemoPaths.inlineBundler.

(** C4 at a workspace of two entry points, when the partial [p.css]
    changes. *)
Lemma workspace_partial_changes :
  ∃ s r w',
    collectNodesToClean Demo.workspace ["/src/p.css"] = Some s ∧
    invalidateEntryPointsAndCacheOnFileChange Demo.workspace ["/src/p.css"]
    = Some (r, w') ∧
    let dirty :=
      markedDirty (allNodesToClean s) (potentialStylesResources s) Demo.workspace in
    (r = true ↔ ∃ ep, ep ∈ graph_filter Demo.workspace isEntryPoint ∧ dirty ep = true) ∧
    (∀ ep, ep ∈ graph_filter Demo.workspace isEntryPoint → dirty ep = true →
           stateOf w' ep = Some "pending") ∧
    (∀ n, ¬ (n ∈ graph_filter Demo.workspace isEntryPoint ∧ dirty n = true) →
          stateOf w' n = stateOf Demo.workspace n).
Proof.
  apply (invalidate_true_iff_dirty_pending (H := Demo.collaborators) Demo.workspace
           ["/src/p.css"]).
  apply (bool_decide_unpack _). by vm_compute.
Defined.

(** There the library (node 0) is marked dirty, by its processor and by its
    dependents alike, and the other entry point (node 4) by neither; the
    call returns [true], the library ends pending and the other entry point
    stays done. *)
Example workspace_partial_outcome :
  (λ s, let all := allNodesToClean s in
        let resources := potentialStylesResources s in
        (stylesAffected resources Demo.workspace 0, dependsOnCleaned all Demo.workspace 0,
         markedDirty all resources Demo.workspace 4))
    <$> collectNodesToClean Demo.workspace ["/src/p.css"]
  = Some (true, true, false) ∧
  (λ r, (r.1, stateOf r.2 0, stateOf r.2 4))
    <$> invalidateEntryPointsAndCacheOnFileChange Demo.workspace ["/src/p.css"]
  = Some (true, Some "pending", Some "done").
Proof. by vm_compute. Qed.

(** When only [b.ts] changes it is the other way round. *)
Example workspace_source_outcome :
  (λ s, let all := allNodesToClean s in
        let resources := potentialStylesResources s in
        (markedDirty all resources Demo.workspace 0,
         markedDirty all resources Demo.workspace 4))
    <$> collectNodesToClean Demo.workspace ["/other/b.ts"]
  = Some (false, true) ∧
  (λ r, (r.1, stateOf r.2 0, stateOf r.2 4))
    <$> invalidateEntryPointsAndCacheOnFileChange Demo.workspace ["/other/b.ts"]
  = Some (true, Some "done", Some "pending").
Proof. by vm_compute. Qed.

(** C6 as stated fails: [fileExists] has cached that the template [a.html]
    does not exist; the file is created and [readResource] reads it, which
    sets the cached [exists] to [true] though nothing was evicted, and
    [fileExists] then answers [true]. *)
Lemma library_stale_exists_overwritten :
  ¬ trustAsStated 0 [CallReadResource "/src/a.html"] "/src/a.html" DemoPaths.stale.
Proof.
  intros [Hexists _]. destruct (Hexists false eq_refl) as (w2 & Hrun & _).
  vm_compute in Hrun. discriminate Hrun.
Qed.

(** The steps of that run: the cached answer before, the answer after, and
    the calls in between, none of them an eviction. *)
Example library_stale_exists_steps :
  let w1 := (readResource 0 "/src/a.html" DemoPaths.stale).2 in
  cached exists_ DemoPaths.stale "/src/a.html" = Some false ∧
  (fileExists "/src/a.html" w1).1 = Returned true ∧
  logged DemoPaths.stale w1
  = [EvHostFileExists "/src/a.html"; EvHostReadFile "/src/a.html"].
Proof. by vm_compute. Qed.

(** C6 (amended) at the warmed library, where [a.ts] has been asked about
    in all three ways: after a read of the stylesheet, a new source file of
    the stylesheet, an emit, a question about another file and a
    [readResource] of [a.ts] itself, each of the three answers about [a.ts]
    comes from the cache. *)
Lemma library_reads_served_from_cache :
  let w1 :=
    runCalls 0
      [ CallReadResource "/src/a.css";
        CallGetSourceFile "/src/a.css" 99 true;
        CallWriteFile (H := Demo.collaborators) "/dist/a.js" "var a;" false (Some ["a.ts"]);
        CallFileExists "/src/none.ts";
        CallReadResource "/src/a.ts" ]
      Demo.warmed in
  (∃ w2, readFile 0 "/src/a.ts" w1 = (Returned (Some "import './a.css'"), w2) ∧
         servedFromCache w1 w2) ∧
  (∃ w2, fileExists "/src/a.ts" w1 = (Returned true, w2) ∧ servedFromCache w1 w2) ∧
  (∃ w2, getSourceFile 0 "/src/a.ts" 99 false w1
         = (Returned (Some "import './a.css'"), w2) ∧
         servedFromCache w1 w2).
Proof.
  destruct (populated_cache_fields_are_trusted (H := Demo.collaborators) 0 "/src/a.ts"
              [ CallReadResource "/src/a.css";
                CallGetSourceFile "/src/a.css" 99 true;
                CallWriteFile (H := Demo.collaborators) "/dist/a.js" "var a;" false (Some ["a.ts"]);
                CallFileExists "/src/none.ts";
                CallReadResource "/src/a.ts" ]
              Demo.warmed)
    as (Hcontent & Hexists & Hsource).
  split_and!.
  - apply (Hcontent "import './a.css'"). reflexivity.
  - apply (Hexists true); [reflexivity|]. left. reflexivity.
  - apply (Hsource "import './a.css'" 99); [reflexivity|].
    apply (bool_decide_unpack _). by vm_compute.
Defined.

(** ** The further facts at the library *)


(** X2 at the library: a change of [a.ts] alone cleans [a.ts] alone. *)
Lemma library_source_changes :
  ∃ s r w',
    collectNodesToClean Demo.library ["/src/a.ts"] = Some s ∧
    allNodesToClean s = findChangedNodes Demo.library ["/src/a.ts"] ∧
    potentialStylesResources s = [] ∧
    invalidateEntryPointsAndCacheOnFileChange Demo.library ["/src/a.ts"]
    = Some (r, w') ∧
    noStylesCall Demo.library w'.
Proof.
  apply (invalidate_ts_batch_no_fan_out (H := Demo.collaborators) Demo.library
           ["/src/a.ts"]).
  apply (bool_decide_unpack _). by vm_compute.
Defined.

(** X4 at the library: the entry point read [a.css], which changes. *)
Lemma library_stylesheet_changes_dirty :
  ∃ w',
    invalidateEntryPointsAndCacheOnFileChange Demo.library ["/src/a.css"]
    = Some (true, w') ∧
    stateOf w' 0 = Some "pending".
Proof.
  apply (invalidate_direct_dependency_dirty (H := Demo.collaborators) Demo.library
           ["/src/a.css"] "/src/a.css" 2 0).
  - intros x. reflexivity.
  - unfold uniquePaths. apply (bool_decide_unpack _). by vm_compute.
  - apply (bool_decide_unpack _). by vm_compute.
  - reflexivity.
  - apply (bool_decide_unpack _). by vm_compute.
  - apply (bool_decide_unpack _). by vm_compute.
Defined.

(** X7 at the library: the first call for [b.ts] makes node 4, the second
    finds it. *)
Lemma library_new_node :
  ∃ n w',
    getNode "/src/b.ts" Demo.library = (Returned n, w') ∧
    getNode "/src/b.ts" w' = (Returned n, w') ∧
    (graphSound Demo.library → url <$> heap w' !! n = Some "file:///src/b.ts").
Proof.
  apply (getNode_one_node_per_url (H := Demo.collaborators) "/src/b.ts" "/src/b.ts"
           Demo.library).
  reflexivity.
Defined.

(** X8 at the library: the stylesheet [gone.css] does not exist and the
    read throws, yet the entry point depends on its node afterwards. *)
Lemma library_failed_read_registers :
  ∃ n,
    Js.Map_get "file:///src/gone.css"
      (graph (readResource 0 "/src/gone.css" Demo.library).2) = Some n ∧
    dependsOnEdge (readResource 0 "/src/gone.css" Demo.library).2 0 n.
Proof.
  apply (host_reads_register_dependency (H := Demo.collaborators) 0 "/src/gone.css"
           Demo.library).
  - unfold graphValid. apply (bool_decide_unpack _). by vm_compute.
  - apply (bool_decide_unpack _). by vm_compute.
  - right. left. reflexivity.
Defined.

(** X9 at the library: the entry point reads [b.ts], which no node stood
    for; a change of [b.ts] then makes the entry point dirty. *)
Lemma library_read_then_change :
  ∃ w2,
    invalidateEntryPointsAndCacheOnFileChange
      (readFile 0 "/src/b.ts" Demo.library).2 ["/src/b.ts"] = Some (true, w2) ∧
    stateOf w2 0 = Some "pending".
Proof.
  apply (read_then_change_makes_dirty (H := Demo.collaborators) 0 "/src/b.ts"
           Demo.library (readFile 0 "/src/b.ts" Demo.library).2).
  - intros x. reflexivity.
  - unfold graphSound. apply (bool_decide_unpack _). by vm_compute.
  - unfold graphValid. apply (bool_decide_unpack _). by vm_compute.
  - apply (bool_decide_unpack _). by vm_compute.
  - left. reflexivity.
  - unfold uniquePaths. apply (bool_decide_unpack _). by vm_compute.
Defined.

(** X10 at the library: calls about [a.ts] keep the entry of [a.css]. *)
Lemma library_other_entry_kept :
  always (entryKept "/src/a.css") (fileExists "/src/a.ts") ∧
  (∀ languageVersion fresh,
     always (entryKept "/src/a.css")
       (getSourceFile 0 "/src/a.ts" languageVersion fresh)) ∧
  always (entryKept "/src/a.css") (readFile 0 "/src/a.ts") ∧
  always (entryKept "/src/a.css") (readResource 0 "/src/a.ts").
Proof.
  apply (host_calls_touch_own_entry_only (H := Demo.collaborators) 0 "/src/a.ts"
           "/src/a.css").
  apply (bool_decide_unpack _). by vm_compute.
Defined.

(** X11 at the stylesheet [a.css]. *)
Lemma library_stylesheet_not_cached :
  always (entryKept "/src/a.css") (readResource 0 "/src/a.css").
Proof.
  apply (readResource_stylesheet_never_cached (H := Demo.collaborators) 0 "/src/a.css"
           "/src/a.css").
  reflexivity.
Defined.

(** X14 at the library: the host has no [b.ts]. *)
Lemma library_missing_file_read :
  let r := readFile 0 "/src/b.ts" Demo.library in
  r.1 = Returned None ∧
  cached content r.2 "/src/b.ts" = None ∧
  compilerHost r.2 = compilerHost Demo.library ∧
  logged Demo.library r.2 = [EvHostReadFile "/src/b.ts"].
Proof.
  apply (readFile_missing_not_cached (H := Demo.collaborators) 0 "/src/b.ts"
           (compilerHost Demo.library) Demo.library).
  - reflexivity.
  - reflexivity.
Defined.

(** X15 at the warmed library: a new source file of [a.ts] is asked for
    although one is cached. *)
Lemma library_new_source_file :
  let r := getSourceFile 0 "/src/a.ts" 99 true Demo.warmed in
  let answer := host_getSourceFile (compilerHost Demo.warmed) "/src/a.ts" 99 in
  r.1 = Returned answer.2 ∧
  cached sourceFile r.2 "/src/a.ts" = answer.2 ∧
  compilerHost r.2 = answer.1 ∧
  logged Demo.warmed r.2 = [EvHostGetSourceFile "/src/a.ts"] ∧
  cached exists_ r.2 "/src/a.ts" = cached exists_ Demo.warmed "/src/a.ts" ∧
  cached content r.2 "/src/a.ts" = cached content Demo.warmed "/src/a.ts".
Proof.
  apply (getSourceFile_asks_host (H := Demo.collaborators) 0 "/src/a.ts" 99 true
           Demo.warmed).
  left. reflexivity.
Defined.

(** X17 at the library: no output is cached before the first emit, and the
    one cached after it carries its digest. *)
Lemma library_emit_hashed : outputsHashed Demo.emitted.
Proof.
  apply (writeFile_keeps_outputs_hashed (H := Demo.collaborators) 0 "/dist/a.js"
           "var a;" false (Some ["a.ts"]) Demo.library).
  intros n fileName entry. unfold outputOf.
  destruct n as [|[|[|[|n]]]]; cbn; by rewrite ?lookup_empty.
Defined.

(** X18 at the library: the host has no [gone.css]. *)
Lemma library_missing_resource :
  let r := readResource 0 "/src/gone.css" Demo.library in
  r.1 = Threw "Cannot read file /src/gone.css." ∧
  (∀ other, entryKept other Demo.library r.2) ∧
  bundler r.2 = bundler Demo.library ∧
  compilerHost r.2 = compilerHost Demo.library ∧
  logged Demo.library r.2 = [EvHostFileExists "/src/gone.css"].
Proof.
  apply (readResource_missing_file (H := Demo.collaborators) 0 "/src/gone.css"
           (compilerHost Demo.library) Demo.library).
  - reflexivity.
  - reflexivity.
Defined.

(** X19 at the template [a.html]. *)
Lemma library_template_read :
  let r := readResource 0 "/src/a.html" DemoPaths.templated in
  r.1 = Returned (Some "<p></p>") ∧
  cached content r.2 "/src/a.html" = Some "<p></p>" ∧
  cached exists_ r.2 "/src/a.html" = Some true ∧
  cached sourceFile r.2 "/src/a.html" = cached sourceFile DemoPaths.templated "/src/a.html" ∧
  bundler r.2 = bundler DemoPaths.templated ∧
  compilerHost r.2 = compilerHost DemoPaths.templated ∧
  logged DemoPaths.templated r.2
  = [EvHostFileExists "/src/a.html"; EvHostReadFile "/src/a.html"].
Proof.
  apply (readResource_template_cached (H := Demo.collaborators) 0 "/src/a.html"
           (compilerHost DemoPaths.templated) (compilerHost DemoPaths.templated)
           (Some "<p></p>") DemoPaths.templated).
  - reflexivity.
  - reflexivity.
  - reflexivity.
  - reflexivity.
Defined.

(** X20 at the library: [a.ts] names the template [b.html] beside it. *)
Lemma library_resource_name :
  ∃ w' containingNode resourceNode,
    resourceNameToFileName "b.html" "/src/a.ts" Demo.library
    = (Returned "/src/b.html", w') ∧
    Js.Map_get "file:///src/a.ts" (graph w') = Some containingNode ∧
    Js.Map_get "file:///src/b.html" (graph w') = Some resourceNode ∧
    dependsOnEdge w' containingNode resourceNode ∧
    graphStep Demo.library w'.
Proof.
  refine (resourceNameToFileName_links (H := Demo.collaborators) "b.html" "/src/a.ts"
            Demo.library _).
  unfold graphValid. apply (bool_decide_unpack _). by vm_compute.
Defined.

(** X21 at the library: the inline styles of [a.ts] import the partial and
    refer to [a.ts] itself. *)
Lemma library_inline_style :
  let r := transformResource (Some "scss") "p {}"
             (mkResourceContext "/src/a.ts" None "style") DemoPaths.inlined in
  r.1 = Returned (Some "p {}") ∧
  ∃ node,
    Js.Map_get "file:///src/a.ts" (graph r.2) = Some node ∧
    ∀ referenced,
      referenced ∈ ["/src/p.css"; "/src/a.ts"] →
      ∃ dep,
        Js.Map_get (Demo.toUrl referenced) (graph r.2) = Some dep ∧
        dependsOnEdge r.2 node dep.
Proof.
  apply (transformResource_links_referenced (H := Demo.collaborators) "scss" "p {}"
           (mkResourceContext "/src/a.ts" None "style")
           [("/src/a.ts", ["/src/p.css"; "/src/a.ts"])]
           [("/src/a.ts", ["/src/p.css"; "/src/a.ts"])]
           (mkBundleResult ["/src/p.css"; "/src/a.ts"] "p {}" [] [])
           DemoPaths.inlined).
  - unfold graphValid. apply (bool_decide_unpack _). by vm_compute.
  - reflexivity.
  - reflexivity.
  - reflexivity.
  - reflexivity.
  - reflexivity.
Defined.

(** The self-edge of that call: [a.ts] (node 1) depends on itself. *)
Example library_inline_style_edges :
  let w := (transformResource (Some "scss") "p {}"
              (mkResourceContext "/src/a.ts" None "style") DemoPaths.inlined).2 in
  dependentsOf w 1 = [2; 3; 1] ∧ dependeesOf w 1 = [0; 1].
Proof. by vm_compute. Qed.

(** X24: ignoring [/dist] ignores its sibling [/dist-old] as well. *)
Lemma sibling_directory_ignored :
  ignoredByPath ["/dist"] "/dist-old/a.ts" = true.
Proof.
  apply (ignoredByPath_continuation (H := Demo.collaborators) ["/dist"] "/dist"
           "/dist-old/a.ts" "-old/a.ts").
  - reflexivity.
  - reflexivity.
Defined.

(** X25 at the warmed library, where the text of [a.ts] is cached: after
    the change the host is asked for it again. *)
Lemma library_changed_file_read_again :
  ∃ r w',
    invalidateEntryPointsAndCacheOnFileChange Demo.warmed ["/src/a.ts"]
    = Some (r, w') ∧
    sourcesFileCache w' !! "/src/a.ts" = None ∧
    let read := readFile 0 "/src/a.ts" w' in
    let answer := host_readFile (compilerHost Demo.warmed) "/src/a.ts" in
    read.1 = Returned answer.2 ∧
    cached content read.2 "/src/a.ts" = answer.2 ∧
    logged w' read.2 = [EvHostReadFile "/src/a.ts"].
Proof.
  apply (changed_file_is_read_again (H := Demo.collaborators) 0 "/src/a.ts"
           ["/src/a.ts"] 1 Demo.warmed).
  - apply (bool_decide_unpack _). by vm_compute.
  - reflexivity.
Defined.

(** The text was cached before the change. *)
Example library_warmed_content :
  cached content Demo.warmed "/src/a.ts" = Some "import './a.css'".
Proof. reflexivity. Qed.
